(** * String utilities of [util.py]: DOI cleaning and text normalisation

    A shallow embedding of the string helpers of [util.py]
    ([clean_doi], [is_doi_url], [normalize], [normalize_simple] and the
    helpers they call) together with the properties that the
    specification states about them.

    Python strings are sequences of Unicode code points; they are
    modelled as lists of code points.  The functions depend on data that
    lives outside the module: the Unicode character database behind
    [str.lower], [str.isalnum], [str.isspace] and
    [unicodedata.category], and the transliteration table of the
    [unidecode] package.  That data is a parameter of the development
    (record [Unicode]); what is assumed about it is listed in the record
    and holds of the real tables.  [tab_unicode] is a finite excerpt of
    the real tables, used to evaluate the functions on concrete inputs. *)

From Stdlib Require Import Ascii String List NArith ZArith QArith Bool Lia.
Import ListNotations.

Local Open Scope N_scope.

(** ** Strings and characters *)

(** A code point. *)
Definition char : Type := N.

(** A Python [str]. *)
Definition str : Type := list char.

(** The code point of an ASCII character literal. *)
Definition chr (a : ascii) : char := N_of_ascii a.

(** The [str] of an ASCII string literal. *)
Definition lit (s : string) : str := map N_of_ascii (list_ascii_of_string s).

Definition newline : char := 10.

Fixpoint str_eqb (a b : str) : bool :=
  match a, b with
  | [], [] => true
  | x :: a', y :: b' => (x =? y) && str_eqb a' b'
  | _, _ => false
  end.

Fixpoint takeWhile (p : char -> bool) (s : str) : str :=
  match s with
  | [] => []
  | c :: t => if p c then c :: takeWhile p t else []
  end.

Fixpoint dropWhile (p : char -> bool) (s : str) : str :=
  match s with
  | [] => []
  | c :: t => if p c then dropWhile p t else s
  end.

(** [p in s] for a one-character [p]. *)
Definition contains_char (c : char) (s : str) : bool := existsb (N.eqb c) s.

(** [s.split(sep)] for a one-character separator. *)
Fixpoint split (sep : char) (s : str) : list str :=
  match s with
  | [] => [[]]
  | c :: t =>
      if c =? sep then [] :: split sep t
      else match split sep t with
           | h :: r => (c :: h) :: r
           | [] => [[c]]
           end
  end.

(** ** The Unicode general categories *)

Inductive gencat : Type :=
  | Lu | Ll | Lt | Lm | Lo
  | Mn | Mc | Me
  | Nd | Nl | No
  | Pc | Pd | Ps | Pe | Pi | Pf | Po
  | Sm | Sc | Sk | So
  | Zs | Zl | Zp
  | Cc | Cf | Cs | Co | Cn.

(** [category(c)[0]]: the first letter of the two-letter category name. *)
Definition initial (g : gencat) : ascii :=
  match g with
  | Lu | Ll | Lt | Lm | Lo => "L"
  | Mn | Mc | Me => "M"
  | Nd | Nl | No => "N"
  | Pc | Pd | Ps | Pe | Pi | Pf | Po => "P"
  | Sm | Sc | Sk | So => "S"
  | Zs | Zl | Zp => "Z"
  | Cc | Cf | Cs | Co | Cn => "C"
  end%char.

(** ** The ASCII part of the Unicode tables *)

Definition is_ascii (c : char) : bool := c <? 128.

Definition is_ascii_upper (c : char) : bool := (65 <=? c) && (c <=? 90).
Definition is_ascii_lower (c : char) : bool := (97 <=? c) && (c <=? 122).
Definition is_ascii_digit (c : char) : bool := (48 <=? c) && (c <=? 57).

Definition ascii_isalnum (c : char) : bool :=
  is_ascii_digit c || is_ascii_upper c || is_ascii_lower c.

(** Tab, LF, VT, FF, CR, the separators FS, GS, RS, US, and space. *)
Definition ascii_isspace (c : char) : bool :=
  ((9 <=? c) && (c <=? 13)) || ((28 <=? c) && (c <=? 32)).

Definition ascii_lower (c : char) : char :=
  if is_ascii_upper c then c + 32 else c.

(** General category of the code points below 128, as ranges
    (last code point of the range, category). *)
Definition ascii_category_ranges : list (N * gencat) :=
  [ (31, Cc); (32, Zs); (35, Po); (36, Sc); (39, Po); (40, Ps); (41, Pe);
    (42, Po); (43, Sm); (44, Po); (45, Pd); (47, Po); (57, Nd); (59, Po);
    (62, Sm); (64, Po); (90, Lu); (91, Ps); (92, Po); (93, Pe); (94, Sk);
    (95, Pc); (96, Sk); (122, Ll); (123, Ps); (124, Sm); (125, Pe);
    (126, Sm); (127, Cc) ].

Fixpoint range_lookup (tbl : list (N * gencat)) (c : char) : gencat :=
  match tbl with
  | [] => Cn
  | (hi, g) :: rest => if c <=? hi then g else range_lookup rest c
  end.

Definition ascii_category (c : char) : gencat :=
  range_lookup ascii_category_ranges c.

(** ** The Unicode data the module depends on *)

Record Unicode : Type := {
  (** [unicodedata.category(c)] *)
  category : char -> gencat;
  (** [s.lower()]; a function of the whole string, because the lower
      case of a capital sigma depends on its position in the word *)
  lower : str -> str;
  (** [c.isalnum()] *)
  isalnum : char -> bool;
  (** [c.isspace()], which is also the class [\s] of [re] *)
  isspace : char -> bool;
  (** what [unidecode] writes for one character *)
  unidecode_char : char -> str;

  category_ascii : forall c, c < 128 -> category c = ascii_category c;
  isalnum_ascii : forall c, c < 128 -> isalnum c = ascii_isalnum c;
  isspace_ascii : forall c, c < 128 -> isspace c = ascii_isspace c;
  lower_ascii : forall s,
      Forall (fun c => c < 128) s -> lower s = map ascii_lower s;
  (** an ASCII character of a lowered string is a small letter or was
      already there, and is never a capital letter *)
  lower_ascii_out : forall s c,
      In c (lower s) -> c < 128 ->
      is_ascii_lower c = true \/ (In c s /\ is_ascii_upper c = false);
  unidecode_ascii : forall c, c < 128 -> unidecode_char c = [c];
  unidecode_out : forall c c', In c' (unidecode_char c) -> c' < 128
}.

(** ** Exceptions and results *)

Inductive exn : Type :=
  | NoDoiException (msg : string).

Inductive result (A : Type) : Type :=
  | Return (a : A)
  | Raise (e : exn).

Arguments Return {A} a.
Arguments Raise {A} e.

(** The two errors of [clean_doi]: one exception class, two messages. *)
Definition no_doi_at_all : exn := NoDoiException "There's no DOI at all.".
Definition no_valid_doi : exn := NoDoiException "There's no valid DOI.".

(** ** Regular expressions of the module

    The patterns are fixed, so each is modelled by the function that
    tells whether (and how far) it matches at the head of the remaining
    text; [re_sub_empty] and [re_findall] below are the scanning loops
    of [re.sub(p, "", s)] and [re.findall(p, s)]. *)

(** [.] (without DOTALL): any character but a newline. *)
Definition dot (c : char) : bool := negb (c =? newline).

(** [re.sub(p, "", s)].  [m prev s] is the length of the match of [p]
    that starts at the head of [s], [prev] being the character before
    it.  The scan goes left to right; at a match of [n >= 1] characters
    these are dropped and the scan resumes behind them ([skip] counts
    the characters still to drop); elsewhere the character is kept.  An
    empty match is replaced by the empty string, which changes
    nothing. *)
Fixpoint sub_scan (m : option char -> str -> option nat)
    (skip : nat) (prev : option char) (s : str) : str :=
  match s with
  | [] => []
  | c :: t =>
      match skip with
      | S k => sub_scan m k (Some c) t
      | O =>
          match m prev s with
          | Some (S k) => sub_scan m k (Some c) t
          | _ => c :: sub_scan m 0 (Some c) t
          end
      end
  end.

Definition re_sub_empty (m : option char -> str -> option nat) (s : str) : str :=
  sub_scan m 0 None s.

(** [re.findall(p, s)] for a pattern with one group.  [m s] is the match
    of [p] at the head of [s]: its length and the text of its group.
    The patterns given to it here never match the empty string. *)
Fixpoint findall_scan (m : str -> option (nat * str)) (skip : nat) (s : str)
  : list str :=
  match s with
  | [] => []
  | _ :: t =>
      match skip with
      | S k => findall_scan m k t
      | O =>
          match m s with
          | Some (S k, g) => g :: findall_scan m k t
          | _ => findall_scan m 0 t
          end
      end
  end.

Definition re_findall (m : str -> option (nat * str)) (s : str) : list str :=
  findall_scan m 0 s.

(** The literal [p] at the head of [s]: what follows it. *)
Fixpoint strip_prefix (p s : str) : option str :=
  match p with
  | [] => Some s
  | x :: p' =>
      match s with
      | y :: s' => if x =? y then strip_prefix p' s' else None
      | [] => None
      end
  end.

(** [.*?] followed by the literal character [stop]: the number of
    characters up to and including the first [stop], provided no newline
    comes before it. *)
Fixpoint lazy_until (stop : char) (s : str) : option nat :=
  match s with
  | [] => None
  | c :: t =>
      if c =? stop then Some 1%nat
      else if dot c then option_map S (lazy_until stop t)
      else None
  end.

(** The pattern [<.*?>] of [clean_html]. *)
Definition tag_match (prev : option char) (s : str) : option nat :=
  match s with
  | c :: t => if c =? chr "<" then option_map S (lazy_until (chr ">") t) else None
  | [] => None
  end.

(** Patterns with a group, in continuation style: a matcher reads the
    head of the text and returns the number of characters the match
    takes from there and the text of the group. *)
Definition matcher : Type := str -> option (nat * str).

Definition longer (n : nat) (r : option (nat * str)) : option (nat * str) :=
  match r with
  | Some (k, g) => Some ((n + k)%nat, g)
  | None => None
  end.

(** A literal, then [k]. *)
Definition lit_then (p : str) (k : matcher) : matcher :=
  fun s =>
    match strip_prefix p s with
    | Some rest => longer (length p) (k rest)
    | None => None
    end.

(** [.], then [k]. *)
Definition dot_then (k : matcher) : matcher :=
  fun s =>
    match s with
    | c :: rest => if dot c then longer 1 (k rest) else None
    | [] => None
    end.

(** [(?:r)?], then [k]: greedy, so [r] is tried first. *)
Definition opt_then (r : matcher -> matcher) (k : matcher) : matcher :=
  fun s =>
    match r k s with
    | Some m => Some m
    | None => k s
    end.

(** [.*?], then [k]: lazy, so [k] is tried first. *)
Fixpoint lazy_dots_then (k : matcher) (s : str) : option (nat * str) :=
  match k s with
  | Some m => Some m
  | None =>
      match s with
      | c :: rest => if dot c then longer 1 (lazy_dots_then k rest) else None
      | [] => None
      end
  end.

(** The group [( .* )] at the end of a pattern: the rest of the line. *)
Definition rest_of_line : matcher :=
  fun s => let g := takeWhile dot s in Some (length g, g).

(** The group [(10.+)] at the end of a pattern. *)
Definition ten_group : matcher :=
  fun s =>
    match strip_prefix (lit "10") s with
    | Some (c :: rest) =>
        if dot c
        then let g := lit "10" ++ c :: takeWhile dot rest in Some (length g, g)
        else None
    | _ => None
    end.

(** The pattern [https?:\/\/(?:dx.)?doi.org\/( .* )] of [is_doi_url]. *)
Definition doi_url_pattern : matcher :=
  lit_then (lit "http")
    (opt_then (lit_then (lit "s"))
       (lit_then (lit "://")
          (opt_then (fun k => lit_then (lit "dx") (dot_then k))
             (lit_then (lit "doi")
                (dot_then (lit_then (lit "org/") rest_of_line)))))).

(** The pattern [.*?(10.+)] of [clean_doi]. *)
Definition doi_pattern : matcher := lazy_dots_then ten_group.

Section WithUnicode.

Variable U : Unicode.

(** [\w]: alphanumeric or underscore. *)
Definition is_word (c : char) : bool := isalnum U c || (c =? chr "_").

Definition opt_word (c : option char) : bool :=
  match c with
  | Some x => is_word x
  | None => false
  end.

(** [\b] between [prev] and [next] ([None] at either end of the text). *)
Definition boundary (prev next : option char) : bool :=
  xorb (opt_word prev) (opt_word next).

(** The character before the position reached after reading [a]. *)
Definition last_char (prev : option char) (a : str) : option char :=
  fold_left (fun _ c => Some c) a prev.

(** The alternatives [a1|a2|...] followed by [\b], tried in order. *)
Fixpoint first_alt (alts : list str) (prev : option char) (s : str)
  : option nat :=
  match alts with
  | [] => None
  | a :: more =>
      match strip_prefix a s with
      | Some rest =>
          if boundary (last_char prev a) (hd_error rest)
          then Some (length a)
          else first_alt more prev s
      | None => first_alt more prev s
      end
  end.

(** The patterns [\b(a1|a2|...)\b]. *)
Definition words_match (alts : list str) (prev : option char) (s : str)
  : option nat :=
  if boundary prev (hd_error s) then first_alt alts prev s else None.

(** The pattern [\s+]: the whole run of white space at the head. *)
Definition spaces_match (prev : option char) (s : str) : option nat :=
  match takeWhile (isspace U) s with
  | [] => None
  | run => Some (length run)
  end.

(** *** [clean_html] *)

Definition clean_html (raw_html : str) : str :=
  re_sub_empty tag_match raw_html.

(** *** [remove_punctuation] *)

Definition remove_punctuation (input_string : str) : str :=
  match input_string with
  | [] => input_string
  | _ => filter (fun e => isalnum U e || isspace U e) input_string
  end.

(** [unidecode(s)]: character by character. *)
Definition unidecode (s : str) : str := flat_map (unidecode_char U) s.

(** *** [normalize] *)

Definition articles : list str := [lit "a"; lit "an"; lit "the"].
Definition conjunction : list str := [lit "and"].

Definition normalize (text : str) : str :=
  let response := lower U text in
  let response := unidecode response in
  let response := clean_html response in
  let response := remove_punctuation response in
  let response := re_sub_empty (words_match articles) response in
  let response := re_sub_empty (words_match conjunction) response in
  let response := re_sub_empty spaces_match response in
  response.

(** *** [normalize_simple] *)


(** *** [is_doi_url] *)

Definition is_doi_url (url : str) : bool :=
  let matches := re_findall doi_url_pattern (lower U url) in
  if Nat.ltb 0 (length matches) then true else false.

(** *** [to_unicode_or_bust]

    Both tests are [isinstance(obj, str)], so the inner branch is never
    taken and the argument comes back as it is. *)
Definition to_unicode_or_bust (obj : str) : str := obj.

(** *** [remove_nonprinting_characters]

    [input_was_unicode] stays true for the same reason, so the filtered
    string is returned without being encoded. *)
Definition char_classes_to_remove : list ascii := ["C"; "M"; "Z"]%char.

Definition remove_nonprinting_characters (input : str) : str :=
  let unicode_input := to_unicode_or_bust input in
  filter
    (fun c =>
       negb (existsb (Ascii.eqb (initial (category U c))) char_classes_to_remove))
    unicode_input.

(** [s.strip()] *)
Definition lstrip (s : str) : str := dropWhile (isspace U) s.
Definition rstrip (s : str) : str := rev (dropWhile (isspace U) (rev s)).
Definition strip (s : str) : str := rstrip (lstrip s).

(** *** [clean_doi]

    The argument is [None] or a string.  Decoding the match with
    [str(match, "utf-8")] raises [TypeError] on a [str], which the
    handler turns into [resp = match]. *)
Definition clean_doi (dirty_doi : option str) : result str :=
  match dirty_doi with
  | None | Some [] => Raise (NoDoiException "There's no DOI at all.")
  | Some dirty_doi =>
      let dirty_doi := remove_nonprinting_characters dirty_doi in
      let dirty_doi := strip dirty_doi in
      let dirty_doi := lower U dirty_doi in
      let matches := re_findall doi_pattern dirty_doi in
      match matches with
      | [] => Raise (NoDoiException "There's no valid DOI.")
      | match_ :: _ =>
          let resp := match_ in
          let resp :=
            if contains_char (chr "#") resp
            then hd [] (split (chr "#") resp)
            else resp in
          Return resp
      end
  end.

(** ** Vocabulary of the statements *)

(** The input of [clean_doi] after its three cleaning steps: without
    the characters of categories C, M and Z, stripped, lowered. *)
Definition cleaned (dirty_doi : str) : str :=
  lower U (strip (remove_nonprinting_characters dirty_doi)).

(** The text up to the first [#]. *)
Definition before_hash (s : str) : str :=
  takeWhile (fun c => negb (c =? chr "#")) s.

(** [s] begins with [10] and one more character of the line. *)
Definition starts_ten (s : str) : bool :=
  match s with
  | c1 :: c2 :: c3 :: _ => (c1 =? chr "1") && (c2 =? chr "0") && dot c3
  | _ => false
  end.

(** The first position of [s] where [starts_ten] holds: the text from
    there on. *)
Fixpoint find_ten (s : str) : option str :=
  if starts_ten s then Some s
  else match s with
       | [] => None
       | _ :: t => find_ten t
       end.

(** A resolver link as the specification writes it:
    [http(s)://[dx.]doi.org/<suffix>]. *)
Definition resolver_link (s : str) : Prop :=
  exists scheme dx suffix,
    (scheme = lit "http" \/ scheme = lit "https") /\
    (dx = [] \/ dx = lit "dx.") /\
    s = scheme ++ lit "://" ++ dx ++ lit "doi.org/" ++ suffix.

(** The same with any character in the place of each full stop. *)
Definition resolver_like (s : str) : Prop :=
  exists scheme dx c suffix,
    (scheme = lit "http" \/ scheme = lit "https") /\
    (dx = [] \/ exists d, dx = lit "dx" ++ [d]) /\
    s = scheme ++ lit "://" ++ dx ++ lit "doi" ++ c :: lit "org/" ++ suffix.

(** A character of category C, M or Z. *)
Definition nonprinting (c : char) : bool :=
  existsb (Ascii.eqb (initial (category U c))) char_classes_to_remove.

(** Not white space. *)
Definition not_space (c : char) : bool := negb (isspace U c).

(** A literal alternative of a pattern of words: not empty, made of
    word characters. *)
Definition word_alt (a : str) : Prop :=
  a <> [] /\ forall c, In c a -> is_word c = true.



End WithUnicode.

(** ** Vocabulary for ASCII text and for texts of words *)

(** Text of code points below 128. *)
Definition ascii_str (s : str) : Prop := forallb is_ascii s = true.

(** A character before a position, below 128 if there is one. *)
Definition opt_ascii (p : option char) : Prop :=
  match p with
  | Some c => c < 128
  | None => True
  end.

(** The first 128 code points, to settle facts about them by
    evaluation. *)
Definition ascii_range : list char := map N.of_nat (seq 0 128).

(** Printable, and printable but not a capital letter. *)
Definition printable (c : char) : bool := (33 <=? c) && (c <=? 126).
Definition tidy (c : char) : bool := printable c && negb (is_ascii_upper c).

(** Of category C, M or Z according to the ASCII table. *)
Definition ascii_nonprinting (c : char) : bool :=
  existsb (Ascii.eqb (initial (ascii_category c))) char_classes_to_remove.

Definition space : char := chr " ".

(** Words joined by a separator. *)
Fixpoint join (sep : char) (ws : list str) : str :=
  match ws with
  | [] => []
  | [w] => w
  | w :: rest => w ++ sep :: join sep rest
  end.

(** A word struck out when it is one of [alts]. *)
Definition strike (alts : list str) (w : str) : str :=
  if existsb (str_eqb w) alts then [] else w.

(** A small ASCII letter or a digit. *)
Definition plain_char (c : char) : bool := is_ascii_lower c || is_ascii_digit c.

(** One of the four words that [normalize] removes. *)
Definition stopword (w : str) : bool :=
  existsb (str_eqb w) (articles ++ conjunction).

(** The words of a text: what stands between its white space
    characters, in order (the empty word between two white space
    characters that follow each other, and at an end of the text that
    is white space). *)
Fixpoint words (U : Unicode) (s : str) : list str :=
  match s with
  | [] => [[]]
  | c :: t =>
      if isspace U c then [] :: words U t
      else match words U t with
           | w :: ws => (c :: w) :: ws
           | [] => [[c]]
           end
  end.

(** A text in which the white space characters are the characters that
    are not word characters. *)
Definition spaced (U : Unicode) (s : str) : Prop :=
  forall c, In c s -> is_word U c = negb (isspace U c).

(** The text in which [normalize] looks for the words to remove: the
    input lowered, transliterated, without tags and punctuation. *)
Definition prepared (U : Unicode) (text : str) : str :=
  remove_punctuation U (clean_html (unidecode U (lower U text))).

(** ** An excerpt of the Unicode tables

    The code points below 128 and, beyond them, LATIN SMALL LETTER E
    WITH ACUTE (U+00E9), LATIN CAPITAL LETTER I WITH DOT ABOVE (U+0130),
    COMBINING DOT ABOVE (U+0307), the ideographs U+5317 and U+4EB0 and
    MATHEMATICAL BOLD CAPITAL A (U+1D400), with the values Python and
    [unidecode] give them.  Every other code
    point is treated as unassigned: category [Cn], no case, neither
    alphanumeric nor white space, transliterated to nothing. *)

Definition tab_category (c : char) : gencat :=
  if c <? 128 then ascii_category c
  else if c =? 0xE9 then Ll
  else if c =? 0x130 then Lu
  else if c =? 0x307 then Mn
  else if c =? 0x5317 then Lo
  else if c =? 0x4EB0 then Lo
  else if c =? 0x1D400 then Lu
  else Cn.

Definition tab_lower_char (c : char) : str :=
  if c <? 128 then [ascii_lower c]
  else if c =? 0x130 then [0x69; 0x307]
  else [c].

Definition tab_lower (s : str) : str := flat_map tab_lower_char s.

Definition tab_isalnum (c : char) : bool :=
  if c <? 128 then ascii_isalnum c
  else (c =? 0xE9) || (c =? 0x130) || (c =? 0x5317) || (c =? 0x4EB0)
       || (c =? 0x1D400).

Definition tab_isspace (c : char) : bool :=
  if c <? 128 then ascii_isspace c else false.

Definition tab_unidecode_char (c : char) : str :=
  if c <? 128 then [c]
  else if c =? 0xE9 then lit "e"
  else if c =? 0x130 then lit "I"
  else if c =? 0x5317 then lit "Bei "
  else if c =? 0x4EB0 then lit "Jing "
  else if c =? 0x1D400 then lit "A"
  else [].

(** ** The excerpt satisfies what is assumed of the tables *)

Lemma tab_category_ascii c : c < 128 -> tab_category c = ascii_category c.
Proof.
  intros H. unfold tab_category.
  apply N.ltb_lt in H. now rewrite H.
Qed.

Lemma tab_isalnum_ascii c : c < 128 -> tab_isalnum c = ascii_isalnum c.
Proof.
  intros H. unfold tab_isalnum.
  apply N.ltb_lt in H. now rewrite H.
Qed.

Lemma tab_isspace_ascii c : c < 128 -> tab_isspace c = ascii_isspace c.
Proof.
  intros H. unfold tab_isspace.
  apply N.ltb_lt in H. now rewrite H.
Qed.

Lemma tab_lower_ascii s :
  Forall (fun c => c < 128) s -> tab_lower s = map ascii_lower s.
Proof.
  unfold tab_lower.
  induction 1 as [|c s Hc _ IH]; simpl; [reflexivity|].
  rewrite IH. unfold tab_lower_char.
  apply N.ltb_lt in Hc. now rewrite Hc.
Qed.

Lemma ascii_lower_out c :
  is_ascii_lower (ascii_lower c) = true \/
  (ascii_lower c = c /\ is_ascii_upper c = false).
Proof.
  unfold ascii_lower. destruct (is_ascii_upper c) eqn:E.
  - left. unfold is_ascii_upper in E. unfold is_ascii_lower.
    apply andb_true_iff in E. destruct E as [E1 E2].
    apply N.leb_le in E1. apply N.leb_le in E2.
    apply andb_true_iff. split; apply N.leb_le; lia.
  - right. split; reflexivity.
Qed.

Lemma tab_lower_ascii_out s c :
  In c (tab_lower s) -> c < 128 ->
  is_ascii_lower c = true \/ (In c s /\ is_ascii_upper c = false).
Proof.
  intros Hin Hc. unfold tab_lower in Hin.
  apply in_flat_map in Hin. destruct Hin as [c0 [Hc0 Hin]].
  unfold tab_lower_char in Hin.
  destruct (c0 <? 128) eqn:E0.
  - destruct Hin as [<-|[]].
    destruct (ascii_lower_out c0) as [H|[H1 H2]]; [now left|].
    right. rewrite H1. auto.
  - destruct (c0 =? 0x130).
    + destruct Hin as [<-|[<-|[]]]; [now left | lia].
    + destruct Hin as [<-|[]]. apply N.ltb_ge in E0. lia.
Qed.

Lemma tab_unidecode_ascii c : c < 128 -> tab_unidecode_char c = [c].
Proof.
  intros H. unfold tab_unidecode_char.
  apply N.ltb_lt in H. now rewrite H.
Qed.

Lemma tab_unidecode_out c c' : In c' (tab_unidecode_char c) -> c' < 128.
Proof.
  unfold tab_unidecode_char.
  destruct (c <? 128) eqn:E.
  - intros [<-|[]]. now apply N.ltb_lt.
  - repeat match goal with
           | |- context [if ?b then _ else _] => destruct b
           end;
      cbn; intros H;
      repeat (destruct H as [<-|H]; [reflexivity|]); destruct H.
Qed.

Definition tab_unicode : Unicode :=
  {| category := tab_category;
     lower := tab_lower;
     isalnum := tab_isalnum;
     isspace := tab_isspace;
     unidecode_char := tab_unidecode_char;
     category_ascii := tab_category_ascii;
     isalnum_ascii := tab_isalnum_ascii;
     isspace_ascii := tab_isspace_ascii;
     lower_ascii := tab_lower_ascii;
     lower_ascii_out := tab_lower_ascii_out;
     unidecode_ascii := tab_unidecode_ascii;
     unidecode_out := tab_unidecode_out |}.

(** ** Three more facts of the Unicode tables

    [clean_doi] lowers the text after it has removed the characters of
    categories C, M and Z.  What its result can hold of these categories
    rests on three facts that are true of the Unicode tables and are not
    among those of [Unicode] above: a white space character is of
    category C or Z; the one character of category C, M or Z that
    [lower] writes where the text did not have it is COMBINING DOT ABOVE
    (U+0307, in the lower case of U+0130); and that character is of
    category [Mn]. *)



(** ** Other functions of the module *)

(** The exceptions these functions raise, and what a call comes to. *)
Inductive py_exn : Type :=
  | ValueError (msg : string)
  | TypeError (msg : string)
  | IndexError (msg : string)
  | AttributeError (msg : string)
  | ZeroDivisionError (msg : string)
  | RuntimeError (msg : string).

Inductive outcome (A : Type) : Type :=
  | Returns (a : A)
  | Raises (e : py_exn).

Arguments Returns {A} a.
Arguments Raises {A} e.

(** [needle in hay] for strings: [needle] occurs somewhere in [hay]. *)
Fixpoint str_in (needle hay : str) : bool :=
  match strip_prefix needle hay with
  | Some _ => true
  | None =>
      match hay with
      | [] => false
      | _ :: t => str_in needle t
      end
  end.

(** *** [pick_best_url] *)

Definition pmc_stub : str := lit "http://www.ncbi.nlm.nih.gov/pmc/articles/PMC".

(** One turn of the loop: the response after [url] has been seen. *)
Definition pick_step (response url : str) : str :=
  let response := if str_in (lit "doi.org") url then url else response in
  if str_eqb response pmc_stub then url else response.

Definition pick_best_url (urls : list str) : option str :=
  match urls with
  | [] => None
  | first :: _ =>
      let response := first in
      Some (fold_left pick_step urls response)
  end.

(** *** [chunks] *)

(** [l[i:j]] for [0 <= i <= j]. *)
Definition slice {A : Type} (l : list A) (i j : nat) : list A :=
  firstn (j - i) (skipn i l).

(** [range(i, stop, step)] for [step >= 1]; it has at most [stop]
    elements, and [fuel] bounds their number. *)
Fixpoint range_from (fuel i stop step : nat) : list nat :=
  match fuel with
  | O => []
  | S f =>
      if (i <? stop)%nat then i :: range_from f (i + step) stop step else []
  end.

(** The chunks in the order the generator yields them.  [range] refuses
    a step of zero when the generator is first advanced, and is empty
    for a negative step. *)
Definition chunks {A : Type} (l : list A) (n : Z) : outcome (list (list A)) :=
  if (n =? 0)%Z then Raises (ValueError "range() arg 3 must not be zero")
  else if (n <? 0)%Z then Returns []
  else
    let n := Z.to_nat n in
    Returns (map (fun i => slice l i (i + n)) (range_from (length l) 0 (length l) n)).

(** *** [truncate] *)

(** [s[0:stop]]: a negative [stop] counts from the end. *)
Definition slice_to {A : Type} (s : list A) (stop : Z) : list A :=
  if (0 <=? stop)%Z then firstn (Z.to_nat stop) s
  else firstn (Z.to_nat (Z.of_nat (length s) + stop)) s.

Definition truncate : str -> Z -> str :=
  fun str max =>
    if (max <? Z.of_nat (length str))%Z
    then slice_to str max ++ lit "..."
    else str.

(** *** [validate_author_url] *)

(** The class [[A-Za-z0-9_]]. *)
Definition name_char (c : char) : bool := ascii_isalnum c || (c =? chr "_").

(** The group [([A-Za-z0-9_]{1,15}$)] at the end of a pattern: the
    repetition is greedy and [$] holds at the end of the text or before
    a newline that ends it, so the run of name characters must reach
    that point and have one to fifteen characters. *)
Definition name_at_end : matcher :=
  fun s =>
    let run := takeWhile name_char s in
    let rest := dropWhile name_char s in
    if ((1 <=? length run)%nat && (length run <=? 15)%nat)
       && (str_eqb rest [] || str_eqb rest [newline])
    then Some (length run, run)
    else None.

(** The pattern [screen_name=([A-Za-z0-9_]{1,15}$)]. *)
Definition screen_name_pattern : matcher :=
  lit_then (lit "screen_name=") name_at_end.

(** The argument is [None] or a string. *)
Definition validate_author_url (author_url : option str)
  : outcome (option str) :=
  match author_url with
  | Some (c :: u) =>
      match strip_prefix (lit "twitter://") (c :: u) with
      | Some _ =>
          match re_findall screen_name_pattern (c :: u) with
          | screen_name :: _ =>
              Returns (Some (lit "http://www.twitter.com/" ++ screen_name))
          | [] => Raises (IndexError "list index out of range")
          end
      | None => Returns author_url
      end
  | _ => Returns author_url
  end.

(** *** [replace_punctuation] *)

Definition punctutation_cats : list gencat := [Pc; Pd; Ps; Pe; Pi; Pf; Po].

Definition gencat_eq_dec (a b : gencat) : {a = b} + {a <> b}.
Proof. decide equality. Defined.

Definition in_cats (g : gencat) (cats : list gencat) : bool :=
  if in_dec gencat_eq_dec g cats then true else false.

Definition replace_punctuation (U : Unicode) (text sub : str) : str :=
  flat_map
    (fun my_char =>
       if in_cats (category U my_char) punctutation_cats then sub
       else [my_char])
    text.

(** *** [median] *)

(** The numbers of the module: [int], and [float] for what [/] and
    [float()] give.  A float carries its exact value; the ones computed
    here are halves of small integers, which floats hold exactly. *)
Inductive pynum : Type :=
  | PyInt (z : Z)
  | PyFloat (q : Q).

Definition to_Q (a : pynum) : Q :=
  match a with
  | PyInt z => inject_Z z
  | PyFloat q => q
  end.

(** [a / b]: true division, a float whatever the operands. *)
Definition true_div (a b : pynum) : outcome pynum :=
  if Qeq_bool (to_Q b) 0
  then Raises (ZeroDivisionError "division by zero")
  else Returns (PyFloat (to_Q a / to_Q b)).

(** [a + b] and [a - b]: an [int] for two [int]s, a float otherwise. *)
Definition num_add (a b : pynum) : pynum :=
  match a, b with
  | PyInt x, PyInt y => PyInt (x + y)
  | _, _ => PyFloat (to_Q a + to_Q b)
  end.

Definition num_sub (a b : pynum) : pynum :=
  match a, b with
  | PyInt x, PyInt y => PyInt (x - y)
  | _, _ => PyFloat (to_Q a - to_Q b)
  end.

(** [l[i]]: an [int] index, counted from the end when negative; a
    float is refused. *)
Definition list_index (l : list Z) (i : pynum) : outcome Z :=
  match i with
  | PyFloat _ =>
      Raises (TypeError "list indices must be integers or slices, not float")
  | PyInt z =>
      let n := Z.of_nat (length l) in
      let z := if (z <? 0)%Z then (z + n)%Z else z in
      if ((0 <=? z) && (z <? n))%Z
      then Returns (nth (Z.to_nat z) l 0%Z)
      else Raises (IndexError "list index out of range")
  end.

(** An [int] slice bound clipped to the list, as slicing does. *)
Definition clip (l : list Z) (z : Z) : nat :=
  let n := Z.of_nat (length l) in
  let z := if (z <? 0)%Z then (z + n)%Z else z in
  Z.to_nat (Z.min n (Z.max 0 z)).

(** [l[i:j]]: float bounds are refused. *)
Definition list_slice (l : list Z) (i j : pynum) : outcome (list Z) :=
  match i, j with
  | PyInt a, PyInt b => Returns (slice l (clip l a) (clip l b))
  | _, _ =>
      Raises (TypeError
        "slice indices must be integers or None or have an __index__ method")
  end.

(** [sorted(l)] for integers. *)
Fixpoint insert_sorted (x : Z) (l : list Z) : list Z :=
  match l with
  | [] => [x]
  | y :: t => if (x <=? y)%Z then x :: l else y :: insert_sorted x t
  end.

Definition sorted (l : list Z) : list Z := fold_right insert_sorted [] l.

Definition bind {A B : Type} (a : outcome A) (f : A -> outcome B) : outcome B :=
  match a with
  | Returns x => f x
  | Raises e => Raises e
  end.

(** A list of integers; the result is [None] or a number. *)
Definition median (my_list : list Z) : outcome (option pynum) :=
  let my_list := sorted my_list in
  let len := Z.of_nat (length my_list) in
  if (len <? 1)%Z then Returns None
  else if (len mod 2 =? 1)%Z then
    bind (true_div (num_add (PyInt len) (PyInt 1)) (PyInt 2)) (fun half =>
    bind (list_index my_list (num_sub half (PyInt 1))) (fun x =>
    Returns (Some (PyInt x))))
  else if (len mod 2 =? 0)%Z then
    bind (true_div (PyInt len) (PyInt 2)) (fun lo =>
    bind (true_div (PyInt len) (PyInt 2)) (fun hi =>
    bind (list_slice my_list (num_sub lo (PyInt 1)) (num_add hi (PyInt 1)))
      (fun part =>
    bind (true_div (PyFloat (inject_Z (fold_right Z.add 0%Z part)))
            (PyFloat 2)) (fun m =>
    Returns (Some m)))))
  else Returns None.

(** *** [HTTPMethodOverrideMiddleware]

    The values of a WSGI environment are strings; the middleware also
    stores the bytes that [encode] returns. *)
Inductive envval : Type :=
  | EStr (s : str)
  | EBytes (b : list N).

(** A [dict] with string keys, in insertion order. *)
Definition dict (V : Type) : Type := list (str * V).

Fixpoint dict_get {V : Type} (d : dict V) (k : str) : option V :=
  match d with
  | [] => None
  | (k', v) :: rest => if str_eqb k k' then Some v else dict_get rest k
  end.

(** [d[k] = v]: the entry is replaced where it stands, or added at the
    end. *)
Fixpoint dict_set {V : Type} (d : dict V) (k : str) (v : V) : dict V :=
  match d with
  | [] => [(k, v)]
  | (k', v') :: rest =>
      if str_eqb k k' then (k', v) :: rest else (k', v') :: dict_set rest k v
  end.

Definition allowed_methods : list str :=
  [lit "GET"; lit "HEAD"; lit "POST"; lit "DELETE"; lit "PUT"; lit "PATCH";
   lit "OPTIONS"].

Definition bodyless_methods : list str :=
  [lit "GET"; lit "HEAD"; lit "OPTIONS"; lit "DELETE"].

(** [v in methods] for a set of strings: bytes are equal to no
    string. *)
Definition in_methods (v : envval) (methods : list str) : bool :=
  match v with
  | EStr s => existsb (str_eqb s) methods
  | EBytes _ => false
  end.

(** [s.encode('ascii', 'replace')] *)
Definition encode_ascii_replace (s : str) : list N :=
  map (fun c => if c <? 128 then c else chr "?") s.

Section Middleware.

(** [s.upper()], and the wrapped application. *)
Variable upper : str -> str.
Variable Response : Type.
Variable app : dict envval -> Response.

(** The environment that [__call__] hands to the application.  The
    environment it receives from the server holds strings; the method
    it stores is the result of [encode], which is bytes. *)
Definition override_environ (environ : dict str) : dict envval :=
  let method :=
    upper (match dict_get environ (lit "HTTP_X_HTTP_METHOD_OVERRIDE") with
           | Some s => s
           | None => lit ""
           end) in
  let environ : dict envval := map (fun kv => (fst kv, EStr (snd kv))) environ in
  let method := EStr method in
  let '(method, environ) :=
    if in_methods method allowed_methods
    then
      let method :=
        match method with
        | EStr s => EBytes (encode_ascii_replace s)
        | EBytes b => EBytes b
        end in
      (method, dict_set environ (lit "REQUEST_METHOD") method)
    else (method, environ) in
  if in_methods method bodyless_methods
  then dict_set environ (lit "CONTENT_LENGTH") (EStr (lit "0"))
  else environ.

Definition middleware_call (environ : dict str) : Response :=
  app (override_environ environ).

End Middleware.

(** *** [update_recursive_sum]

    The function changes [d] in place and returns it, and what
    [d.get(k, {})] hands to the inner call is the dictionary stored in
    [d] itself.  So the dictionaries are objects of a store, known by
    their addresses, and a value is an integer or the address of a
    dictionary; a dictionary keeps its keys in the order of their
    insertion.  The recursion follows the dictionaries of [u] in the
    store, which need not end: [fuel] bounds the depth of the calls, and
    [None] is the answer of a call that would go deeper (the recursion
    limit of the interpreter is not part of the model). *)

Definition addr : Type := nat.
Bind Scope nat_scope with addr.

Inductive value : Type :=
  | VInt (z : Z)
  | VRef (a : addr).

Definition store : Type := list (dict value).

(** The dictionary at an address. *)
Definition store_get (h : store) (a : addr) : dict value := nth a h [].

Fixpoint store_set (h : store) (a : addr) (d : dict value) : store :=
  match h, a with
  | [], _ => []
  | _ :: t, O => d :: t
  | x :: t, S a' => x :: store_set t a' d
  end.

(** [{}]: a new dictionary, behind every address in use. *)
Definition alloc (h : store) (d : dict value) : store * value :=
  (h ++ [d], VRef (length h)).

(** [d[k] = x] for the dictionary at address [d]. *)
Definition setitem (h : store) (d : addr) (k : str) (x : value) : store :=
  store_set h d (dict_set (store_get h d) k x).

Section UpdateRecursiveSum.

(** Whether the module [collections] of the interpreter has the name
    [Mapping]: it has in Python before 3.10, and not since. *)
Variable Mapping_defined : bool.

(** The body of the loop for the item [(k, v)], [rec] being the function
    itself: the store it leaves, and the exception if it raises.
    [isinstance] looks up [collections.Mapping] before anything else.
    A new dictionary is put in the store only where [d.get] returns it,
    and [u[k]] is [v], the value that the iteration has just read under
    [k]. *)
Definition update_item
    (rec : store -> value -> value -> option (store * outcome value))
    (h : store) (d : value) (k : str) (v : value)
  : option (store * outcome unit) :=
  if negb Mapping_defined
  then Some (h, Raises (AttributeError
                          "module 'collections' has no attribute 'Mapping'"))
  else
    match v with
    | VRef _ =>
        match d with
        | VInt _ =>
            Some (h, Raises (AttributeError "'int' object has no attribute 'get'"))
        | VRef da =>
            let (h1, x) := match dict_get (store_get h da) k with
                           | Some x => (h, x)
                           | None => alloc h []
                           end in
            match rec h1 x v with
            | Some (h2, Returns r) => Some (setitem h2 da k r, Returns tt)
            | Some (h2, Raises e) => Some (h2, Raises e)
            | None => None
            end
        end
    | VInt n =>
        match d with
        | VInt _ =>
            Some (h, Raises (TypeError "argument of type 'int' is not iterable"))
        | VRef da =>
            match dict_get (store_get h da) k with
            | Some (VInt m) => Some (setitem h da k (VInt (m + n)), Returns tt)
            | Some (VRef _) =>
                Some (h, Raises (TypeError
                  "unsupported operand type(s) for +=: 'dict' and 'int'"))
            | None => Some (setitem h da k (VInt n), Returns tt)
            end
        end
    end.

(** [for k, v in u.items()]: the items of the dictionary at [u] are read
    from the store as the loop goes, position after position, and every
    step of the iterator, the last one included, first checks that the
    dictionary still has the [size] it had when the loop began. *)
Fixpoint update_loop
    (rec : store -> value -> value -> option (store * outcome value))
    (u : addr) (size : nat) (positions : list nat) (h : store) (d : value)
  : option (store * outcome value) :=
  if negb (length (store_get h u) =? size)%nat
  then Some (h, Raises (RuntimeError "dictionary changed size during iteration"))
  else
    match positions with
    | [] => Some (h, Returns d)
    | p :: rest =>
        match nth_error (store_get h u) p with
        | None => Some (h, Returns d)
        | Some (k, v) =>
            match update_item rec h d k v with
            | Some (h', Returns _) => update_loop rec u size rest h' d
            | Some (h', Raises e) => Some (h', Raises e)
            | None => None
            end
        end
    end.

Fixpoint update_recursive_sum (fuel : nat) (h : store) (d u : value)
  : option (store * outcome value) :=
  match fuel with
  | O => None
  | S fuel =>
      match u with
      | VInt _ =>
          Some (h, Raises (AttributeError "'int' object has no attribute 'items'"))
      | VRef ua =>
          let size := length (store_get h ua) in
          update_loop (update_recursive_sum fuel) ua size (seq 0 size) h d
      end
  end.

End UpdateRecursiveSum.

(** *** Dictionaries that share nothing

    A dictionary of which no part is reached twice is a tree, and on
    trees the recursive sum is a function of the two trees; it is what
    [update_recursive_sum] is compared with below. *)
#[warnings="-register-all"]
Inductive tree : Type :=
  | TNum (z : Z)
  | TDict (items : list (str * tree)).

(** One turn of the loop on trees, [rec] being the function itself. *)
Definition tree_item (rec : tree -> tree -> outcome tree)
    (d : tree) (k : str) (v : tree) : outcome tree :=
  match v with
  | TDict _ =>
      match d with
      | TDict ditems =>
          bind (rec (match dict_get ditems k with
                     | Some x => x
                     | None => TDict []
                     end) v)
            (fun r => Returns (TDict (dict_set ditems k r)))
      | TNum _ => Raises (AttributeError "'int' object has no attribute 'get'")
      end
  | TNum n =>
      match d with
      | TDict ditems =>
          match dict_get ditems k with
          | Some (TNum m) => Returns (TDict (dict_set ditems k (TNum (m + n))))
          | Some (TDict _) =>
              Raises (TypeError
                "unsupported operand type(s) for +=: 'dict' and 'int'")
          | None => Returns (TDict (dict_set ditems k (TNum n)))
          end
      | TNum _ => Raises (TypeError "argument of type 'int' is not iterable")
      end
  end.

Fixpoint tree_loop (rec : tree -> tree -> outcome tree)
    (d : tree) (items : list (str * tree)) : outcome tree :=
  match items with
  | [] => Returns d
  | (k, v) :: rest =>
      bind (tree_item rec d k v) (fun d' => tree_loop rec d' rest)
  end.

(** The recursive sum of two trees. *)
Fixpoint update_tree (d u : tree) {struct u} : outcome tree :=
  match u with
  | TDict items => tree_loop update_tree d items
  | TNum _ => Raises (AttributeError "'int' object has no attribute 'items'")
  end.

(** The sum of all the integers in a tree. *)
Fixpoint total (v : tree) : Z :=
  match v with
  | TNum z => z
  | TDict items =>
      (fix sum (l : list (str * tree)) : Z :=
         match l with
         | [] => 0
         | (_, x) :: t => total x + sum t
         end)%Z items
  end.

(** The depth of the dictionaries of a tree. *)
Fixpoint depth (v : tree) : nat :=
  match v with
  | TNum _ => O
  | TDict items =>
      S ((fix deepest (l : list (str * tree)) : nat :=
            match l with
            | [] => O
            | (_, x) :: t => Nat.max (depth x) (deepest t)
            end) items)
  end.

(** A dictionary of counts: its items in the store. *)
Definition counts (d : dict Z) : dict value :=
  map (fun kv => (fst kv, VInt (snd kv))) d.

(** The counts of [u] added to those of [d], item after item. *)
Fixpoint add_counts (d u : dict Z) : dict Z :=
  match u with
  | [] => d
  | (k, n) :: rest =>
      add_counts
        (dict_set d k (match dict_get d k with
                       | Some m => m + n
                       | None => n
                       end)%Z)
        rest
  end.

(** [items] stands in the store [h] for the items of a tree, and [F]
    lists the addresses of the dictionaries below them, each as often
    as it is reached. *)
Inductive reps (h : store)
  : dict value -> list (str * tree) -> list addr -> Prop :=
  | reps_nil : reps h [] [] []
  | reps_int k z items titems F :
      reps h items titems F ->
      reps h ((k, VInt z) :: items) ((k, TNum z) :: titems) F
  | reps_ref k a sub items titems F1 F2 :
      (a < length h)%nat ->
      reps h (store_get h a) sub F1 ->
      reps h items titems F2 ->
      reps h ((k, VRef a) :: items) ((k, TDict sub) :: titems) (a :: F1 ++ F2).

(** The value [v] stands in the store for the tree [t]. *)
Definition rep (h : store) (v : value) (t : tree) (F : list addr) : Prop :=
  match v, t with
  | VInt z, TNum z' => z = z' /\ F = []
  | VRef a, TDict sub =>
      (a < length h)%nat /\
      exists F', F = a :: F' /\ reps h (store_get h a) sub F'
  | _, _ => False
  end.

(** What a call, or a turn of the loop, has done with the store [h] and
    the value [d] whose dictionaries are [Fd], when the trees say
    [spec]: the store has grown, has kept every dictionary that existed
    outside of [Fd], and either the same exception was raised or [ret]
    was returned and [d] stands for the tree of [spec], with
    dictionaries of [Fd] and new ones, none of them reached twice. *)
Definition post {A : Type} (h : store) (Fd : list addr) (d : value) (ret : A)
    (spec : outcome tree) (res : option (store * outcome A)) : Prop :=
  exists h' out,
    res = Some (h', out) /\
    (length h <= length h')%nat /\
    (forall a, (a < length h)%nat -> ~ In a Fd ->
               store_get h' a = store_get h a) /\
    match spec with
    | Returns tr =>
        out = Returns ret /\
        exists Fr, rep h' d tr Fr /\ NoDup Fr /\
                   forall a, In a Fr -> In a Fd \/ (length h <= a)%nat
    | Raises e => out = Raises e
    end.

(** What [update_recursive_sum] is to do for the tree [tu], with the
    inner calls [rec]. *)
Definition sums (rec : store -> value -> value -> option (store * outcome value))
    (tu : tree) : Prop :=
  forall h d td Fd u Fu,
    rep h d td Fd -> NoDup Fd -> rep h u tu Fu ->
    (forall a, In a Fd -> ~ In a Fu) ->
    post h Fd d d (update_tree td tu) (rec h d u).

(** *** Vocabulary of the statements about these functions *)

(** A screen name: one to fifteen characters of the class
    [[A-Za-z0-9_]]. *)
Definition screen_name_ok (name : str) : Prop :=
  forallb name_char name = true /\ (1 <= length name <= 15)%nat.

(** A text that ends with [screen_name=], a screen name and at most one
    newline. *)
Definition ends_with_screen_name (u name : str) : Prop :=
  exists pre tail,
    u = pre ++ lit "screen_name=" ++ name ++ tail /\
    screen_name_ok name /\ (tail = [] \/ tail = [newline]).

(** A punctuation character. *)
Definition punct (U : Unicode) (c : char) : bool :=
  in_cats (category U c) punctutation_cats.

(** No [<] of the text has a [>] behind it on its line. *)
Definition tagless (r : str) : Prop :=
  forall pre suf, r = pre ++ chr "<" :: suf -> lazy_until (chr ">") suf = None.

(** What [remove_punctuation] keeps of ASCII text. *)
Definition kept (c : char) : bool := ascii_isalnum c || ascii_isspace c.

(** The addresses of the DOI resolver. *)
Definition resolver_prefixes : list str :=
  [lit "http://doi.org/"; lit "https://doi.org/";
   lit "http://dx.doi.org/"; lit "https://dx.doi.org/"].

(** The sum of the integers of a dictionary. *)
Definition dict_total (items : list (str * tree)) : Z :=
  total (TDict items).

(** ** Lists and the scanning loops *)

Lemma strip_prefix_app p r : strip_prefix p (p ++ r) = Some r.
Proof.
  induction p as [|x p IH]; simpl; [reflexivity|].
  now rewrite N.eqb_refl.
Qed.

Lemma strip_prefix_inv p : forall s r, strip_prefix p s = Some r -> s = p ++ r.
Proof.
  induction p as [|x p IH]; simpl; intros s r H.
  - now injection H.
  - destruct s as [|y s]; [discriminate|].
    destruct (x =? y) eqn:E; [|discriminate].
    apply N.eqb_eq in E. subst y. f_equal. now apply IH.
Qed.

Lemma takeWhile_all p s : forallb p s = true -> takeWhile p s = s.
Proof.
  induction s as [|c s IH]; simpl; [reflexivity|].
  intros H. apply andb_true_iff in H. destruct H as [H1 H2].
  rewrite H1. f_equal. now apply IH.
Qed.

Lemma takeWhile_In p s c : In c (takeWhile p s) -> In c s /\ p c = true.
Proof.
  induction s as [|d s IH]; simpl; [tauto|].
  destruct (p d) eqn:E; simpl; [|tauto].
  intros [<-|H]; [auto|]. destruct (IH H). auto.
Qed.

Lemma takeWhile_dropWhile p s : takeWhile p s ++ dropWhile p s = s.
Proof.
  induction s as [|c s IH]; simpl; [reflexivity|].
  destruct (p c); simpl; [now rewrite IH|reflexivity].
Qed.

Lemma dropWhile_In p s c : In c (dropWhile p s) -> In c s.
Proof.
  induction s as [|d s IH]; simpl; [tauto|].
  destruct (p d); simpl; tauto.
Qed.

Lemma dropWhile_none p s :
  (forall c, In c s -> p c = false) -> dropWhile p s = s.
Proof.
  destruct s as [|d s]; simpl; [reflexivity|].
  intros H. now rewrite (H d (or_introl eq_refl)).
Qed.

Lemma sub_scan_In m : forall s skip prev c,
  In c (sub_scan m skip prev s) -> In c s.
Proof.
  induction s as [|d s IH]; simpl; intros skip prev c H; [exact H|].
  destruct skip as [|k].
  - destruct (m prev (d :: s)) as [[|k]|].
    + destruct H as [H|H]; [now left | right; eauto].
    + right; eauto.
    + destruct H as [H|H]; [now left | right; eauto].
  - right; eauto.
Qed.

Lemma re_sub_empty_In m s c : In c (re_sub_empty m s) -> In c s.
Proof. apply sub_scan_In. Qed.

Lemma findall_scan_skip m : forall s skip,
  (length s <= skip)%nat -> findall_scan m skip s = [].
Proof.
  induction s as [|d s IH]; simpl; intros skip H; [reflexivity|].
  destruct skip as [|k]; [lia|]. apply IH. lia.
Qed.

(** [re.findall] finds something exactly when the pattern matches at
    some position. *)
Lemma re_findall_nonempty m s :
  re_findall m s <> [] <->
  exists pre suf k g, s = pre ++ suf /\ suf <> [] /\ m suf = Some (S k, g).
Proof.
  unfold re_findall. split.
  - induction s as [|d s IH]; simpl; intros H; [congruence|].
    destruct (m (d :: s)) as [[[|k] g]|] eqn:E.
    + destruct (IH H) as (pre & suf & k & g' & -> & Hn & Hm).
      exists (d :: pre), suf, k, g'. auto.
    + exists [], (d :: s), k, g. repeat split; auto. discriminate.
    + destruct (IH H) as (pre & suf & k & g' & -> & Hn & Hm).
      exists (d :: pre), suf, k, g'. auto.
  - intros (pre & suf & k & g & -> & Hn & Hm).
    induction pre as [|d pre IH]; simpl.
    + destruct suf as [|d suf]; [congruence|]. simpl. rewrite Hm. discriminate.
    + destruct (m (d :: pre ++ suf)) as [[[|k'] g']|]; auto. discriminate.
Qed.

(** The two patterns with a group take at least one character, so
    [re.findall] never meets an empty match of them. *)
Lemma doi_pattern_not_empty s n g :
  doi_pattern s = Some (n, g) -> (1 <= n)%nat.
Proof.
  unfold doi_pattern. revert n g.
  induction s as [|c s IH]; intros n g; cbn [lazy_dots_then].
  - discriminate.
  - destruct (ten_group (c :: s)) as [[k h]|] eqn:E.
    + intros H. injection H as <- <-. unfold ten_group in E.
      destruct (strip_prefix (lit "10") (c :: s)) as [[|d rest]|];
        try discriminate.
      destruct (dot d); [|discriminate].
      injection E as <- _. simpl. lia.
    + destruct (dot c); [|discriminate].
      destruct (lazy_dots_then ten_group s) as [[k h]|]; [|discriminate].
      intros H. injection H as <- _. lia.
Qed.

Lemma doi_url_pattern_not_empty s n g :
  doi_url_pattern s = Some (n, g) -> (1 <= n)%nat.
Proof.
  unfold doi_url_pattern, lit_then at 1.
  destruct (strip_prefix (lit "http") s) as [rest|]; [|discriminate].
  match goal with
  | |- longer _ ?r = _ -> _ => destruct r as [[k h]|]; [|discriminate]
  end.
  intros H. injection H as <- _. simpl. lia.
Qed.

(** ** What [clean_doi] computes *)

Lemma hd_split sep s :
  hd [] (split sep s) = takeWhile (fun c => negb (c =? sep)) s.
Proof.
  induction s as [|c s IH]; simpl; [reflexivity|].
  destruct (c =? sep); simpl; [reflexivity|].
  destruct (split sep s) as [|h r]; simpl in *; now rewrite <- IH.
Qed.

Lemma before_hash_resp resp :
  (if contains_char (chr "#") resp then hd [] (split (chr "#") resp) else resp)
  = before_hash resp.
Proof.
  unfold before_hash. destruct (contains_char (chr "#") resp) eqn:E.
  - apply hd_split.
  - symmetry. apply takeWhile_all. apply forallb_forall. intros c Hc.
    destruct (c =? chr "#") eqn:Ec; [|reflexivity].
    apply N.eqb_eq in Ec. subst c.
    assert (contains_char (chr "#") resp = true); [|congruence].
    apply existsb_exists. exists (chr "#"). split; [exact Hc|apply N.eqb_refl].
Qed.

Lemma before_hash_no_hash s : ~ In (chr "#") (before_hash s).
Proof.
  intros H. apply takeWhile_In in H. destruct H as [_ H].
  now rewrite N.eqb_refl in H.
Qed.

Lemma before_hash_In s c : In c (before_hash s) -> In c s.
Proof. intros H. now apply takeWhile_In in H. Qed.

Lemma before_hash_id s : ~ In (chr "#") s -> before_hash s = s.
Proof.
  intros H. apply takeWhile_all. apply forallb_forall. intros c Hc.
  destruct (c =? chr "#") eqn:E; [|reflexivity].
  apply N.eqb_eq in E. now subst c.
Qed.

Lemma starts_ten_shape s :
  starts_ten s = true <->
  exists c rest, s = lit "10" ++ c :: rest /\ c <> newline.
Proof.
  split.
  - destruct s as [|c1 [|c2 [|c3 rest]]]; simpl; try discriminate.
    intros H. apply andb_true_iff in H. destruct H as [H H3].
    apply andb_true_iff in H. destruct H as [H1 H2].
    apply N.eqb_eq in H1. apply N.eqb_eq in H2. subst c1 c2.
    exists c3, rest. split; [reflexivity|].
    unfold dot in H3. apply negb_true_iff in H3. now apply N.eqb_neq.
  - intros (c & rest & -> & Hc). simpl. unfold dot.
    apply N.eqb_neq in Hc. now rewrite Hc.
Qed.

Lemma ten_group_starts s :
  forallb dot s = true -> starts_ten s = true ->
  ten_group s = Some (length s, s).
Proof.
  intros Hd Hs. apply starts_ten_shape in Hs.
  destruct Hs as (c & rest & -> & Hc).
  unfold ten_group. rewrite strip_prefix_app.
  simpl in Hd. apply andb_true_iff in Hd. destruct Hd as [Hc' Hd].
  rewrite Hc'. now rewrite (takeWhile_all _ _ Hd).
Qed.

Lemma ten_group_none s : starts_ten s = false -> ten_group s = None.
Proof.
  unfold ten_group.
  destruct (strip_prefix (lit "10") s) as [[|c rest]|] eqn:E; try reflexivity.
  apply strip_prefix_inv in E. subst s. simpl.
  now intros ->.
Qed.

Lemma doi_pattern_find s :
  forallb dot s = true ->
  doi_pattern s =
  match find_ten s with
  | Some suf => Some (length s, suf)
  | None => None
  end.
Proof.
  unfold doi_pattern.
  induction s as [|c s IH]; intros Hd; [reflexivity|].
  cbn [lazy_dots_then find_ten].
  destruct (starts_ten (c :: s)) eqn:E.
  - now rewrite (ten_group_starts _ Hd E).
  - rewrite (ten_group_none _ E).
    simpl in Hd. apply andb_true_iff in Hd. destruct Hd as [Hc Hd].
    rewrite Hc, (IH Hd). now destruct (find_ten s).
Qed.

Lemma find_ten_tail c s : find_ten (c :: s) = None -> find_ten s = None.
Proof.
  cbn [find_ten]. now destruct (starts_ten (c :: s)).
Qed.

Lemma findall_doi s :
  forallb dot s = true ->
  re_findall doi_pattern s =
  match find_ten s with
  | Some suf => [suf]
  | None => []
  end.
Proof.
  unfold re_findall.
  induction s as [|c s IH]; intros Hd; [reflexivity|].
  cbn [findall_scan]. rewrite (doi_pattern_find _ Hd).
  destruct (find_ten (c :: s)) as [suf|] eqn:E.
  - cbn [length]. now rewrite findall_scan_skip.
  - simpl in Hd. apply andb_true_iff in Hd. destruct Hd as [_ Hd].
    rewrite (IH Hd). now rewrite (find_ten_tail _ _ E).
Qed.

(** [find_ten] finds the first occurrence. *)
Lemma find_ten_first pre suf :
  starts_ten suf = true ->
  (forall pre' suf', pre ++ suf = pre' ++ suf' -> starts_ten suf' = true ->
                     (length pre <= length pre')%nat) ->
  find_ten (pre ++ suf) = Some suf.
Proof.
  induction pre as [|d pre IH]; intros Hs Hmin.
  - simpl app. destruct suf as [|c suf]; [discriminate|].
    cbn [find_ten]. now rewrite Hs.
  - simpl app. cbn [find_ten].
    destruct (starts_ten (d :: pre ++ suf)) eqn:E.
    + specialize (Hmin [] (d :: pre ++ suf) eq_refl E). simpl in Hmin. lia.
    + apply IH; [exact Hs|]. intros pre' suf' Heq Hs'.
      specialize (Hmin (d :: pre') suf'). simpl in Hmin.
      rewrite Heq in Hmin. specialize (Hmin eq_refl Hs'). lia.
Qed.

Lemma find_ten_some s suf :
  find_ten s = Some suf ->
  starts_ten suf = true /\ exists pre, s = pre ++ suf.
Proof.
  induction s as [|c s IH]; cbn [find_ten].
  - simpl. discriminate.
  - destruct (starts_ten (c :: s)) eqn:E.
    + intros H. injection H as <-. split; [exact E|]. now exists [].
    + intros H. destruct (IH H) as [Hs [pre ->]].
      split; [exact Hs|]. now exists (c :: pre).
Qed.

Lemma find_ten_none s :
  find_ten s = None ->
  forall pre suf, s = pre ++ suf -> starts_ten suf = false.
Proof.
  induction s as [|c s IH]; intros H pre suf Heq.
  - destruct pre; [|discriminate]. simpl in Heq. now subst suf.
  - cbn [find_ten] in H. destruct (starts_ten (c :: s)) eqn:E; [discriminate|].
    destruct pre as [|d pre]; simpl in Heq.
    + now subst suf.
    + injection Heq as _ Heq. eapply IH; eauto.
Qed.

Section CleanDoi.

Variable U : Unicode.

Lemma nonprinting_newline : nonprinting U newline = true.
Proof.
  unfold nonprinting. rewrite category_ascii by reflexivity. reflexivity.
Qed.

Lemma remove_nonprinting_In x c :
  In c (remove_nonprinting_characters U x) <-> In c x /\ nonprinting U c = false.
Proof.
  unfold remove_nonprinting_characters, to_unicode_or_bust.
  rewrite filter_In. fold (nonprinting U c).
  now rewrite negb_true_iff.
Qed.

Lemma strip_In s c : In c (strip U s) -> In c s.
Proof.
  unfold strip, rstrip, lstrip. intros H.
  apply in_rev in H. apply dropWhile_In in H. apply in_rev in H.
  now apply dropWhile_In in H.
Qed.

Lemma strip_id s :
  (forall c, In c s -> isspace U c = false) -> strip U s = s.
Proof.
  intros H. unfold strip, rstrip, lstrip.
  rewrite (dropWhile_none _ s H).
  rewrite dropWhile_none; [apply rev_involutive|].
  intros c Hc. apply H. now apply in_rev.
Qed.

(** No newline survives the cleaning steps, so [.] matches every
    character of the cleaned text. *)
Lemma cleaned_dot x : forallb dot (cleaned U x) = true.
Proof.
  apply forallb_forall. intros c Hc. unfold dot.
  destruct (c =? newline) eqn:E; [|reflexivity].
  apply N.eqb_eq in E. subst c. exfalso.
  unfold cleaned in Hc.
  destruct (lower_ascii_out U _ _ Hc) as [H|[H _]]; [reflexivity|discriminate|].
  apply strip_In in H. apply remove_nonprinting_In in H.
  destruct H as [_ H]. now rewrite nonprinting_newline in H.
Qed.

(** [clean_doi] on a string that is not empty. *)
Lemma clean_doi_find x :
  x <> [] ->
  clean_doi U (Some x) =
  match find_ten (cleaned U x) with
  | Some suf => Return (before_hash suf)
  | None => Raise (NoDoiException "There's no valid DOI.")
  end.
Proof.
  intros Hx. destruct x as [|c x]; [congruence|].
  unfold clean_doi. fold (cleaned U (c :: x)).
  cbv zeta. rewrite (findall_doi _ (cleaned_dot _)).
  destruct (find_ten (cleaned U (c :: x))); [|reflexivity].
  now rewrite before_hash_resp.
Qed.

Lemma cleaned_nil : cleaned U [] = [].
Proof.
  unfold cleaned. simpl. rewrite lower_ascii by constructor. reflexivity.
Qed.

End CleanDoi.

(** ** ASCII text

    On text of code points below 128 the functions do not depend on the
    tables beyond the excerpt, so they can be evaluated. *)

Lemma is_ascii_lt c : is_ascii c = true <-> c < 128.
Proof. apply N.ltb_lt. Qed.

Lemma ascii_str_In s : ascii_str s <-> forall c, In c s -> c < 128.
Proof.
  unfold ascii_str. rewrite forallb_forall.
  split; intros H c Hc; apply is_ascii_lt; auto.
Qed.

Lemma ascii_str_Forall s : ascii_str s -> Forall (fun c => c < 128) s.
Proof. intros H. apply Forall_forall. now apply ascii_str_In. Qed.

Lemma ascii_str_incl s t :
  (forall c, In c s -> In c t) -> ascii_str t -> ascii_str s.
Proof. rewrite !ascii_str_In. auto. Qed.

Lemma ascii_str_cons c s : ascii_str (c :: s) <-> c < 128 /\ ascii_str s.
Proof.
  unfold ascii_str. simpl. rewrite andb_true_iff, is_ascii_lt. tauto.
Qed.

Lemma ascii_lower_lt c : c < 128 -> ascii_lower c < 128.
Proof.
  unfold ascii_lower, is_ascii_upper. intros H.
  destruct ((65 <=? c) && (c <=? 90)) eqn:E; [|exact H].
  apply andb_true_iff in E. destruct E as [_ E]. apply N.leb_le in E. lia.
Qed.

Lemma ascii_str_map_lower s : ascii_str s -> ascii_str (map ascii_lower s).
Proof.
  rewrite !ascii_str_In. intros H c Hc.
  apply in_map_iff in Hc. destruct Hc as [d [<- Hd]].
  apply ascii_lower_lt. auto.
Qed.

Lemma takeWhile_ext p q s :
  (forall c, In c s -> p c = q c) -> takeWhile p s = takeWhile q s.
Proof.
  induction s as [|c s IH]; simpl; intros H; [reflexivity|].
  rewrite <- (H c (or_introl eq_refl)).
  destruct (p c); [|reflexivity]. f_equal. apply IH. auto.
Qed.

Lemma dropWhile_ext p q s :
  (forall c, In c s -> p c = q c) -> dropWhile p s = dropWhile q s.
Proof.
  induction s as [|c s IH]; simpl; intros H; [reflexivity|].
  rewrite <- (H c (or_introl eq_refl)).
  destruct (p c); [|reflexivity]. apply IH. auto.
Qed.

Lemma ascii_range_In c : c < 128 -> In c ascii_range.
Proof.
  intros H. unfold ascii_range. apply in_map_iff.
  exists (N.to_nat c). split; [apply N2Nat.id|].
  apply in_seq. lia.
Qed.

Lemma ascii_forall (P : char -> bool) :
  forallb P ascii_range = true -> forall c, c < 128 -> P c = true.
Proof.
  intros H c Hc. rewrite forallb_forall in H. apply H.
  now apply ascii_range_In.
Qed.

Lemma ascii_nonprinting_printable c :
  c < 128 -> ascii_nonprinting c = negb (printable c).
Proof.
  intros H.
  apply (ascii_forall
           (fun c => Bool.eqb (ascii_nonprinting c) (negb (printable c))))
    in H; [|vm_compute; reflexivity].
  now apply eqb_prop in H.
Qed.

Lemma printable_not_space c : printable c = true -> ascii_isspace c = false.
Proof.
  unfold printable, ascii_isspace. intros H.
  apply andb_true_iff in H. destruct H as [H1 H2].
  apply N.leb_le in H1. apply N.leb_le in H2.
  apply orb_false_iff. split; apply andb_false_iff.
  - right. apply N.leb_gt. lia.
  - right. apply N.leb_gt. lia.
Qed.

Lemma printable_lt c : printable c = true -> c < 128.
Proof.
  unfold printable. intros H.
  apply andb_true_iff in H. destruct H as [_ H]. apply N.leb_le in H. lia.
Qed.

Lemma tidy_lower c : printable c = true -> tidy (ascii_lower c) = true.
Proof.
  intros H. assert (Hc := printable_lt _ H).
  apply (ascii_forall
           (fun c => implb (printable c) (tidy (ascii_lower c))))
    in Hc; [|vm_compute; reflexivity].
  now rewrite H in Hc.
Qed.

Lemma tidy_fixed c : tidy c = true -> ascii_lower c = c.
Proof.
  unfold tidy, ascii_lower. intros H.
  apply andb_true_iff in H. destruct H as [_ H].
  apply negb_true_iff in H. now rewrite H.
Qed.

Section AsciiText.

Variable U : Unicode.

Lemma nonprinting_ascii c : c < 128 -> nonprinting U c = ascii_nonprinting c.
Proof.
  intros H. unfold nonprinting, ascii_nonprinting.
  now rewrite category_ascii.
Qed.

Lemma remove_nonprinting_ascii x :
  ascii_str x ->
  remove_nonprinting_characters U x = filter printable x.
Proof.
  intros H. unfold remove_nonprinting_characters, to_unicode_or_bust.
  apply filter_ext_in. intros c Hc. fold (nonprinting U c).
  assert (c < 128) by (apply ascii_str_In with (s := x); auto).
  rewrite nonprinting_ascii, ascii_nonprinting_printable by assumption.
  apply negb_involutive.
Qed.

(** The cleaning steps on ASCII text: the printable characters,
    lowered. *)
Lemma cleaned_ascii x :
  ascii_str x -> cleaned U x = map ascii_lower (filter printable x).
Proof.
  intros H. unfold cleaned. rewrite (remove_nonprinting_ascii _ H).
  rewrite strip_id.
  - apply lower_ascii. apply ascii_str_Forall.
    eapply ascii_str_incl; [|exact H]. intros c Hc.
    now apply filter_In in Hc.
  - intros c Hc. apply filter_In in Hc. destruct Hc as [_ Hc].
    rewrite isspace_ascii by now apply printable_lt.
    now apply printable_not_space.
Qed.

Lemma cleaned_ascii_tidy x c :
  ascii_str x -> In c (cleaned U x) -> tidy c = true.
Proof.
  intros H Hc. rewrite (cleaned_ascii _ H) in Hc.
  apply in_map_iff in Hc. destruct Hc as [d [<- Hd]].
  apply filter_In in Hd. destruct Hd as [_ Hd]. now apply tidy_lower.
Qed.

Lemma tidy_printable c : tidy c = true -> printable c = true.
Proof. unfold tidy. intros H. now apply andb_true_iff in H. Qed.

(** Tidy text is left alone by the cleaning steps. *)
Lemma cleaned_tidy s :
  (forall c, In c s -> tidy c = true) -> cleaned U s = s.
Proof.
  intros H.
  assert (Ha : ascii_str s).
  { apply ascii_str_In. intros c Hc. apply printable_lt, tidy_printable. auto. }
  rewrite (cleaned_ascii _ Ha).
  assert (Hf : filter printable s = s).
  { apply forallb_filter_id. apply forallb_forall. intros c Hc.
    apply tidy_printable. auto. }
  rewrite Hf. rewrite <- (map_id s) at 2. apply map_ext_in.
  intros c Hc. apply tidy_fixed. auto.
Qed.



End AsciiText.

(** ** [clean_doi]: results and errors *)

Section CleanDoiClaims.

Variable U : Unicode.

Lemma clean_doi_ascii x :
  ascii_str x -> clean_doi U (Some x) = clean_doi tab_unicode (Some x).
Proof.
  intros H. destruct x as [|c x]; [reflexivity|].
  rewrite !clean_doi_find by discriminate.
  now rewrite !cleaned_ascii.
Qed.

Lemma clean_doi_return x y :
  clean_doi U x = Return y ->
  exists s suf,
    x = Some s /\ s <> [] /\ find_ten (cleaned U s) = Some suf /\
    y = before_hash suf.
Proof.
  destruct x as [[|c s]|]; try discriminate.
  rewrite clean_doi_find by discriminate.
  destruct (find_ten (cleaned U (c :: s))) as [suf|] eqn:E; [|discriminate].
  intros H. injection H as <-.
  exists (c :: s), suf. repeat split; auto. discriminate.
Qed.

Lemma before_hash_ten c rest :
  before_hash (lit "10" ++ c :: rest) = lit "10" ++ before_hash (c :: rest).
Proof. reflexivity. Qed.

Lemma find_ten_shape s suf :
  find_ten s = Some suf ->
  exists pre c rest, s = pre ++ suf /\ suf = lit "10" ++ c :: rest /\ c <> newline.
Proof.
  intros H. apply find_ten_some in H. destruct H as [Hs [pre ->]].
  apply starts_ten_shape in Hs. destruct Hs as (c & rest & -> & Hc).
  now exists pre, c, rest.
Qed.

Lemma find_ten_none_iff s :
  forallb dot s = true ->
  (find_ten s = None <-> forall pre c rest, s <> pre ++ lit "10" ++ c :: rest).
Proof.
  intros Hd. split.
  - intros H pre c rest Heq.
    assert (Hs := find_ten_none _ H pre _ Heq).
    assert (Hc : dot c = true).
    { rewrite forallb_forall in Hd. apply Hd. rewrite Heq.
      apply in_or_app. right. simpl. auto. }
    simpl in Hs. now rewrite Hc in Hs.
  - intros H. destruct (find_ten s) as [suf|] eqn:E; [|reflexivity].
    apply find_ten_shape in E. destruct E as (pre & c & rest & -> & -> & _).
    now destruct (H pre c rest).
Qed.

End CleanDoiClaims.

(** C8, as amended.  When the cleaned input contains [10] followed by a
    further character, [clean_doi] succeeds: it drops what comes before
    the first such occurrence, whether or not the further character is a
    full stop, keeps everything from there to the end of the text, and
    cuts the result at the first [#]. *)
Theorem clean_doi_first_ten (U : Unicode) (x pre : str) (c : char) (rest : str) :
  cleaned U x = pre ++ lit "10" ++ c :: rest ->
  (forall pre' c' rest',
      cleaned U x = pre' ++ lit "10" ++ c' :: rest' ->
      (length pre <= length pre')%nat) ->
  clean_doi U (Some x) = Return (before_hash (lit "10" ++ c :: rest)).
Proof.
  intros Heq Hmin.
  assert (Hx : x <> []).
  { intros ->. rewrite cleaned_nil in Heq. now destruct pre. }
  rewrite (clean_doi_find _ _ Hx).
  assert (Hd := cleaned_dot U x).
  assert (Hc : c <> newline).
  { rewrite forallb_forall in Hd.
    assert (H : dot c = true).
    { apply Hd. rewrite Heq. apply in_or_app. right. simpl. auto. }
    unfold dot in H. apply negb_true_iff in H. now apply N.eqb_neq. }
  rewrite Heq, (find_ten_first pre (lit "10" ++ c :: rest)); [reflexivity| |].
  - apply starts_ten_shape. now exists c, rest.
  - intros pre' suf' Heq' Hs'. apply starts_ten_shape in Hs'.
    destruct Hs' as (c' & rest' & -> & _).
    apply (Hmin pre' c' rest'). now rewrite Heq.
Qed.

(** C1, as amended.  [clean_doi] returns its own result unchanged when
    that result has at least three characters and is left alone by the
    cleaning steps; for ASCII input the second condition always holds. *)
Theorem clean_doi_idempotent (U : Unicode) :
  (forall x y,
      clean_doi U x = Return y -> (3 <= length y)%nat -> cleaned U y = y ->
      clean_doi U (Some y) = Return y) /\
  (forall x y,
      ascii_str x -> clean_doi U (Some x) = Return y -> (3 <= length y)%nat ->
      clean_doi U (Some y) = Return y).
Proof.
  assert (Hgen : forall x y,
      clean_doi U x = Return y -> (3 <= length y)%nat -> cleaned U y = y ->
      clean_doi U (Some y) = Return y).
  { intros x y Hr Hlen Hy.
    apply clean_doi_return in Hr.
    destruct Hr as (s & suf & -> & Hs & Hf & ->).
    apply find_ten_shape in Hf.
    destruct Hf as (pre & c & rest & _ & -> & Hc).
    rewrite before_hash_ten in *.
    unfold before_hash in Hlen, Hy |- *. cbn [takeWhile] in Hlen, Hy |- *.
    destruct (negb (c =? chr "#")) eqn:E; [|simpl in Hlen; lia].
    fold (before_hash rest) in Hy |- *.
    set (y := lit "10" ++ c :: before_hash rest) in *.
    rewrite clean_doi_find by discriminate. rewrite Hy.
    assert (Hs' : starts_ten y = true).
    { apply starts_ten_shape. now exists c, (before_hash rest). }
    assert (Hf : find_ten y = Some y).
    { unfold y. unfold y in Hs'. cbn [find_ten app lit]. simpl in Hs'.
      simpl. now rewrite Hs'. }
    rewrite Hf. f_equal. apply before_hash_id.
    unfold y. simpl. intros [H|[H|[H|H]]]; try discriminate.
    - subst c. discriminate.
    - now apply before_hash_no_hash in H. }
  split; [exact Hgen|].
  intros x y Ha Hr Hlen. apply (Hgen (Some x) y Hr Hlen).
  apply cleaned_tidy. intros c Hc.
  apply clean_doi_return in Hr.
  destruct Hr as (s & suf & Hx & _ & Hf & ->).
  injection Hx as <-.
  apply find_ten_some in Hf. destruct Hf as [_ [pre Hpre]].
  apply before_hash_In in Hc.
  apply (cleaned_ascii_tidy U x c Ha). rewrite Hpre.
  apply in_or_app. now right.
Qed.

Lemma lower_not_upper c : is_ascii_lower c = true -> is_ascii_upper c = false.
Proof.
  unfold is_ascii_lower, is_ascii_upper. intros H.
  apply andb_true_iff in H. destruct H as [H _]. apply N.leb_le in H.
  apply andb_false_iff. right. apply N.leb_gt. lia.
Qed.

Lemma upper_lt c : is_ascii_upper c = true -> c < 128.
Proof.
  unfold is_ascii_upper. intros H.
  apply andb_true_iff in H. destruct H as [_ H]. apply N.leb_le in H. lia.
Qed.



(** A lowered string has no ASCII capital letter. *)
Lemma lower_no_upper (U : Unicode) s c :
  In c (lower U s) -> is_ascii_upper c = false.
Proof.
  intros H. destruct (is_ascii_upper c) eqn:E; [|reflexivity].
  destruct (lower_ascii_out U s c H (upper_lt _ E)) as [Hl|[_ Hu]].
  - apply lower_not_upper in Hl. congruence.
  - congruence.
Qed.


(** C3, as amended.  [clean_doi] raises [NoDoiException] with the
    message of [no_doi_at_all] exactly when the argument is [None] or
    the empty string, before any cleaning; it raises it with the
    message of [no_valid_doi] exactly when the argument is a string
    that is not empty and whose cleaned form has no [10] followed by a
    further character, which includes the strings of white space only;
    on every other argument it returns.  The two messages differ. *)
Theorem clean_doi_errors (U : Unicode) :
  (forall x, clean_doi U x = Raise no_doi_at_all <-> x = None \/ x = Some []) /\
  (forall x,
      clean_doi U x = Raise no_valid_doi <->
      exists s, x = Some s /\ s <> [] /\
                forall pre c rest, cleaned U s <> pre ++ lit "10" ++ c :: rest) /\
  (forall x,
      (exists y, clean_doi U x = Return y) \/
      clean_doi U x = Raise no_doi_at_all \/
      clean_doi U x = Raise no_valid_doi) /\
  no_doi_at_all <> no_valid_doi /\
  clean_doi U (Some (lit "no doi here")) = Raise no_valid_doi /\
  clean_doi U (Some (lit " ")) = Raise no_valid_doi.
Proof.
  split; [|split; [|split; [|split; [|split]]]].
  - intros [[|c s]|]; split; intros H; auto; try reflexivity.
    + rewrite clean_doi_find in H by discriminate.
      destruct (find_ten (cleaned U (c :: s))); discriminate.
    + destruct H as [H|H]; discriminate.
  - intros [[|c s]|]; split; intros H;
      try discriminate;
      try (destruct H as (s' & H & Hs & _); try discriminate;
           injection H as <-; congruence).
    + exists (c :: s). split; [reflexivity|]. split; [discriminate|].
      rewrite clean_doi_find in H by discriminate.
      destruct (find_ten (cleaned U (c :: s))) eqn:E; [discriminate|].
      now apply find_ten_none_iff; [apply cleaned_dot|].
    + destruct H as (s' & H & _ & Hn). injection H as <-.
      rewrite clean_doi_find by discriminate.
      apply find_ten_none_iff in Hn; [|apply cleaned_dot].
      now rewrite Hn.
  - intros [[|c s]|]; try (right; left; reflexivity).
    rewrite clean_doi_find by discriminate.
    destruct (find_ten (cleaned U (c :: s))); eauto.
  - discriminate.
  - rewrite clean_doi_ascii by reflexivity. vm_compute. reflexivity.
  - rewrite clean_doi_ascii by reflexivity. vm_compute. reflexivity.
Qed.

(** C1 as stated fails: on ["10#a"] the result is ["10"], cut at the
    [#], and [clean_doi] raises on ["10"]. *)
Lemma clean_doi_not_idempotent :
  ~ (forall x y,
        clean_doi tab_unicode x = Return y ->
        clean_doi tab_unicode (Some y) = Return y).
Proof.
  intros H.
  specialize (H (Some (lit "10#a")) (lit "10") eq_refl).
  vm_compute in H. discriminate H.
Qed.

Lemma clean_doi_idempotent_witness :
  clean_doi tab_unicode (Some (lit "doi:10.1000/XYZ#top"))
  = Return (lit "10.1000/xyz") /\
  clean_doi tab_unicode (Some (lit "10.1000/xyz")) = Return (lit "10.1000/xyz").
Proof.
  split; [reflexivity|].
  apply (proj1 (clean_doi_idempotent tab_unicode)
           (Some (lit "doi:10.1000/XYZ#top")) (lit "10.1000/xyz")).
  - reflexivity.
  - simpl. lia.
  - reflexivity.
Defined.



(** Lowering can bring back a character that the first cleaning step
    removes: the capital I with a dot above becomes [i] and a combining
    dot, which is of category [Mn]; cleaning the result again drops
    it. *)
Lemma clean_doi_dotted_capital_i :
  clean_doi tab_unicode (Some (lit "10." ++ [0x130]))
  = Return (lit "10.i" ++ [0x307]) /\
  nonprinting tab_unicode 0x307 = true /\
  clean_doi tab_unicode (Some (lit "10.i" ++ [0x307])) = Return (lit "10.i").
Proof. repeat split. Qed.

(** Nor does lowering touch the capital letters that have no small
    form, such as the mathematical bold capital A. *)
Lemma clean_doi_capital_beyond_ascii :
  clean_doi tab_unicode (Some (lit "10." ++ [0x1D400]))
  = Return (lit "10." ++ [0x1D400]) /\
  category tab_unicode 0x1D400 = Lu.
Proof. split; reflexivity. Qed.

(** C3 as stated fails: a string of white space is not empty, so the
    first test lets it through, and the error raised is the one of a
    text without DOI. *)
Lemma clean_doi_blank_input_error :
  ~ (forall x,
        clean_doi tab_unicode x = Raise no_doi_at_all <->
        x = None \/
        exists s, x = Some s /\
                  forallb (isspace tab_unicode) (cleaned tab_unicode s) = true).
Proof.
  intros H.
  destruct (H (Some (lit " "))) as [_ H'].
  assert (E : clean_doi tab_unicode (Some (lit " ")) = Raise no_doi_at_all).
  { apply H'. right. exists (lit " "). split; reflexivity. }
  vm_compute in E. discriminate E.
Qed.

Lemma clean_doi_errors_witness :
  clean_doi tab_unicode (Some (lit "10")) = Raise no_valid_doi.
Proof.
  apply (proj1 (proj2 (clean_doi_errors tab_unicode))).
  exists (lit "10"). split; [reflexivity|]. split; [discriminate|].
  intros pre c rest H. rewrite cleaned_ascii in H by reflexivity.
  apply (f_equal (@length char)) in H.
  rewrite length_app in H. simpl in H. lia.
Defined.

(** C8 as stated fails: the cleaned text ["100/10.5"] has its first
    ["10."] at the fifth character, but the match starts at the first
    [10] that has a character behind it, here at the very beginning. *)
Lemma clean_doi_not_first_dotted_ten :
  ~ (forall x pre c rest,
        cleaned tab_unicode x = pre ++ lit "10." ++ c :: rest ->
        (forall pre' c' rest',
            cleaned tab_unicode x = pre' ++ lit "10." ++ c' :: rest' ->
            (length pre <= length pre')%nat) ->
        clean_doi tab_unicode (Some x)
        = Return (before_hash (lit "10." ++ c :: rest))).
Proof.
  intros H.
  specialize (H (lit "100/10.5") (lit "100/") (chr "5") [] eq_refl).
  assert (E : clean_doi tab_unicode (Some (lit "100/10.5"))
              = Return (lit "100/10.5")) by reflexivity.
  rewrite H in E; [vm_compute in E; discriminate E|].
  intros pre' c' rest' Heq. vm_compute in Heq.
  do 4 (destruct pre' as [|? pre']; [discriminate Heq|]).
  simpl. lia.
Qed.

Lemma clean_doi_first_ten_witness :
  clean_doi tab_unicode (Some (lit "DOI: 10.1000/xyz#s2"))
  = Return (lit "10.1000/xyz").
Proof.
  apply (clean_doi_first_ten tab_unicode
           (lit "DOI: 10.1000/xyz#s2") (lit "doi:") (chr ".") (lit "1000/xyz#s2")).
  - reflexivity.
  - intros pre' c' rest' Heq. vm_compute in Heq.
    do 4 (destruct pre' as [|? pre']; [discriminate Heq|]).
    simpl. lia.
Defined.

(** ** [is_doi_url] *)

Lemma lit_then_inv p k s m :
  lit_then p k s = Some m -> exists rest m', s = p ++ rest /\ k rest = Some m'.
Proof.
  unfold lit_then. destruct (strip_prefix p s) as [rest|] eqn:E; [|discriminate].
  apply strip_prefix_inv in E. intros H.
  destruct (k rest) as [m'|] eqn:Ek; [|discriminate]. eauto.
Qed.

Lemma dot_then_inv k s m :
  dot_then k s = Some m -> exists c rest m', s = c :: rest /\ k rest = Some m'.
Proof.
  unfold dot_then. destruct s as [|c rest]; [discriminate|].
  destruct (dot c); [|discriminate]. intros H.
  destruct (k rest) as [m'|] eqn:Ek; [|discriminate]. eauto.
Qed.

Lemma opt_then_inv r k s m :
  opt_then r k s = Some m -> r k s = Some m \/ k s = Some m.
Proof.
  unfold opt_then. destruct (r k s); auto.
Qed.

Lemma doi_url_pattern_like s m : doi_url_pattern s = Some m -> resolver_like s.
Proof.
  unfold doi_url_pattern. intros H.
  apply lit_then_inv in H. destruct H as (s1 & m1 & -> & H).
  assert (Hhost : forall t m,
             lit_then (lit "doi") (dot_then (lit_then (lit "org/") rest_of_line)) t
             = Some m ->
             exists c suffix, t = lit "doi" ++ c :: lit "org/" ++ suffix).
  { intros t m' Ht.
    apply lit_then_inv in Ht. destruct Ht as (t1 & m2 & -> & Ht).
    apply dot_then_inv in Ht. destruct Ht as (c & t2 & m3 & -> & Ht).
    apply lit_then_inv in Ht. destruct Ht as (t3 & m4 & -> & _). eauto. }
  assert (Hdx : forall t m,
             lit_then (lit "://")
               (opt_then (fun k => lit_then (lit "dx") (dot_then k))
                  (lit_then (lit "doi")
                     (dot_then (lit_then (lit "org/") rest_of_line)))) t
             = Some m ->
             exists dx c suffix,
               (dx = [] \/ exists d, dx = lit "dx" ++ [d]) /\
               t = lit "://" ++ dx ++ lit "doi" ++ c :: lit "org/" ++ suffix).
  { intros t m' Ht.
    apply lit_then_inv in Ht. destruct Ht as (t1 & m2 & -> & Ht).
    apply opt_then_inv in Ht. destruct Ht as [Ht|Ht].
    - apply lit_then_inv in Ht. destruct Ht as (t2 & m3 & -> & Ht).
      apply dot_then_inv in Ht. destruct Ht as (d & t3 & m4 & -> & Ht).
      apply Hhost in Ht. destruct Ht as (c & suffix & ->).
      exists (lit "dx" ++ [d]), c, suffix. split; [right; eauto|reflexivity].
    - apply Hhost in Ht. destruct Ht as (c & suffix & ->).
      exists [], c, suffix. split; [now left|reflexivity]. }
  apply opt_then_inv in H. destruct H as [H|H].
  - apply lit_then_inv in H. destruct H as (s2 & m2 & -> & H).
    apply Hdx in H. destruct H as (dx & c & suffix & Hd & ->).
    exists (lit "https"), dx, c, suffix. repeat split; auto.
  - apply Hdx in H. destruct H as (dx & c & suffix & Hd & ->).
    exists (lit "http"), dx, c, suffix. repeat split; auto.
Qed.

Lemma doi_url_pattern_link s :
  resolver_link s -> exists k g, doi_url_pattern s = Some (S k, g).
Proof.
  intros (scheme & dx & suffix & [->| ->] & [->| ->] & ->);
    cbn; eexists; eexists; reflexivity.
Qed.

Lemma is_doi_url_findall (U : Unicode) url :
  is_doi_url U url = true <-> re_findall doi_url_pattern (lower U url) <> [].
Proof.
  unfold is_doi_url.
  destruct (re_findall doi_url_pattern (lower U url)); simpl; split;
    congruence.
Qed.

(** C6, as amended.  [is_doi_url] always returns a boolean; it is true
    whenever the lowered URL contains a resolver link
    [http(s)://[dx.]doi.org/<suffix>] at any position, with any suffix,
    and it is true only if the lowered URL contains such a link up to
    the characters in the place of the full stops. *)
Theorem is_doi_url_resolver (U : Unicode) :
  (forall url pre s,
      lower U url = pre ++ s -> resolver_link s -> is_doi_url U url = true) /\
  (forall url,
      is_doi_url U url = true ->
      exists pre s, lower U url = pre ++ s /\ resolver_like s) /\
  is_doi_url U (lit "http://dx.doi.org/10.1/2") = true /\
  is_doi_url U (lit "http://example.com") = false.
Proof.
  split; [|split; [|split]].
  - intros url pre s Heq Hs. apply is_doi_url_findall.
    apply re_findall_nonempty.
    destruct (doi_url_pattern_link _ Hs) as (k & g & Hm).
    exists pre, s, k, g. repeat split; auto.
    intros ->. discriminate Hm.
  - intros url H. apply is_doi_url_findall in H.
    apply re_findall_nonempty in H.
    destruct H as (pre & suf & k & g & Heq & _ & Hm).
    exists pre, suf. split; [exact Heq|]. eapply doi_url_pattern_like; eauto.
  - unfold is_doi_url. rewrite lower_ascii by (apply ascii_str_Forall; reflexivity).
    reflexivity.
  - unfold is_doi_url. rewrite lower_ascii by (apply ascii_str_Forall; reflexivity).
    reflexivity.
Qed.

(** C6 as stated fails.  A text that merely contains a resolver link is
    taken for one, since the pattern is searched for and not anchored:
    ["see http://doi.org/10.1/2"].  And a text that contains none is
    taken for one when it has other characters where the link has its
    full stops, which the pattern does not escape: ["http://doi-org/"]. *)
Lemma is_doi_url_not_anchored :
  ~ (forall url,
        is_doi_url tab_unicode url = true <->
        resolver_link (lower tab_unicode url)) /\
  ~ (forall url,
        is_doi_url tab_unicode url = true <->
        exists pre s, lower tab_unicode url = pre ++ s /\ resolver_link s).
Proof.
  split; intros H.
  - destruct (H (lit "see http://doi.org/10.1/2")) as [H' _].
    destruct (H' eq_refl) as (scheme & dx & suffix & [->| ->] & _ & Heq);
      vm_compute in Heq; discriminate Heq.
  - destruct (H (lit "http://doi-org/")) as [H' _].
    destruct (H' eq_refl) as (pre & s & Heq & scheme & dx & suffix & _ & _ & ->).
    assert (Hin : In (chr ".") (lower tab_unicode (lit "http://doi-org/"))).
    { rewrite Heq. do 4 (apply in_or_app; right).
      apply in_or_app. left. simpl. auto 10. }
    vm_compute in Hin. repeat (destruct Hin as [Hin|Hin]; [discriminate Hin|]).
    exact Hin.
Qed.

Lemma is_doi_url_resolver_witness :
  is_doi_url tab_unicode (lit "See HTTPS://DX.DOI.ORG/10.1/2") = true.
Proof.
  apply (proj1 (is_doi_url_resolver tab_unicode)
           (lit "See HTTPS://DX.DOI.ORG/10.1/2")
           (lit "see ") (lit "https://dx.doi.org/10.1/2")).
  - reflexivity.
  - exists (lit "https"), (lit "dx."), (lit "10.1/2"). repeat split; auto.
Defined.

(** ** The steps of [normalize] *)

Section NormalizeSteps.

Variable U : Unicode.

Lemma sub_scan_spaces : forall s skip prev,
  (skip <= length (takeWhile (isspace U) s))%nat ->
  sub_scan (spaces_match U) skip prev s = filter (not_space U) s.
Proof.
  induction s as [|c s IH]; intros skip prev Hskip; [reflexivity|].
  cbn [sub_scan filter]. unfold not_space at 1, spaces_match.
  cbn [takeWhile] in *.
  destruct (isspace U c) eqn:E; cbn [negb length] in *.
  - destruct skip as [|k]; apply IH; lia.
  - assert (skip = 0%nat) by lia. subst skip. f_equal. apply IH. lia.
Qed.

(** Substituting the empty string for [\s+] deletes the white space. *)
Lemma sub_spaces_filter s :
  re_sub_empty (spaces_match U) s = filter (not_space U) s.
Proof. apply sub_scan_spaces. lia. Qed.

Lemma remove_punctuation_filter s :
  remove_punctuation U s = filter (fun e => isalnum U e || isspace U e) s.
Proof. now destruct s. Qed.

Lemma remove_punctuation_In s c :
  In c (remove_punctuation U s) ->
  In c s /\ (isalnum U c || isspace U c) = true.
Proof. rewrite remove_punctuation_filter. apply filter_In. Qed.

Lemma unidecode_In s c : In c (unidecode U s) -> c < 128.
Proof.
  unfold unidecode. intros H. apply in_flat_map in H.
  destruct H as (d & _ & H). eapply unidecode_out; eauto.
Qed.

Lemma unidecode_ascii_str s : ascii_str s -> unidecode U s = s.
Proof.
  unfold unidecode. induction s as [|c s IH]; [reflexivity|].
  intros H. apply ascii_str_cons in H. destruct H as [Hc Hs].
  simpl. rewrite unidecode_ascii by exact Hc. simpl. f_equal. auto.
Qed.

(** What is left by [normalize] was written by the transliteration, was
    kept by [remove_punctuation] and is not white space. *)
Lemma normalize_In t c :
  In c (normalize U t) ->
  In c (unidecode U (lower U t)) /\ isalnum U c = true /\ isspace U c = false.
Proof.
  unfold normalize. cbv zeta. rewrite sub_spaces_filter. intros H.
  apply filter_In in H. destruct H as [H Hs].
  unfold not_space in Hs. apply negb_true_iff in Hs.
  do 2 apply re_sub_empty_In in H.
  apply remove_punctuation_In in H. destruct H as [H Ha].
  apply re_sub_empty_In in H.
  rewrite Hs, orb_false_r in Ha. auto.
Qed.


Lemma normalize_nil : normalize U [] = [].
Proof.
  unfold normalize. rewrite lower_ascii by constructor. reflexivity.
Qed.

End NormalizeSteps.

(** C10.  Every character of [normalize t] is an ASCII letter or
    digit. *)
Theorem normalize_alphabet (U : Unicode) (t : str) (c : char) :
  In c (normalize U t) ->
  ascii_isalnum c = true /\
  (48 <= c <= 57 \/ 65 <= c <= 90 \/ 97 <= c <= 122).
Proof.
  intros H. apply normalize_In in H. destruct H as (Hu & Ha & _).
  apply unidecode_In in Hu. rewrite isalnum_ascii in Ha by exact Hu.
  split; [exact Ha|].
  unfold ascii_isalnum, is_ascii_digit, is_ascii_upper, is_ascii_lower in Ha.
  repeat rewrite orb_true_iff in Ha. repeat rewrite andb_true_iff in Ha.
  repeat rewrite N.leb_le in Ha. tauto.
Qed.

Lemma normalize_alphabet_witness :
  In (chr "q") (normalize tab_unicode (lit "The Quick, Brown Fox!")) /\
  ascii_isalnum (chr "q") = true.
Proof.
  split; [vm_compute; auto|].
  apply (normalize_alphabet tab_unicode (lit "The Quick, Brown Fox!")).
  vm_compute. auto.
Defined.

(** C7.  [normalize] is a function of every string; it gives the empty
    string on the empty string, and on every text of which the
    transliteration leaves no letter or digit. *)
Theorem normalize_total (U : Unicode) :
  (forall t, exists r, normalize U t = r) /\
  normalize U (lit "") = lit "" /\
  (forall t,
      (forall c, In c (unidecode U (lower U t)) -> isalnum U c = false) ->
      normalize U t = []).
Proof.
  split; [eauto|]. split; [apply normalize_nil|].
  intros t H. destruct (normalize U t) as [|c r] eqn:E; [reflexivity|].
  assert (Hc : In c (normalize U t)) by (rewrite E; now left).
  apply normalize_In in Hc. destruct Hc as (Hu & Ha & _).
  rewrite (H c Hu) in Ha. discriminate.
Qed.

Lemma normalize_total_witness :
  normalize tab_unicode (lit " ?! -- <> ") = [].
Proof.
  apply (proj2 (proj2 (normalize_total tab_unicode))).
  intros c H. vm_compute in H.
  repeat (destruct H as [<-|H]; [reflexivity|]). destruct H.
Defined.

(** C5, as amended.  [normalize t] has no white space; it has no ASCII
    capital letter unless the transliteration writes one for a character
    of the lowered text beyond ASCII, so it has none for ASCII [t]. *)
Theorem normalize_no_space (U : Unicode) :
  (forall t c, In c (normalize U t) -> isspace U c = false) /\
  (forall t,
      (forall d c, In d (lower U t) -> 128 <= d ->
                   In c (unidecode_char U d) -> is_ascii_upper c = false) ->
      forall c, In c (normalize U t) -> is_ascii_upper c = false) /\
  (forall t, ascii_str t ->
             forall c, In c (normalize U t) -> is_ascii_upper c = false).
Proof.
  assert (Hgen : forall t,
      (forall d c, In d (lower U t) -> 128 <= d ->
                   In c (unidecode_char U d) -> is_ascii_upper c = false) ->
      forall c, In c (normalize U t) -> is_ascii_upper c = false).
  { intros t H c Hc. apply normalize_In in Hc. destruct Hc as (Hu & _).
    unfold unidecode in Hu. apply in_flat_map in Hu.
    destruct Hu as (d & Hd & Hcd).
    destruct (N.lt_ge_cases d 128) as [Hlt|Hge].
    - rewrite unidecode_ascii in Hcd by exact Hlt.
      destruct Hcd as [<-|[]]. eapply lower_no_upper; eauto.
    - eapply H; eauto. }
  split; [|split; [exact Hgen|]].
  - intros t c H. now apply normalize_In in H.
  - intros t Ha. apply Hgen. intros d c Hd Hge _.
    rewrite lower_ascii in Hd by now apply ascii_str_Forall.
    apply in_map_iff in Hd. destruct Hd as (e & <- & He).
    assert (e < 128) by (apply ascii_str_In with (s := t); auto).
    assert (ascii_lower e < 128) by now apply ascii_lower_lt. lia.
Qed.

(** C5 as stated fails: the text is lowered before it is transliterated,
    and [unidecode] writes ["Bei "] for the ideograph U+5317. *)
Lemma normalize_capital_from_unidecode :
  ~ (forall t c,
        In c (normalize tab_unicode t) ->
        isspace tab_unicode c = false /\ is_ascii_upper c = false).
Proof.
  intros H.
  destruct (H [0x5317] (chr "B")) as [_ H'].
  - vm_compute. auto.
  - discriminate H'.
Qed.

Lemma normalize_no_space_witness :
  normalize tab_unicode (lit "The Quick, Brown Fox!") = lit "quickbrownfox" /\
  forall c, In c (normalize tab_unicode (lit "The Quick, Brown Fox!")) ->
            is_ascii_upper c = false.
Proof.
  split; [reflexivity|].
  apply (proj2 (proj2 (normalize_no_space tab_unicode))
           (lit "The Quick, Brown Fox!")).
  reflexivity.
Defined.

(** ** Whole words *)

Lemma str_eqb_eq a : forall b, str_eqb a b = true <-> a = b.
Proof.
  induction a as [|x a IH]; destruct b as [|y b]; simpl;
    try (split; [discriminate|congruence]); [tauto|].
  rewrite andb_true_iff, N.eqb_eq, IH. split.
  - intros [-> ->]. reflexivity.
  - intros H. injection H as -> ->. auto.
Qed.

Lemma str_eqb_refl a : str_eqb a a = true.
Proof. now apply str_eqb_eq. Qed.

Lemma last_char_cons p c a : last_char p (c :: a) = last_char (Some c) a.
Proof. reflexivity. Qed.

Lemma sub_scan_skip_app m : forall l p tail,
  sub_scan m (length l) p (l ++ tail) = sub_scan m 0 (last_char p l) tail.
Proof.
  induction l as [|c l IH]; intros p tail; [reflexivity|].
  simpl length. simpl app. cbn [sub_scan]. rewrite IH. reflexivity.
Qed.

Section WholeWords.

Variable U : Unicode.

Variable alts : list str.
Hypothesis alts_words : forall a, In a alts -> word_alt U a.

Let m := words_match U alts.

Lemma last_char_word p a :
  a <> [] -> (forall c, In c a -> is_word U c = true) ->
  opt_word U (last_char p a) = true.
Proof.
  revert p. induction a as [|c a IH]; intros p Hn Hw; [congruence|].
  rewrite last_char_cons. destruct a as [|d a].
  - simpl. apply Hw. now left.
  - apply IH; [discriminate|]. intros e He. apply Hw. now right.
Qed.

(** An alternative read at the head of a word stays within the word. *)
Lemma strip_prefix_word a : forall w tail rest,
  (forall c, In c a -> is_word U c = true) ->
  opt_word U (hd_error tail) = false ->
  strip_prefix a (w ++ tail) = Some rest ->
  exists w2, w = a ++ w2 /\ rest = w2 ++ tail.
Proof.
  induction a as [|x a IH]; intros w tail rest Ha Ht H.
  - simpl in H. injection H as <-. now exists w.
  - destruct w as [|c w].
    + simpl in H. destruct tail as [|y tail]; [discriminate|].
      destruct (x =? y) eqn:E; [|discriminate].
      apply N.eqb_eq in E. subst y. simpl in Ht.
      rewrite (Ha x (or_introl eq_refl)) in Ht. discriminate.
    + simpl in H. destruct (x =? c) eqn:E; [|discriminate].
      apply N.eqb_eq in E. subst c.
      destruct (IH w tail rest) as (w2 & -> & ->); auto.
      { intros c Hc. apply Ha. now right. }
      now exists w2.
Qed.

Lemma first_alt_word prev w tail :
  w <> [] ->
  (forall c, In c w -> is_word U c = true) ->
  opt_word U (hd_error tail) = false ->
  first_alt U alts prev (w ++ tail) =
  if existsb (str_eqb w) alts then Some (length w) else None.
Proof.
  intros Hn Hw Ht. clear m.
  induction alts as [|a more IH]; [reflexivity|].
  assert (Ha : word_alt U a) by (apply alts_words; now left).
  assert (IH' := IH (fun b Hb => alts_words b (or_intror Hb))). clear IH.
  destruct Ha as [Han Haw].
  cbn [first_alt existsb].
  destruct (strip_prefix a (w ++ tail)) as [rest|] eqn:E.
  - destruct (strip_prefix_word _ _ _ _ Haw Ht E) as (w2 & -> & ->).
    unfold boundary. rewrite (last_char_word prev a Han Haw).
    destruct w2 as [|c2 w2].
    + rewrite app_nil_r, str_eqb_refl. simpl. rewrite Ht. reflexivity.
    + simpl hd_error. cbn [opt_word].
      rewrite (Hw c2) by (apply in_or_app; right; now left).
      simpl xorb. cbv iota.
      assert (Hne : str_eqb (a ++ c2 :: w2) a = false).
      { destruct (str_eqb (a ++ c2 :: w2) a) eqn:Eq; [|reflexivity].
        apply str_eqb_eq in Eq. apply (f_equal (@length char)) in Eq.
        rewrite length_app in Eq. simpl in Eq. lia. }
      rewrite Hne. exact IH'.
  - assert (Hne : str_eqb w a = false).
    { destruct (str_eqb w a) eqn:Eq; [|reflexivity].
      apply str_eqb_eq in Eq. subst w.
      rewrite strip_prefix_app in E. discriminate. }
    rewrite Hne. exact IH'.
Qed.

(** Inside a word there is no word boundary, so nothing matches. *)
Lemma sub_scan_inside : forall w p tail,
  is_word U p = true ->
  (forall c, In c w -> is_word U c = true) ->
  sub_scan m 0 (Some p) (w ++ tail)
  = w ++ sub_scan m 0 (last_char (Some p) w) tail.
Proof.
  induction w as [|c w IH]; intros p tail Hp Hw; [reflexivity|].
  simpl app. cbn [sub_scan]. unfold m at 1, words_match, boundary.
  simpl hd_error. cbn [opt_word].
  rewrite Hp, (Hw c (or_introl eq_refl)). simpl xorb. cbv iota.
  f_equal. apply IH.
  - apply Hw. now left.
  - intros d Hd. apply Hw. now right.
Qed.

(** A word that begins at a boundary is dropped when it is one of the
    alternatives and kept otherwise. *)
Lemma sub_scan_word w prev tail :
  opt_word U prev = false ->
  (forall c, In c w -> is_word U c = true) ->
  opt_word U (hd_error tail) = false ->
  sub_scan m 0 prev (w ++ tail)
  = strike alts w ++ sub_scan m 0 (last_char prev w) tail.
Proof.
  intros Hp Hw Ht. destruct w as [|c w].
  - unfold strike.
    assert (E : existsb (str_eqb []) alts = false).
    { destruct (existsb (str_eqb []) alts) eqn:E; [|reflexivity].
      apply existsb_exists in E. destruct E as (a & Ha & E).
      destruct (alts_words a Ha) as [Hn _]. destruct a; [congruence|discriminate]. }
    rewrite E. reflexivity.
  - simpl app. cbn [sub_scan]. unfold m at 1, words_match, boundary.
    simpl hd_error. cbn [opt_word].
    rewrite Hp, (Hw c (or_introl eq_refl)). simpl xorb. cbv iota.
    change (c :: w ++ tail) with ((c :: w) ++ tail).
    rewrite (first_alt_word prev (c :: w) tail) by (auto; discriminate).
    unfold strike. destruct (existsb (str_eqb (c :: w)) alts).
    + simpl length. simpl app. cbv iota beta.
      rewrite sub_scan_skip_app. reflexivity.
    + simpl app. f_equal. apply sub_scan_inside.
      * apply Hw. now left.
      * intros d Hd. apply Hw. now right.
Qed.

(** At a separator between words nothing matches. *)
Lemma sub_scan_separator sep p rest :
  is_word U sep = false ->
  sub_scan m 0 p (sep :: rest) = sep :: sub_scan m 0 (Some sep) rest.
Proof.
  intros Hs. cbn [sub_scan].
  assert (E : m p (sep :: rest) = None).
  { unfold m, words_match.
    destruct (boundary U p (hd_error (sep :: rest))); [|reflexivity].
    clear m. induction alts as [|a more IH]; [reflexivity|].
    cbn [first_alt].
    destruct (alts_words a (or_introl eq_refl)) as [Hn Hw].
    destruct a as [|x a]; [congruence|]. simpl strip_prefix.
    destruct (x =? sep) eqn:E.
    - apply N.eqb_eq in E. subst x.
      rewrite (Hw sep (or_introl eq_refl)) in Hs. discriminate.
    - apply IH. intros b Hb. apply alts_words. now right. }
  now rewrite E.
Qed.

(** In words joined by a separator, the pattern strikes out exactly the
    words that are alternatives. *)
Lemma sub_scan_join sep : forall ws prev,
  is_word U sep = false ->
  opt_word U prev = false ->
  (forall w c, In w ws -> In c w -> is_word U c = true) ->
  sub_scan m 0 prev (join sep ws) = join sep (map (strike alts) ws).
Proof.
  induction ws as [|w ws IH]; intros prev Hs Hp Hw; [reflexivity|].
  assert (Hww : forall c, In c w -> is_word U c = true).
  { intros c Hc. apply (Hw w c); [now left|exact Hc]. }
  destruct ws as [|w' ws].
  - simpl join. simpl map. cbn [join].
    rewrite <- (app_nil_r w) at 1.
    rewrite (sub_scan_word w prev [] Hp Hww eq_refl).
    simpl. apply app_nil_r.
  - change (join sep (w :: w' :: ws)) with (w ++ sep :: join sep (w' :: ws)).
    change (map (strike alts) (w :: w' :: ws))
      with (strike alts w :: map (strike alts) (w' :: ws)).
    change (join sep (strike alts w :: map (strike alts) (w' :: ws)))
      with (strike alts w ++ sep :: join sep (map (strike alts) (w' :: ws))).
    rewrite (sub_scan_word w prev (sep :: join sep (w' :: ws)) Hp Hww Hs).
    f_equal. rewrite sub_scan_separator by exact Hs. f_equal.
    apply IH; auto.
    intros v c Hv Hc. apply (Hw v c); [now right|exact Hc].
Qed.

End WholeWords.

(** ** ASCII text again: the normalisers do not depend on the tables *)

Lemma hd_error_ascii s : ascii_str s -> opt_ascii (hd_error s).
Proof.
  destruct s as [|c s]; simpl; [trivial|].
  intros H. now apply ascii_str_cons in H.
Qed.

Lemma last_char_ascii a : forall p,
  opt_ascii p -> ascii_str a -> opt_ascii (last_char p a).
Proof.
  induction a as [|c a IH]; intros p Hp Ha; [exact Hp|].
  apply ascii_str_cons in Ha. destruct Ha as [Hc Ha].
  rewrite last_char_cons. now apply IH.
Qed.

Lemma ascii_str_app a b : ascii_str (a ++ b) <-> ascii_str a /\ ascii_str b.
Proof.
  unfold ascii_str. rewrite forallb_app. apply andb_true_iff.
Qed.

Lemma sub_scan_ext m1 m2 :
  (forall p s, opt_ascii p -> ascii_str s -> m1 p s = m2 p s) ->
  forall s skip prev,
    ascii_str s -> opt_ascii prev ->
    sub_scan m1 skip prev s = sub_scan m2 skip prev s.
Proof.
  intros Hm. induction s as [|c s IH]; intros skip prev Hs Hp; [reflexivity|].
  cbn [sub_scan]. rewrite (Hm prev (c :: s) Hp Hs).
  apply ascii_str_cons in Hs. destruct Hs as [Hc Hs].
  destruct skip as [|k]; [|now apply IH].
  destruct (m2 prev (c :: s)) as [[|k]|]; try apply f_equal; now apply IH.
Qed.

Lemma re_sub_empty_ascii m s : ascii_str s -> ascii_str (re_sub_empty m s).
Proof. apply ascii_str_incl. intros c. apply re_sub_empty_In. Qed.

Section TwoTables.

Variables U V : Unicode.

Lemma is_word_ascii c : c < 128 -> is_word U c = is_word V c.
Proof. intros H. unfold is_word. now rewrite !isalnum_ascii. Qed.

Lemma opt_word_ascii p : opt_ascii p -> opt_word U p = opt_word V p.
Proof. destruct p; simpl; [apply is_word_ascii|reflexivity]. Qed.

Lemma boundary_ascii p n :
  opt_ascii p -> opt_ascii n -> boundary U p n = boundary V p n.
Proof.
  intros Hp Hn. unfold boundary. now rewrite !(opt_word_ascii _) by assumption.
Qed.

Lemma first_alt_ascii alts prev s :
  Forall ascii_str alts -> opt_ascii prev -> ascii_str s ->
  first_alt U alts prev s = first_alt V alts prev s.
Proof.
  intros Ha Hp Hs. induction Ha as [|a more Ha _ IH]; [reflexivity|].
  cbn [first_alt]. destruct (strip_prefix a s) as [rest|] eqn:E; [|exact IH].
  apply strip_prefix_inv in E. subst s.
  apply ascii_str_app in Hs. destruct Hs as [_ Hr].
  rewrite boundary_ascii, IH;
    auto using last_char_ascii, hd_error_ascii.
Qed.

Lemma words_match_ascii alts prev s :
  Forall ascii_str alts -> opt_ascii prev -> ascii_str s ->
  words_match U alts prev s = words_match V alts prev s.
Proof.
  intros Ha Hp Hs. unfold words_match.
  rewrite boundary_ascii, first_alt_ascii; auto using hd_error_ascii.
Qed.

Lemma spaces_match_ascii prev s :
  ascii_str s -> spaces_match U prev s = spaces_match V prev s.
Proof.
  intros Hs. unfold spaces_match.
  rewrite (takeWhile_ext (isspace U) (isspace V)); [reflexivity|].
  intros c Hc. assert (c < 128) by (apply ascii_str_In with (s := s); auto).
  now rewrite !isspace_ascii.
Qed.

Lemma remove_punctuation_ascii s :
  ascii_str s -> remove_punctuation U s = remove_punctuation V s.
Proof.
  intros Hs. rewrite !remove_punctuation_filter. apply filter_ext_in.
  intros c Hc. assert (c < 128) by (apply ascii_str_In with (s := s); auto).
  now rewrite !isalnum_ascii, !isspace_ascii.
Qed.

Lemma remove_punctuation_ascii_str s :
  ascii_str s -> ascii_str (remove_punctuation U s).
Proof.
  apply ascii_str_incl. intros c Hc. now apply remove_punctuation_In in Hc.
Qed.

Lemma sub_words_ascii alts s :
  Forall ascii_str alts -> ascii_str s ->
  re_sub_empty (words_match U alts) s = re_sub_empty (words_match V alts) s.
Proof.
  intros Ha Hs. apply sub_scan_ext; simpl; auto.
  intros p t Hp Ht. now apply words_match_ascii.
Qed.

Lemma sub_spaces_ascii s :
  ascii_str s ->
  re_sub_empty (spaces_match U) s = re_sub_empty (spaces_match V) s.
Proof.
  intros Hs. apply sub_scan_ext; simpl; auto.
  intros p t _ Ht. now apply spaces_match_ascii.
Qed.

Lemma lower_ascii_any s : ascii_str s -> lower U s = lower V s.
Proof.
  intros Hs. now rewrite !lower_ascii by now apply ascii_str_Forall.
Qed.

Lemma lower_ascii_str s : ascii_str s -> ascii_str (lower U s).
Proof.
  intros Hs. rewrite lower_ascii by now apply ascii_str_Forall.
  now apply ascii_str_map_lower.
Qed.

Lemma articles_ascii : Forall ascii_str articles.
Proof. repeat constructor. Qed.

Lemma conjunction_ascii : Forall ascii_str conjunction.
Proof. repeat constructor. Qed.


End TwoTables.

Lemma normalize_ascii (U V : Unicode) t :
  ascii_str t -> normalize U t = normalize V t.
Proof.
  intros Ht. unfold normalize. cbv zeta.
  rewrite <- (lower_ascii_any U V t Ht).
  assert (H1 := lower_ascii_str U t Ht).
  rewrite !unidecode_ascii_str by exact H1.
  assert (H2 : ascii_str (clean_html (lower U t))).
  { unfold clean_html. now apply re_sub_empty_ascii. }
  rewrite <- (remove_punctuation_ascii U V _ H2).
  assert (H3 := remove_punctuation_ascii_str U _ H2).
  rewrite <- (sub_words_ascii U V articles _ articles_ascii H3).
  assert (H4 := re_sub_empty_ascii (words_match U articles) _ H3).
  rewrite <- (sub_words_ascii U V conjunction _ conjunction_ascii H4).
  apply sub_spaces_ascii. now apply re_sub_empty_ascii.
Qed.

(** ** Texts of plain words *)

Lemma plain_char_lt c : plain_char c = true -> c < 128.
Proof.
  unfold plain_char, is_ascii_lower, is_ascii_digit. intros H.
  apply orb_true_iff in H.
  destruct H as [H|H]; apply andb_true_iff in H; destruct H as [_ H];
    apply N.leb_le in H; lia.
Qed.

Lemma plain_char_facts c :
  plain_char c = true ->
  ascii_isalnum c = true /\ ascii_lower c = c /\ c <> chr "<" /\ c <> space /\
  ascii_isspace c = false.
Proof.
  intros H. assert (Hc := plain_char_lt _ H).
  apply (ascii_forall
           (fun c => implb (plain_char c)
                       (ascii_isalnum c && (ascii_lower c =? c) &&
                        negb (c =? chr "<") && negb (c =? space) &&
                        negb (ascii_isspace c))))
    in Hc; [|vm_compute; reflexivity].
  rewrite H in Hc. simpl in Hc.
  repeat (apply andb_true_iff in Hc; destruct Hc as [Hc ?]).
  repeat match goal with
         | H : negb _ = true |- _ => apply negb_true_iff in H
         end.
  repeat split; auto.
  - now apply N.eqb_eq.
  - now apply N.eqb_neq.
  - now apply N.eqb_neq.
Qed.

Lemma join_In sep ws c :
  In c (join sep ws) -> c = sep \/ exists w, In w ws /\ In c w.
Proof.
  induction ws as [|w ws IH]; [intros []|].
  destruct ws as [|w' ws].
  - simpl. intros H. right. exists w. auto.
  - change (join sep (w :: w' :: ws)) with (w ++ sep :: join sep (w' :: ws)).
    intros H. apply in_app_or in H. destruct H as [H|[H|H]].
    + right. exists w. split; [now left|exact H].
    + now left.
    + destruct (IH H) as [Hs|(v & Hv & Hc)]; [now left|].
      right. exists v. split; [now right|exact Hc].
Qed.

Lemma filter_join p sep ws :
  p sep = false ->
  (forall w c, In w ws -> In c w -> p c = true) ->
  filter p (join sep ws) = concat ws.
Proof.
  intros Hs. induction ws as [|w ws IH]; intros Hw; [reflexivity|].
  assert (Hf : filter p w = w).
  { apply forallb_filter_id. apply forallb_forall. intros c Hc.
    apply (Hw w c); [now left|exact Hc]. }
  assert (IH' : filter p (join sep ws) = concat ws).
  { apply IH. intros v c Hv Hc. apply (Hw v c); [now right|exact Hc]. }
  destruct ws as [|w' ws].
  - simpl. rewrite app_nil_r. exact Hf.
  - change (join sep (w :: w' :: ws)) with (w ++ sep :: join sep (w' :: ws)).
    rewrite filter_app, Hf. cbn [filter]. rewrite Hs, IH'. reflexivity.
Qed.

Lemma strike_In alts w c : In c (strike alts w) -> In c w.
Proof. unfold strike. destruct (existsb (str_eqb w) alts); [intros []|auto]. Qed.

Lemma strike_twice w :
  strike conjunction (strike articles w) = if stopword w then [] else w.
Proof.
  unfold stopword. rewrite existsb_app. unfold strike at 2.
  destruct (existsb (str_eqb w) articles); [reflexivity|].
  reflexivity.
Qed.

Lemma concat_strike ws :
  concat (map (strike conjunction) (map (strike articles) ws))
  = concat (filter (fun w => negb (stopword w)) ws).
Proof.
  induction ws as [|w ws IH]; [reflexivity|].
  cbn [map concat filter]. rewrite strike_twice, IH.
  now destruct (stopword w).
Qed.

Lemma sub_scan_tag_id : forall s prev,
  ~ In (chr "<") s -> sub_scan tag_match 0 prev s = s.
Proof.
  induction s as [|c s IH]; intros prev H; [reflexivity|].
  cbn [sub_scan tag_match].
  destruct (c =? chr "<") eqn:E.
  - apply N.eqb_eq in E. subst c. destruct H. now left.
  - f_equal. apply IH. intros Hin. apply H. now right.
Qed.

(** Without [<] there is no tag to remove. *)
Lemma clean_html_id s : ~ In (chr "<") s -> clean_html s = s.
Proof. apply sub_scan_tag_id. Qed.

Section PlainWords.

Variable U : Unicode.

Lemma plain_is_word c : plain_char c = true -> is_word U c = true.
Proof.
  intros H. unfold is_word.
  rewrite isalnum_ascii by now apply plain_char_lt.
  now destruct (plain_char_facts c H) as (-> & _).
Qed.

Lemma space_not_word : is_word U space = false.
Proof. unfold is_word. rewrite isalnum_ascii by reflexivity. reflexivity. Qed.

Lemma articles_words a : In a articles -> word_alt U a.
Proof.
  intros H. split.
  - destruct H as [<-|[<-|[<-|[]]]]; discriminate.
  - intros c Hc. apply plain_is_word.
    destruct H as [<-|[<-|[<-|[]]]]; simpl in Hc;
      repeat (destruct Hc as [<-|Hc]; [reflexivity|]); destruct Hc.
Qed.

Lemma conjunction_words a : In a conjunction -> word_alt U a.
Proof.
  intros H. split.
  - destruct H as [<-|[]]; discriminate.
  - intros c Hc. apply plain_is_word.
    destruct H as [<-|[]]; simpl in Hc;
      repeat (destruct Hc as [<-|Hc]; [reflexivity|]); destruct Hc.
Qed.

Variable ws : list str.
Hypothesis plain : forallb (forallb plain_char) ws = true.

Lemma plain_words w c : In w ws -> In c w -> plain_char c = true.
Proof.
  intros Hw Hc. rewrite forallb_forall in plain.
  specialize (plain w Hw). rewrite forallb_forall in plain. auto.
Qed.

Lemma text_chars c : In c (join space ws) -> c = space \/ plain_char c = true.
Proof.
  intros H. apply join_In in H. destruct H as [H|(w & Hw & Hc)]; [now left|].
  right. eapply plain_words; eauto.
Qed.

Lemma text_ascii : ascii_str (join space ws).
Proof.
  apply ascii_str_In. intros c Hc.
  destruct (text_chars c Hc) as [->|H]; [reflexivity|now apply plain_char_lt].
Qed.

Lemma text_lower : lower U (join space ws) = join space ws.
Proof.
  rewrite lower_ascii by (apply ascii_str_Forall, text_ascii).
  rewrite <- (map_id (join space ws)) at 2. apply map_ext_in.
  intros c Hc. destruct (text_chars c Hc) as [->|H]; [reflexivity|].
  now destruct (plain_char_facts c H) as (_ & -> & _).
Qed.

Lemma text_no_tag : ~ In (chr "<") (join space ws).
Proof.
  intros H. destruct (text_chars _ H) as [E|E]; discriminate E.
Qed.

Lemma text_no_punctuation :
  remove_punctuation U (join space ws) = join space ws.
Proof.
  rewrite remove_punctuation_filter. apply forallb_filter_id.
  apply forallb_forall. intros c Hc.
  destruct (text_chars c Hc) as [->|H].
  - rewrite (isspace_ascii U space) by reflexivity. apply orb_true_r.
  - rewrite isalnum_ascii by now apply plain_char_lt.
    now destruct (plain_char_facts c H) as (-> & _).
Qed.

Lemma text_words w c : In w ws -> In c w -> is_word U c = true.
Proof. intros Hw Hc. apply plain_is_word. eapply plain_words; eauto. Qed.

Lemma text_articles :
  re_sub_empty (words_match U articles) (join space ws)
  = join space (map (strike articles) ws).
Proof.
  apply (sub_scan_join U articles articles_words space ws None).
  - apply space_not_word.
  - reflexivity.
  - apply text_words.
Qed.

Lemma struck_words w c :
  In w (map (strike articles) ws) -> In c w -> plain_char c = true.
Proof.
  intros Hw Hc. apply in_map_iff in Hw. destruct Hw as (v & <- & Hv).
  apply strike_In in Hc. eapply plain_words; eauto.
Qed.

Lemma text_conjunction :
  re_sub_empty (words_match U conjunction) (join space (map (strike articles) ws))
  = join space (map (strike conjunction) (map (strike articles) ws)).
Proof.
  apply (sub_scan_join U conjunction conjunction_words space _ None).
  - apply space_not_word.
  - reflexivity.
  - intros w c Hw Hc. apply plain_is_word. eapply struck_words; eauto.
Qed.

Lemma text_spaces vs :
  (forall w c, In w vs -> In c w -> plain_char c = true) ->
  re_sub_empty (spaces_match U) (join space vs) = concat vs.
Proof.
  intros H. rewrite sub_spaces_filter. apply filter_join.
  - unfold not_space. rewrite (isspace_ascii U space) by reflexivity. reflexivity.
  - intros w c Hw Hc. unfold not_space.
    assert (Hp := H w c Hw Hc).
    rewrite isspace_ascii by now apply plain_char_lt.
    now destruct (plain_char_facts c Hp) as (_ & _ & _ & _ & ->).
Qed.

Lemma normalize_plain_words :
  normalize U (join space ws)
  = concat (filter (fun w => negb (stopword w)) ws).
Proof.
  unfold normalize. cbv zeta.
  rewrite text_lower, (unidecode_ascii_str U _ text_ascii).
  rewrite (clean_html_id _ text_no_tag), text_no_punctuation.
  rewrite text_articles, text_conjunction, text_spaces.
  - apply concat_strike.
  - intros w c Hw Hc. apply in_map_iff in Hw. destruct Hw as (v & <- & Hv).
    apply strike_In in Hc. eapply struck_words; eauto.
Qed.


End PlainWords.

Lemma alnum_lt c : ascii_isalnum c = true -> c < 128.
Proof.
  unfold ascii_isalnum, is_ascii_digit, is_ascii_upper, is_ascii_lower.
  intros H. repeat rewrite orb_true_iff in H.
  repeat rewrite andb_true_iff in H. repeat rewrite N.leb_le in H. lia.
Qed.

Lemma alnum_lower_plain c :
  ascii_isalnum c = true -> plain_char (ascii_lower c) = true.
Proof.
  intros H. assert (Hc := alnum_lt _ H).
  apply (ascii_forall
           (fun c => implb (ascii_isalnum c) (plain_char (ascii_lower c))))
    in Hc; [|vm_compute; reflexivity].
  now rewrite H in Hc.
Qed.

Lemma map_lower_join ws :
  map ascii_lower (join space ws) = join space (map (map ascii_lower) ws).
Proof.
  induction ws as [|w ws IH]; [reflexivity|].
  destruct ws as [|w' ws]; [reflexivity|].
  change (join space (w :: w' :: ws)) with (w ++ space :: join space (w' :: ws)).
  rewrite map_app. cbn [map] in *. rewrite IH. reflexivity.
Qed.

Lemma normalize_lower (U : Unicode) t t' :
  lower U t = lower U t' -> normalize U t = normalize U t'.
Proof. intros H. unfold normalize. now rewrite H. Qed.

Lemma lowered_words_plain ws :
  forallb (forallb ascii_isalnum) ws = true ->
  forallb (forallb plain_char) (map (map ascii_lower) ws) = true.
Proof.
  intros H. apply forallb_forall. intros w Hw.
  apply in_map_iff in Hw. destruct Hw as (v & <- & Hv).
  apply forallb_forall. intros c Hc.
  apply in_map_iff in Hc. destruct Hc as (d & <- & Hd).
  apply alnum_lower_plain.
  rewrite forallb_forall in H. specialize (H v Hv).
  rewrite forallb_forall in H. auto.
Qed.

Lemma words_ascii ws :
  forallb (forallb ascii_isalnum) ws = true -> ascii_str (join space ws).
Proof.
  intros H. apply ascii_str_In. intros c Hc.
  apply join_In in Hc. destruct Hc as [->|(w & Hw & Hc)]; [reflexivity|].
  apply alnum_lt.
  rewrite forallb_forall in H. specialize (H w Hw).
  rewrite forallb_forall in H. auto.
Qed.

(** ** The words of the prepared text *)

Section Words.

Variable U : Unicode.

Lemma words_not_nil s : words U s <> [].
Proof.
  destruct s as [|c s]; simpl; [discriminate|].
  destruct (isspace U c); [discriminate|].
  destruct (words U s); discriminate.
Qed.

Lemma words_no_space w :
  (forall c, In c w -> isspace U c = false) -> words U w = [w].
Proof.
  induction w as [|c w IH]; intros H; [reflexivity|].
  simpl. rewrite (H c (or_introl eq_refl)).
  rewrite IH by (intros d Hd; apply H; now right). reflexivity.
Qed.

Lemma words_app_sep w sep rest :
  (forall c, In c w -> isspace U c = false) -> isspace U sep = true ->
  words U (w ++ sep :: rest) = w :: words U rest.
Proof.
  induction w as [|c w IH]; intros H Hs.
  - simpl. now rewrite Hs.
  - simpl. rewrite (H c (or_introl eq_refl)).
    rewrite IH by (auto; intros d Hd; apply H; now right). reflexivity.
Qed.

(** Deleting the white space leaves the words, one after the other. *)
Lemma filter_words s : filter (not_space U) s = concat (words U s).
Proof.
  induction s as [|c s IH]; [reflexivity|].
  cbn [filter words]. unfold not_space at 1.
  destruct (isspace U c); cbn [negb].
  - exact IH.
  - rewrite IH. destruct (words U s) as [|w ws] eqn:E; [|reflexivity].
    now destruct (words_not_nil s).
Qed.

Lemma dropWhile_head (p : char -> bool) s c r :
  dropWhile p s = c :: r -> p c = false.
Proof.
  induction s as [|d s IH]; simpl; [discriminate|].
  destruct (p d) eqn:E; [exact IH|].
  intros H. injection H as <- _. exact E.
Qed.

Variable alts : list str.
Hypothesis alts_words : forall a, In a alts -> word_alt U a.

(** In such a text the pattern strikes out the words that are
    alternatives and leaves everything else where it is. *)
Lemma sub_scan_words : forall n s prev,
  (length s <= n)%nat ->
  opt_word U prev = false ->
  spaced U s ->
  words U (sub_scan (words_match U alts) 0 prev s)
  = map (strike alts) (words U s).
Proof.
  assert (Hnil : strike alts [] = []).
  { unfold strike. now destruct (existsb (str_eqb []) alts). }
  induction n as [|n IH]; intros s prev Hlen Hp Hs.
  - destruct s; [|simpl in Hlen; lia]. simpl. now rewrite Hnil.
  - assert (Hw : forall c, In c (takeWhile (is_word U) s) -> is_word U c = true).
    { intros c Hc. now apply takeWhile_In in Hc. }
    assert (Hns : forall c, In c (takeWhile (is_word U) s) -> isspace U c = false).
    { intros c Hc. assert (H := Hw c Hc).
      apply takeWhile_In in Hc. destruct Hc as [Hc _].
      rewrite (Hs c Hc) in H. now apply negb_true_iff in H. }
    assert (Hstr : forall c, In c (strike alts (takeWhile (is_word U) s)) ->
                             isspace U c = false).
    { intros c Hc. apply strike_In in Hc. auto. }
    rewrite <- (takeWhile_dropWhile (is_word U) s) at 1 2.
    rewrite <- (takeWhile_dropWhile (is_word U) s) in Hlen.
    destruct (dropWhile (is_word U) s) as [|sep rest] eqn:Ed.
    + rewrite (sub_scan_word U alts alts_words _ prev [] Hp Hw eq_refl).
      simpl sub_scan. rewrite !app_nil_r.
      rewrite (words_no_space _ Hns), (words_no_space _ Hstr). reflexivity.
    + assert (Hsep : is_word U sep = false) by (eapply dropWhile_head; eauto).
      assert (Hsp : isspace U sep = true).
      { assert (Hin : In sep s).
        { apply (dropWhile_In (is_word U)). rewrite Ed. now left. }
        rewrite (Hs sep Hin) in Hsep. now apply negb_false_iff in Hsep. }
      rewrite (sub_scan_word U alts alts_words _ prev (sep :: rest) Hp Hw Hsep).
      rewrite (sub_scan_separator U alts alts_words sep _ rest Hsep).
      rewrite (words_app_sep _ sep _ Hstr Hsp), (words_app_sep _ sep _ Hns Hsp).
      cbn [map]. f_equal. apply IH.
      * rewrite length_app in Hlen. simpl in Hlen. lia.
      * exact Hsep.
      * intros c Hc. apply Hs. apply (dropWhile_In (is_word U)).
        rewrite Ed. now right.
Qed.

Lemma sub_words s :
  spaced U s ->
  words U (re_sub_empty (words_match U alts) s) = map (strike alts) (words U s).
Proof. intros H. now apply (sub_scan_words (length s)). Qed.

End Words.

(** The prepared text is made of ASCII letters, digits and white
    space. *)
Lemma prepared_spaced (U : Unicode) t : spaced U (prepared U t).
Proof.
  intros c Hc. unfold prepared in Hc.
  apply remove_punctuation_In in Hc. destruct Hc as [Hc Hk].
  apply re_sub_empty_In, unidecode_In in Hc.
  unfold is_word.
  rewrite isalnum_ascii in * by exact Hc.
  rewrite isspace_ascii in * by exact Hc.
  apply (ascii_forall
           (fun c => implb (ascii_isalnum c || ascii_isspace c)
                       (Bool.eqb (ascii_isalnum c || (c =? chr "_"))
                          (negb (ascii_isspace c)))))
    in Hc; [|vm_compute; reflexivity].
  rewrite Hk in Hc. now apply eqb_prop in Hc.
Qed.

(** [normalize] keeps the words of the prepared text that are none of
    the four, whole and in order, and nothing else. *)
Lemma normalize_words (U : Unicode) t :
  normalize U t
  = concat (filter (fun w => negb (stopword w)) (words U (prepared U t))).
Proof.
  unfold normalize. cbv zeta. fold (prepared U t).
  rewrite sub_spaces_filter, filter_words.
  assert (H1 := prepared_spaced U t).
  assert (H2 : spaced U (re_sub_empty (words_match U articles) (prepared U t))).
  { intros c Hc. apply H1. now apply re_sub_empty_In in Hc. }
  rewrite (sub_words U conjunction (conjunction_words U) _ H2).
  rewrite (sub_words U articles (articles_words U) _ H1).
  apply concat_strike.
Qed.

(** C9, as amended.  [normalize] removes [a], [an], [the] and [and] as
    whole words of the prepared text only: for every text, its result
    is made of the words of the prepared text that are none of the
    four, each kept whole, in order.  In a text of words of ASCII
    letters and digits, each followed by one space but the last, the
    prepared words are the words in small letters, so [normalize]
    removes the words that are [a], [an], [the] or [and] once lowered,
    and keeps every other word whole, whatever letters it contains; a
    single word that is none of the four, such as [sand], comes back as
    it is. *)
Theorem normalize_whole_words (U : Unicode) :
  (forall ws,
      forallb (forallb ascii_isalnum) ws = true ->
      normalize U (join space ws)
      = concat (filter (fun w => negb (stopword w))
                  (map (map ascii_lower) ws))) /\
  (forall w,
      forallb plain_char w = true -> stopword w = false ->
      normalize U w = w) /\
  (forall t,
      normalize U t
      = concat (filter (fun w => negb (stopword w))
                  (words U (prepared U t)))) /\
  normalize U (lit "sand") = lit "sand".
Proof.
  assert (Hone : forall w,
             forallb plain_char w = true -> stopword w = false ->
             normalize U w = w).
  { intros w Hw Hs.
    change w with (join space [w]) at 1.
    rewrite normalize_plain_words by (simpl; now rewrite Hw).
    cbn [filter]. rewrite Hs. simpl. apply app_nil_r. }
  split; [|split; [exact Hone|split; [apply normalize_words|apply Hone; reflexivity]]].
  intros ws Hws.
  assert (Hp := lowered_words_plain ws Hws).
  rewrite <- (normalize_plain_words U _ Hp).
  apply normalize_lower.
  rewrite (text_lower U _ Hp), <- map_lower_join.
  apply lower_ascii, ascii_str_Forall, words_ascii, Hws.
Qed.

Lemma normalize_whole_words_witness :
  normalize tab_unicode (lit "The sand AND a Band") = lit "sandband".
Proof.
  apply (proj1 (normalize_whole_words tab_unicode)
           [lit "The"; lit "sand"; lit "AND"; lit "a"; lit "Band"]).
  reflexivity.
Defined.

(** C9 as stated fails: the word [the_] contains [the] and is none of
    the four, but the underscore goes with the punctuation before the
    words are looked for, so the prepared word is [the] and nothing of
    it is left. *)
Lemma normalize_embedded_word_lost :
  ~ (forall w a pre suf,
        In a (articles ++ conjunction) ->
        w = pre ++ a ++ suf -> pre ++ suf <> [] ->
        (forall c, In c w -> isspace tab_unicode c = false) ->
        exists pre' suf', normalize tab_unicode w = pre' ++ a ++ suf').
Proof.
  intros H.
  destruct (H (lit "the_") (lit "the") [] (lit "_")) as (pre' & suf' & E).
  - simpl. auto.
  - reflexivity.
  - discriminate.
  - intros c Hc. simpl in Hc.
    repeat (destruct Hc as [<-|Hc]; [reflexivity|]). destruct Hc.
  - vm_compute in E. destruct pre'; discriminate E.
Qed.

(** Nor is a word of the input a word of the prepared text when the
    transliteration writes a space: for the ideograph U+5317 it writes
    ["Bei "], which sets the letters behind it apart. *)
Lemma normalize_transliterated_word_lost :
  normalize tab_unicode (lit "s" ++ [0x5317] ++ lit "and") = lit "sBei".
Proof. reflexivity. Qed.

(** ** [normalize_simple] *)




(** ** Further examples of the specification *)

Example clean_doi_fragment (U : Unicode) :
  clean_doi U (Some (lit "  10.1000/xyz123#section2 "))
  = Return (lit "10.1000/xyz123").
Proof. rewrite clean_doi_ascii by reflexivity. reflexivity. Qed.

Example clean_doi_empty (U : Unicode) :
  clean_doi U (Some (lit "")) = Raise no_doi_at_all.
Proof. reflexivity. Qed.

Example normalize_quick_brown_fox (U : Unicode) :
  normalize U (lit "The Quick, Brown Fox!") = normalize U (lit "quick brown fox").
Proof.
  rewrite !(normalize_ascii U tab_unicode) by reflexivity. reflexivity.
Qed.

Example normalize_cafe :
  normalize tab_unicode (lit "caf" ++ [0xE9]) = normalize tab_unicode (lit "cafe").
Proof. reflexivity. Qed.

(** ** [pick_best_url] *)

Lemma str_eqb_neq a b : str_eqb a b = false <-> a <> b.
Proof.
  split.
  - intros H E. apply str_eqb_eq in E. congruence.
  - intros H. destruct (str_eqb a b) eqn:E; [|reflexivity].
    apply str_eqb_eq in E. contradiction.
Qed.

Lemma pick_step_In response url :
  pick_step response url = response \/ pick_step response url = url.
Proof.
  unfold pick_step. destruct (str_in (lit "doi.org") url).
  - right. now destruct (str_eqb url pmc_stub).
  - destruct (str_eqb response pmc_stub); auto.
Qed.

Lemma fold_pick_In urls : forall response,
  fold_left pick_step urls response = response \/
  In (fold_left pick_step urls response) urls.
Proof.
  induction urls as [|u urls IH]; intros response; [now left|].
  simpl. destruct (IH (pick_step response u)) as [H|H]; [|auto].
  rewrite H. destruct (pick_step_In response u) as [-> | ->]; auto.
Qed.

(** A link to the resolver is never the stub. *)
Lemma doi_not_stub u : str_in (lit "doi.org") u = true -> str_eqb u pmc_stub = false.
Proof.
  intros H. apply str_eqb_neq. intros ->. vm_compute in H. discriminate H.
Qed.

(** Once the response is a resolver link, only another one replaces it. *)
Lemma fold_pick_keeps u urls :
  str_in (lit "doi.org") u = true ->
  (forall v, In v urls -> str_in (lit "doi.org") v = false) ->
  fold_left pick_step urls u = u.
Proof.
  intros Hu. induction urls as [|v urls IH]; intros H; [reflexivity|].
  simpl. unfold pick_step at 2.
  rewrite (H v (or_introl eq_refl)), (doi_not_stub u Hu).
  apply IH. intros w Hw. apply H. now right.
Qed.

(** Without resolver links the response changes only while it is the
    stub. *)
Lemma fold_pick_plain urls : forall response,
  (forall v, In v urls -> str_in (lit "doi.org") v = false) ->
  fold_left pick_step urls response =
  if str_eqb response pmc_stub
  then match find (fun v => negb (str_eqb v pmc_stub)) urls with
       | Some v => v
       | None => match urls with [] => response | _ => pmc_stub end
       end
  else response.
Proof.
  induction urls as [|u urls IH]; intros response H.
  - simpl. now destruct (str_eqb response pmc_stub).
  - assert (Hu := H u (or_introl eq_refl)).
    assert (H' : forall v, In v urls -> str_in (lit "doi.org") v = false).
    { intros v Hv. apply H. now right. }
    cbn [fold_left find]. rewrite (IH _ H'). unfold pick_step. rewrite Hu.
    destruct (str_eqb response pmc_stub) eqn:Er.
    + destruct (str_eqb u pmc_stub) eqn:Eu; cbn [negb]; [|reflexivity].
      apply str_eqb_eq in Eu. subst u.
      destruct (find (fun v => negb (str_eqb v pmc_stub)) urls); [reflexivity|].
      now destruct urls.
    + now rewrite Er.
Qed.

(** X1.  [pick_best_url] returns [None] exactly for the empty list, and
    what it returns otherwise is one of the URLs it was given. *)
Theorem pick_best_url_member (urls : list str) :
  (pick_best_url urls = None <-> urls = []) /\
  (forall r, pick_best_url urls = Some r -> In r urls).
Proof.
  destruct urls as [|first rest]; split.
  - split; reflexivity.
  - discriminate.
  - split; discriminate.
  - intros r H. unfold pick_best_url in H. injection H as <-.
    destruct (fold_pick_In (first :: rest) first) as [E|E];
      [left; symmetry; exact E | exact E].
Qed.

Lemma pick_best_url_member_witness :
  pick_best_url [lit "http://a.org/1"; lit "http://doi.org/10.1/2"]
  = Some (lit "http://doi.org/10.1/2") /\
  In (lit "http://doi.org/10.1/2")
     [lit "http://a.org/1"; lit "http://doi.org/10.1/2"].
Proof.
  split; [reflexivity|].
  apply (proj2 (pick_best_url_member
                  [lit "http://a.org/1"; lit "http://doi.org/10.1/2"])).
  reflexivity.
Defined.

(** X2.  When some URL contains [doi.org], [pick_best_url] returns the
    last URL that does. *)
Theorem pick_best_url_last_doi (before : list str) (u : str) (after : list str) :
  str_in (lit "doi.org") u = true ->
  (forall v, In v after -> str_in (lit "doi.org") v = false) ->
  pick_best_url (before ++ u :: after) = Some u.
Proof.
  intros Hu Hafter.
  assert (E : exists first, pick_best_url (before ++ u :: after)
                            = Some (fold_left pick_step (before ++ u :: after) first)).
  { destruct before; simpl; eauto. }
  destruct E as [first ->]. f_equal.
  rewrite fold_left_app. cbn [fold_left].
  assert (Hs : forall r, pick_step r u = u).
  { intros r. unfold pick_step. rewrite Hu. now destruct (str_eqb u pmc_stub). }
  rewrite Hs. now apply fold_pick_keeps.
Qed.

Lemma pick_best_url_last_doi_witness :
  pick_best_url
    [lit "http://doi.org/10.1/1"; lit "http://a.org/x";
     lit "https://dx.doi.org/10.1/2"; pmc_stub; lit "http://b.org/y"]
  = Some (lit "https://dx.doi.org/10.1/2").
Proof.
  apply (pick_best_url_last_doi
           [lit "http://doi.org/10.1/1"; lit "http://a.org/x"]
           (lit "https://dx.doi.org/10.1/2")
           [pmc_stub; lit "http://b.org/y"]).
  - reflexivity.
  - intros v [<-|[<-|[]]]; reflexivity.
Defined.

(** X3.  When no URL contains [doi.org], [pick_best_url] returns the
    first URL that is not the PMC stub, and the stub when every URL is
    the stub. *)
Theorem pick_best_url_first_real (urls : list str) :
  urls <> [] ->
  (forall v, In v urls -> str_in (lit "doi.org") v = false) ->
  pick_best_url urls =
  Some (match find (fun v => negb (str_eqb v pmc_stub)) urls with
        | Some v => v
        | None => pmc_stub
        end).
Proof.
  intros Hne H. destruct urls as [|first rest]; [congruence|].
  unfold pick_best_url. f_equal. rewrite (fold_pick_plain _ _ H).
  cbn [find]. destruct (str_eqb first pmc_stub) eqn:E; cbn [negb]; reflexivity.
Qed.

Lemma pick_best_url_first_real_witness :
  pick_best_url [pmc_stub; pmc_stub; lit "http://a.org/x"; lit "http://b.org/y"]
  = Some (lit "http://a.org/x").
Proof.
  apply (pick_best_url_first_real
           [pmc_stub; pmc_stub; lit "http://a.org/x"; lit "http://b.org/y"]).
  - discriminate.
  - intros v [<-|[<-|[<-|[<-|[]]]]]; reflexivity.
Defined.

(** ** [chunks] *)

Lemma slice_step {A : Type} (l : list A) (i n : nat) :
  slice l i (i + n) = firstn n (skipn i l).
Proof. unfold slice. f_equal. lia. Qed.

Lemma range_from_lt fuel : forall i stop step j,
  In j (range_from fuel i stop step) -> (i <= j < stop)%nat.
Proof.
  induction fuel as [|f IH]; intros i stop step j H; [destruct H|].
  cbn [range_from] in H. destruct (i <? stop)%nat eqn:E; [|destruct H].
  apply Nat.ltb_lt in E. destruct H as [<-|H]; [lia|].
  apply IH in H. lia.
Qed.

(** Two neighbours in a range are one step apart. *)
Lemma range_from_next fuel : forall i stop step a x y b,
  range_from fuel i stop step = a ++ x :: y :: b -> (y = x + step /\ y < stop)%nat.
Proof.
  induction fuel as [|f IH]; intros i stop step a x y b H.
  - destruct a; discriminate H.
  - cbn [range_from] in H. destruct (i <? stop)%nat eqn:E.
    + destruct a as [|a0 a].
      * simpl in H. injection H as <- H.
        destruct f as [|f']; [discriminate H|].
        cbn [range_from] in H.
        destruct (i + step <? stop)%nat eqn:E2; [|discriminate H].
        injection H as <- _. apply Nat.ltb_lt in E2. lia.
      * simpl in H. injection H as _ H. eapply IH; eauto.
    + destruct a; discriminate H.
Qed.

Lemma concat_range {A : Type} (l : list A) (n : nat) : forall fuel i,
  (1 <= n)%nat -> (length l - i <= fuel)%nat ->
  concat (map (fun i => slice l i (i + n)) (range_from fuel i (length l) n))
  = skipn i l.
Proof.
  intros fuel. induction fuel as [|f IH]; intros i Hn Hf.
  - simpl. symmetry. apply skipn_all2. lia.
  - cbn [range_from]. destruct (i <? length l)%nat eqn:E.
    + apply Nat.ltb_lt in E. cbn [map concat].
      rewrite IH by lia. rewrite slice_step.
      rewrite Nat.add_comm, <- skipn_skipn. apply firstn_skipn.
    + apply Nat.ltb_ge in E. simpl. symmetry. now apply skipn_all2.
Qed.

(** How many elements a range has. *)
Lemma range_from_length n : forall fuel i stop,
  (1 <= n)%nat -> (stop - i <= fuel)%nat -> (i < stop)%nat ->
  let k := length (range_from fuel i stop n) in
  (1 <= k /\ i + n * (k - 1) < stop <= i + n * k)%nat.
Proof.
  intros fuel. induction fuel as [|f IH]; intros i stop Hn Hf Hi; [lia|].
  cbn [range_from]. apply Nat.ltb_lt in Hi as E. rewrite E. cbn [length].
  destruct (Nat.lt_ge_cases (i + n) stop) as [Hlt|Hge].
  - specialize (IH (i + n)%nat stop Hn ltac:(lia) Hlt). cbv zeta in IH.
    destruct IH as (H1 & H2 & H3).
    set (k := length (range_from f (i + n) stop n)) in *.
    split; [lia|]. replace (S k - 1)%nat with (S (k - 1)) by lia.
    split; nia.
  - assert (Hk : range_from f (i + n) stop n = []).
    { destruct f as [|f']; [reflexivity|]. cbn [range_from].
      apply Nat.ltb_ge in Hge. now rewrite Hge. }
    rewrite Hk. simpl. lia.
Qed.

(** X4.  For a positive [n] the chunks, put together in order, give the
    list back. *)
Theorem chunks_concat {A : Type} (l : list A) (n : Z) :
  (0 < n)%Z -> exists cs, chunks l n = Returns cs /\ concat cs = l.
Proof.
  intros Hn. unfold chunks.
  destruct (n =? 0)%Z eqn:E0; [apply Z.eqb_eq in E0; lia|].
  destruct (n <? 0)%Z eqn:E1; [apply Z.ltb_lt in E1; lia|].
  eexists. split; [reflexivity|].
  rewrite concat_range by lia. reflexivity.
Qed.

Lemma chunks_concat_witness :
  exists cs, chunks [1; 2; 3; 4; 5] 2 = Returns cs /\ concat cs = [1; 2; 3; 4; 5].
Proof. apply (chunks_concat [1; 2; 3; 4; 5] 2). reflexivity. Defined.

(** X5.  For a positive [n] every chunk has between one and [n]
    elements, every chunk but the last has exactly [n], and there are
    as many chunks as it takes: none for the empty list, and otherwise
    the number [k] with [n * (k - 1) < len(l) <= n * k]. *)
Theorem chunks_sizes {A : Type} (l : list A) (n : Z) (cs : list (list A)) :
  (0 < n)%Z -> chunks l n = Returns cs ->
  (forall c, In c cs -> (1 <= Z.of_nat (length c) <= n)%Z) /\
  (forall init last c, cs = init ++ [last] -> In c init ->
                       Z.of_nat (length c) = n) /\
  (l = [] -> cs = []) /\
  (l <> [] ->
   (n * (Z.of_nat (length cs) - 1) < Z.of_nat (length l) <= n * Z.of_nat (length cs))%Z).
Proof.
  intros Hn H. unfold chunks in H.
  destruct (n =? 0)%Z eqn:E0; [apply Z.eqb_eq in E0; lia|].
  destruct (n <? 0)%Z eqn:E1; [apply Z.ltb_lt in E1; lia|].
  injection H as <-.
  set (m := Z.to_nat n) in *. assert (Hm : (1 <= m)%nat) by lia.
  assert (Hnm : n = Z.of_nat m) by lia.
  split; [|split; [|split]].
  - intros c Hc. apply in_map_iff in Hc. destruct Hc as (i & <- & Hi).
    apply range_from_lt in Hi. rewrite slice_step, length_firstn, length_skipn.
    lia.
  - intros init last c Hcs Hc.
    apply in_split in Hc. destruct Hc as (c1 & c2 & ->).
    assert (Hr : exists a x y b,
               range_from (length l) 0 (length l) m = a ++ x :: y :: b /\
               c = slice l x (x + m)).
    { revert Hcs. generalize (range_from (length l) 0 (length l) m).
      intros r Hr. revert r Hr.
      induction c1 as [|d c1 IH]; intros r Hr.
      - destruct r as [|x r]; [discriminate Hr|].
        simpl in Hr. injection Hr as Hx Hr.
        destruct r as [|y r].
        + destruct c2; discriminate Hr.
        + exists [], x, y, r. auto.
      - destruct r as [|x r]; [discriminate Hr|].
        simpl in Hr. injection Hr as _ Hr.
        destruct (IH r Hr) as (a & x' & y & b & -> & Hc).
        exists (x :: a), x', y, b. auto. }
    destruct Hr as (a & x & y & b & Hr & ->).
    apply range_from_next in Hr.
    rewrite slice_step, length_firstn, length_skipn. lia.
  - intros ->. reflexivity.
  - intros Hl. rewrite length_map.
    assert (Hlen : (0 < length l)%nat) by (destruct l; [congruence|simpl; lia]).
    destruct (range_from_length m (length l) 0 (length l) Hm ltac:(lia) Hlen)
      as (H1 & H2 & H3).
    set (k := length (range_from (length l) 0 (length l) m)) in *.
    rewrite Hnm. split; [|nia].
    replace (Z.of_nat k - 1)%Z with (Z.of_nat (k - 1)) by lia. nia.
Qed.

Lemma chunks_sizes_witness :
  chunks [1; 2; 3; 4; 5] 2 = Returns [[1; 2]; [3; 4]; [5]] /\
  forall c, In c [[1; 2]; [3; 4]; [5]] -> (1 <= Z.of_nat (length c) <= 2)%Z.
Proof.
  split; [reflexivity|].
  apply (proj1 (chunks_sizes [1; 2; 3; 4; 5] 2 [[1; 2]; [3; 4]; [5]]
                  ltac:(reflexivity) eq_refl)).
Defined.

(** ** [truncate] *)

Lemma length_dots : length (lit "...") = 3%nat.
Proof. reflexivity. Qed.

Lemma truncate_cases (s : str) (max : Z) :
  (0 <= max)%Z ->
  ((Z.of_nat (length s) <= max)%Z -> truncate s max = s) /\
  ((max < Z.of_nat (length s))%Z ->
   truncate s max = firstn (Z.to_nat max) s ++ lit "..." /\
   Z.of_nat (length (truncate s max)) = (max + 3)%Z).
Proof.
  intros Hmax. unfold truncate, slice_to.
  destruct (max <? Z.of_nat (length s))%Z eqn:E.
  - apply Z.ltb_lt in E. apply Z.leb_le in Hmax as E'. rewrite E'.
    split; [lia|]. intros _. split; [reflexivity|].
    rewrite length_app, length_firstn, length_dots. lia.
  - apply Z.ltb_ge in E. split; [reflexivity|lia].
Qed.

(** X6.  For a limit [max >= 0], [truncate] returns a text of no more
    than [max] characters as it is, and otherwise the first [max]
    characters followed by three full stops: [max + 3] characters in
    all, so more than the limit. *)
Theorem truncate_length (s : str) (max : Z) :
  (0 <= max)%Z ->
  ((Z.of_nat (length s) <= max)%Z -> truncate s max = s) /\
  ((max < Z.of_nat (length s))%Z ->
   truncate s max = firstn (Z.to_nat max) s ++ lit "..." /\
   Z.of_nat (length (truncate s max)) = (max + 3)%Z) /\
  (Z.of_nat (length (truncate s max)) <= max + 3)%Z.
Proof.
  intros Hmax. destruct (truncate_cases s max Hmax) as [Hshort Hlong].
  split; [exact Hshort|]. split; [exact Hlong|].
  destruct (Z.le_gt_cases (Z.of_nat (length s)) max) as [H|H].
  - rewrite (Hshort H). lia.
  - destruct (Hlong H) as [_ ->]. lia.
Qed.

Lemma truncate_length_witness :
  truncate (lit "abcdef") 3 = lit "abc..." /\
  Z.of_nat (length (truncate (lit "abcdef") 3)) = 6%Z.
Proof.
  apply (proj1 (proj2 (truncate_length (lit "abcdef") 3 ltac:(lia)))).
  reflexivity.
Defined.

(** X7.  For a limit [max >= 0], truncating twice is truncating once. *)
Theorem truncate_idempotent (s : str) (max : Z) :
  (0 <= max)%Z -> truncate (truncate s max) max = truncate s max.
Proof.
  intros Hmax.
  destruct (truncate_cases s max Hmax) as (Hshort & Hlong).
  destruct (Z.le_gt_cases (Z.of_nat (length s)) max) as [H|H].
  - rewrite (Hshort H). exact (Hshort H).
  - destruct (Hlong ltac:(lia)) as [E Hlen].
    destruct (truncate_cases (truncate s max) max Hmax) as (_ & Hlong').
    destruct (Hlong' ltac:(lia)) as [E' _].
    rewrite E'. rewrite E at 1.
    rewrite firstn_app, firstn_firstn, Nat.min_id, length_firstn.
    replace (Z.to_nat max - Nat.min (Z.to_nat max) (length s))%nat with 0%nat
      by lia.
    simpl firstn. rewrite app_nil_r. symmetry. exact E.
Qed.

Lemma truncate_idempotent_witness :
  truncate (truncate (lit "abcdef") 3) 3 = truncate (lit "abcdef") 3.
Proof. apply (truncate_idempotent (lit "abcdef") 3). lia. Defined.

(** ** [validate_author_url] *)

Lemma takeWhile_forallb p s : forallb p (takeWhile p s) = true.
Proof.
  induction s as [|c s IH]; simpl; [reflexivity|].
  destruct (p c) eqn:E; simpl; [now rewrite E|reflexivity].
Qed.

Lemma takeWhile_app_stop p a b :
  forallb p a = true -> (b = [] \/ exists c t, b = c :: t /\ p c = false) ->
  takeWhile p (a ++ b) = a /\ dropWhile p (a ++ b) = b.
Proof.
  intros Ha Hb. induction a as [|x a IH]; simpl in *.
  - destruct Hb as [->|(c & t & -> & Hc)]; simpl; [auto|].
    now rewrite Hc.
  - apply andb_true_iff in Ha. destruct Ha as [Hx Ha]. rewrite Hx.
    destruct (IH Ha) as [-> ->]. auto.
Qed.

Lemma name_at_end_inv s n g :
  name_at_end s = Some (n, g) ->
  screen_name_ok g /\ exists tail, s = g ++ tail /\ (tail = [] \/ tail = [newline]).
Proof.
  unfold name_at_end.
  destruct ((1 <=? length (takeWhile name_char s))%nat &&
            (length (takeWhile name_char s) <=? 15)%nat) eqn:El; [|discriminate].
  destruct (str_eqb (dropWhile name_char s) [] ||
            str_eqb (dropWhile name_char s) [newline]) eqn:Et; [|discriminate].
  cbn [andb]. intros H. injection H as _ <-.
  apply andb_true_iff in El. destruct El as [E1 E2].
  apply Nat.leb_le in E1. apply Nat.leb_le in E2.
  split; [split; [apply takeWhile_forallb|lia]|].
  exists (dropWhile name_char s). split; [symmetry; apply takeWhile_dropWhile|].
  apply orb_true_iff in Et. destruct Et as [Et|Et]; apply str_eqb_eq in Et; auto.
Qed.

Lemma name_at_end_intro name tail :
  screen_name_ok name -> (tail = [] \/ tail = [newline]) ->
  name_at_end (name ++ tail) = Some (length name, name).
Proof.
  intros [Hc Hl] Ht. unfold name_at_end.
  assert (Hstop : tail = [] \/ exists c t, tail = c :: t /\ name_char c = false).
  { destruct Ht as [->| ->]; [now left|]. right. now exists newline, []. }
  destruct (takeWhile_app_stop name_char name tail Hc Hstop) as [-> ->].
  assert (E1 : (1 <=? length name)%nat = true) by (apply Nat.leb_le; lia).
  assert (E2 : (length name <=? 15)%nat = true) by (apply Nat.leb_le; lia).
  rewrite E1, E2. destruct Ht as [->| ->]; reflexivity.
Qed.

(** The first match that [re.findall] reports is a match at some
    position. *)
Lemma re_findall_head m s g rest :
  re_findall m s = g :: rest ->
  exists pre suf k, s = pre ++ suf /\ m suf = Some (S k, g).
Proof.
  unfold re_findall. induction s as [|d s IH]; simpl; [discriminate|].
  destruct (m (d :: s)) as [[[|k] h]|] eqn:E.
  - intros H. destruct (IH H) as (pre & suf & k & -> & Hm).
    exists (d :: pre), suf, k. auto.
  - intros H. injection H as <- _. exists [], (d :: s), k. auto.
  - intros H. destruct (IH H) as (pre & suf & k & -> & Hm).
    exists (d :: pre), suf, k. auto.
Qed.

Lemma screen_name_pattern_inv s n g :
  screen_name_pattern s = Some (n, g) ->
  screen_name_ok g /\
  exists tail, s = lit "screen_name=" ++ g ++ tail /\ (tail = [] \/ tail = [newline]).
Proof.
  unfold screen_name_pattern, lit_then.
  destruct (strip_prefix (lit "screen_name=") s) as [r|] eqn:E; [|discriminate].
  apply strip_prefix_inv in E. subst s.
  destruct (name_at_end r) as [[k h]|] eqn:En; [|discriminate].
  intros H. injection H as _ <-.
  apply name_at_end_inv in En. destruct En as (Hok & tail & -> & Ht).
  split; [exact Hok|]. now exists tail.
Qed.

Lemma screen_name_pattern_intro name tail :
  screen_name_ok name -> (tail = [] \/ tail = [newline]) ->
  exists k, screen_name_pattern (lit "screen_name=" ++ name ++ tail)
            = Some (S k, name).
Proof.
  intros Hok Ht. unfold screen_name_pattern, lit_then.
  rewrite strip_prefix_app, (name_at_end_intro name tail Hok Ht).
  simpl. eauto.
Qed.

(** X8.  [validate_author_url] returns what it is given unless that
    begins with [twitter://]; then it returns the address of the
    profile of the screen name that ends the text, when there is one. *)
Theorem validate_author_url_returns (author_url r : option str) :
  validate_author_url author_url = Returns r ->
  (r = author_url /\
   forall u, author_url = Some u -> strip_prefix (lit "twitter://") u = None) \/
  (exists u name,
      author_url = Some u /\ strip_prefix (lit "twitter://") u <> None /\
      ends_with_screen_name u name /\
      r = Some (lit "http://www.twitter.com/" ++ name)).
Proof.
  unfold validate_author_url.
  destruct author_url as [[|c u]|].
  - intros H. injection H as <-. left. split; [reflexivity|].
    intros u' Hu. injection Hu as <-. reflexivity.
  - destruct (strip_prefix (lit "twitter://") (c :: u)) eqn:Ep.
    + destruct (re_findall screen_name_pattern (c :: u)) as [|name rest] eqn:Ef;
        [discriminate|].
      intros H. injection H as <-. right.
      exists (c :: u), name. split; [reflexivity|]. split; [congruence|].
      split; [|reflexivity].
      apply re_findall_head in Ef. destruct Ef as (pre & suf & k & Heq & Hm).
      apply screen_name_pattern_inv in Hm.
      destruct Hm as (Hok & tail & -> & Ht).
      exists pre, tail. auto.
    + intros H. injection H as <-. left. split; [reflexivity|].
      intros u' Hu. injection Hu as <-. exact Ep.
  - intros H. injection H as <-. left. split; [reflexivity|]. discriminate.
Qed.

Lemma validate_author_url_returns_witness :
  validate_author_url (Some (lit "twitter://user?screen_name=some_1"))
  = Returns (Some (lit "http://www.twitter.com/some_1")) /\
  ((Some (lit "http://www.twitter.com/some_1")
    = Some (lit "twitter://user?screen_name=some_1") /\
    forall u, Some (lit "twitter://user?screen_name=some_1") = Some u ->
              strip_prefix (lit "twitter://") u = None) \/
   (exists u name,
       Some (lit "twitter://user?screen_name=some_1") = Some u /\
       strip_prefix (lit "twitter://") u <> None /\
       ends_with_screen_name u name /\
       Some (lit "http://www.twitter.com/some_1")
       = Some (lit "http://www.twitter.com/" ++ name))).
Proof.
  split; [reflexivity|].
  apply (validate_author_url_returns
           (Some (lit "twitter://user?screen_name=some_1"))).
  reflexivity.
Defined.

(** X9.  [validate_author_url] fails exactly on the texts that begin
    with [twitter://] and do not end with [screen_name=], a screen name
    and at most one newline; the failure is the [IndexError] of the
    first element of an empty list of matches. *)
Theorem validate_author_url_raises (author_url : option str) :
  ((exists e, validate_author_url author_url = Raises e) ->
   validate_author_url author_url
   = Raises (IndexError "list index out of range")) /\
  ((exists e, validate_author_url author_url = Raises e) <->
   (exists u,
       author_url = Some u /\ strip_prefix (lit "twitter://") u <> None /\
       forall name, ~ ends_with_screen_name u name)).
Proof.
  unfold validate_author_url. split; [|split].
  - intros [e H]. destruct author_url as [[|c u]|]; try discriminate.
    destruct (strip_prefix (lit "twitter://") (c :: u)); [|discriminate].
    destruct (re_findall screen_name_pattern (c :: u)); [reflexivity|discriminate].
  - intros [e H]. destruct author_url as [[|c u]|]; try discriminate.
    destruct (strip_prefix (lit "twitter://") (c :: u)) eqn:Ep; [|discriminate].
    destruct (re_findall screen_name_pattern (c :: u)) as [|g rest] eqn:Ef;
      [|discriminate].
    exists (c :: u). split; [reflexivity|]. split; [congruence|].
    intros name (pre & tail & Heq & Hok & Ht).
    assert (Hne : re_findall screen_name_pattern (c :: u) <> []).
    { apply re_findall_nonempty.
      destruct (screen_name_pattern_intro name tail Hok Ht) as [k Hk].
      exists pre, (lit "screen_name=" ++ name ++ tail), k, name.
      repeat split; auto. discriminate. }
    congruence.
  - intros (u & -> & Hp & Hn). destruct u as [|c u].
    + now destruct Hp.
    + destruct (strip_prefix (lit "twitter://") (c :: u)); [|now destruct Hp].
      destruct (re_findall screen_name_pattern (c :: u)) as [|g rest] eqn:Ef;
        [eauto|].
      exfalso. apply re_findall_head in Ef.
      destruct Ef as (pre & suf & k & Heq & Hm).
      apply screen_name_pattern_inv in Hm.
      destruct Hm as (Hok & tail & -> & Ht).
      apply (Hn g). exists pre, tail. auto.
Qed.

(** ** [replace_punctuation] *)

Section ReplacePunctuation.

Variable U : Unicode.

Lemma replace_punctuation_In text sub c :
  In c (replace_punctuation U text sub) ->
  In c sub \/ (In c text /\ punct U c = false).
Proof.
  unfold replace_punctuation. intros H. apply in_flat_map in H.
  destruct H as (d & Hd & H). fold (punct U d) in H.
  destruct (punct U d) eqn:E; [now left|].
  destruct H as [<-|[]]. auto.
Qed.

Lemma replace_punctuation_clean text sub :
  (forall c, In c text -> punct U c = false) ->
  replace_punctuation U text sub = text.
Proof.
  unfold replace_punctuation. induction text as [|c t IH]; intros H; [reflexivity|].
  cbn [flat_map]. fold (punct U c). rewrite (H c (or_introl eq_refl)).
  simpl. f_equal. apply IH. intros d Hd. apply H. now right.
Qed.

End ReplacePunctuation.

(** X10.  When the replacement has no punctuation character,
    [replace_punctuation] leaves none in the text, so replacing again
    changes nothing; and when the replacement is one character the text
    keeps its length. *)
Theorem replace_punctuation_once (U : Unicode) (text sub : str) :
  ((forall c, In c sub -> punct U c = false) ->
   (forall c, In c (replace_punctuation U text sub) -> punct U c = false) /\
   replace_punctuation U (replace_punctuation U text sub) sub
   = replace_punctuation U text sub) /\
  (length sub = 1%nat ->
   length (replace_punctuation U text sub) = length text).
Proof.
  split.
  - intros Hsub.
    assert (H : forall c, In c (replace_punctuation U text sub) ->
                          punct U c = false).
    { intros c Hc. apply replace_punctuation_In in Hc.
      destruct Hc as [Hc|[_ Hc]]; auto. }
    split; [exact H|]. now apply replace_punctuation_clean.
  - intros Hlen. unfold replace_punctuation.
    induction text as [|c t IH]; [reflexivity|].
    cbn [flat_map]. rewrite length_app, IH.
    destruct (in_cats (category U c) punctutation_cats); simpl; lia.
Qed.

Lemma replace_punctuation_once_witness :
  replace_punctuation tab_unicode (lit "a-b, (c)!") (lit " ") = lit "a b   c  " /\
  replace_punctuation tab_unicode (lit "a b   c  ") (lit " ") = lit "a b   c  ".
Proof.
  split; [reflexivity|].
  change (lit "a b   c  ")
    with (replace_punctuation tab_unicode (lit "a-b, (c)!") (lit " ")).
  apply (proj1 (replace_punctuation_once tab_unicode (lit "a-b, (c)!") (lit " "))).
  intros c [<-|[]]. reflexivity.
Defined.

Lemma validate_author_url_raises_witness :
  validate_author_url (Some (lit "twitter://x"))
  = Raises (IndexError "list index out of range").
Proof.
  apply (proj1 (validate_author_url_raises (Some (lit "twitter://x")))).
  apply (proj2 (proj2 (validate_author_url_raises (Some (lit "twitter://x"))))).
  exists (lit "twitter://x"). split; [reflexivity|]. split; [discriminate|].
  intros name (pre & tail & Heq & [_ Hlen] & _).
  apply (f_equal (@length char)) in Heq.
  rewrite !length_app in Heq. simpl in Heq. lia.
Defined.

(** ** [clean_html]: what is left *)

(** The scan for tags does not look at the character before. *)
Lemma sub_scan_tag_prev : forall s skip p q,
  sub_scan tag_match skip p s = sub_scan tag_match skip q s.
Proof.
  induction s as [|c s IH]; intros skip p q; [reflexivity|].
  cbn [sub_scan]. destruct skip as [|k]; [|apply IH].
  reflexivity.
Qed.

(** A line that has no [>] still has none after the scan. *)
Lemma lazy_until_scan : forall s prev,
  lazy_until (chr ">") s = None ->
  lazy_until (chr ">") (sub_scan tag_match 0 prev s) = None.
Proof.
  induction s as [|c s IH]; intros prev H; [reflexivity|].
  cbn [lazy_until] in H.
  destruct (c =? chr ">") eqn:Egt; [discriminate|].
  cbn [sub_scan tag_match].
  destruct (dot c) eqn:Ed.
  - assert (Hs : lazy_until (chr ">") s = None)
      by (destruct (lazy_until (chr ">") s); [discriminate|reflexivity]).
    rewrite Hs. simpl option_map.
    destruct (c =? chr "<"); cbn [lazy_until]; rewrite Egt, Ed, (IH _ Hs);
      reflexivity.
  - assert (Hlt : (c =? chr "<") = false).
    { destruct (c =? chr "<") eqn:E; [|reflexivity].
      apply N.eqb_eq in E. subst c. discriminate Ed. }
    rewrite Hlt. cbn [lazy_until]. now rewrite Egt, Ed.
Qed.

Lemma tagless_cons c r :
  tagless r -> (c = chr "<" -> lazy_until (chr ">") r = None) -> tagless (c :: r).
Proof.
  intros Hr Hc pre suf Heq. destruct pre as [|d pre].
  - simpl in Heq. injection Heq as -> <-. now apply Hc.
  - simpl in Heq. injection Heq as _ Heq. eapply Hr; eauto.
Qed.

Lemma sub_scan_tagless : forall s skip prev,
  tagless (sub_scan tag_match skip prev s).
Proof.
  induction s as [|c s IH]; intros skip prev.
  - intros pre suf H. destruct pre; discriminate H.
  - cbn [sub_scan]. destruct skip as [|k]; [|apply IH].
    destruct (tag_match prev (c :: s)) as [[|k]|] eqn:E; try apply IH.
    + cbn [tag_match] in E. destruct (c =? chr "<"); [|discriminate].
      destruct (lazy_until (chr ">") s); discriminate.
    + apply tagless_cons; [apply IH|]. intros ->.
      cbn [tag_match] in E. rewrite N.eqb_refl in E.
      apply lazy_until_scan.
      destruct (lazy_until (chr ">") s); [discriminate|reflexivity].
Qed.

Lemma sub_scan_tagless_id : forall r prev,
  tagless r -> sub_scan tag_match 0 prev r = r.
Proof.
  induction r as [|c r IH]; intros prev H; [reflexivity|].
  cbn [sub_scan tag_match].
  assert (Hr : tagless r).
  { intros pre suf Heq. apply (H (c :: pre) suf). now rewrite Heq. }
  destruct (c =? chr "<") eqn:E.
  - apply N.eqb_eq in E. subst c.
    rewrite (H [] r eq_refl). simpl. f_equal. now apply IH.
  - f_equal. now apply IH.
Qed.

Lemma lazy_until_found stop mid suf :
  forallb dot mid = true ->
  lazy_until stop (mid ++ stop :: suf) <> None.
Proof.
  induction mid as [|c mid IH]; intros H.
  - simpl. rewrite N.eqb_refl. discriminate.
  - simpl in H. apply andb_true_iff in H. destruct H as [Hc H].
    simpl. destruct (c =? stop); [discriminate|]. rewrite Hc.
    destruct (lazy_until stop (mid ++ stop :: suf)) eqn:E; [discriminate|].
    now destruct (IH H).
Qed.

Lemma lazy_until_exact stop mid suf :
  forallb dot mid = true -> ~ In stop mid ->
  lazy_until stop (mid ++ stop :: suf) = Some (S (length mid)).
Proof.
  induction mid as [|c mid IH]; intros H Hn.
  - simpl. now rewrite N.eqb_refl.
  - simpl in H. apply andb_true_iff in H. destruct H as [Hc H].
    simpl. destruct (c =? stop) eqn:E.
    + apply N.eqb_eq in E. subst c. destruct Hn. now left.
    + rewrite Hc, IH; [reflexivity|exact H|]. intros Hin. apply Hn. now right.
Qed.

(** X11.  In the result of [clean_html] no [<] is followed by a [>] on
    the same line, so no tag is left and cleaning again changes
    nothing. *)
Theorem clean_html_no_tag_left (s : str) :
  (forall pre mid suf,
      clean_html s = pre ++ chr "<" :: mid ++ chr ">" :: suf ->
      In newline mid) /\
  clean_html (clean_html s) = clean_html s.
Proof.
  assert (Ht : tagless (clean_html s)) by apply sub_scan_tagless.
  split.
  - intros pre mid suf Heq. specialize (Ht pre _ Heq).
    destruct (forallb dot mid) eqn:E.
    + now destruct (lazy_until_found (chr ">") mid suf E).
    + assert (Hex : existsb (fun c => negb (dot c)) mid = true).
      { clear -E. induction mid as [|c mid IH]; [discriminate|].
        simpl in *. destruct (dot c); simpl in *; auto. }
      apply existsb_exists in Hex. destruct Hex as (c & Hc & Hd).
      unfold dot in Hd. rewrite negb_involutive in Hd.
      apply N.eqb_eq in Hd. now subst c.
  - apply sub_scan_tagless_id, Ht.
Qed.

Lemma sub_scan_tag_app : forall a t prev,
  ~ In (chr "<") a ->
  sub_scan tag_match 0 prev (a ++ t) = a ++ sub_scan tag_match 0 prev t.
Proof.
  induction a as [|c a IH]; intros t prev H; [reflexivity|].
  simpl app. cbn [sub_scan tag_match].
  destruct (c =? chr "<") eqn:E.
  - apply N.eqb_eq in E. subst c. destruct H. now left.
  - f_equal. rewrite IH by (intros Hin; apply H; now right).
    f_equal. apply sub_scan_tag_prev.
Qed.

(** X12.  [clean_html] removes a tag: where a text without [<] is
    followed by [<], by characters other than [>] and newline, and by
    [>], the text stays, the tag goes and the cleaning goes on behind
    it. *)
Theorem clean_html_removes_tag (a m b : str) :
  ~ In (chr "<") a ->
  ~ In (chr ">") m -> ~ In newline m ->
  clean_html (a ++ chr "<" :: m ++ chr ">" :: b) = a ++ clean_html b.
Proof.
  intros Ha Hm Hn. unfold clean_html, re_sub_empty.
  rewrite (sub_scan_tag_app a _ None Ha). f_equal.
  cbn [sub_scan tag_match]. rewrite N.eqb_refl.
  assert (Hd : forallb dot m = true).
  { apply forallb_forall. intros c Hc. unfold dot.
    destruct (c =? newline) eqn:E; [|reflexivity].
    apply N.eqb_eq in E. now subst c. }
  rewrite (lazy_until_exact (chr ">") m b Hd Hm). cbn [option_map].
  replace (S (length m)) with (length (m ++ [chr ">"]))
    by (rewrite length_app; simpl; lia).
  replace (m ++ chr ">" :: b) with ((m ++ [chr ">"]) ++ b)
    by (rewrite <- app_assoc; reflexivity).
  rewrite sub_scan_skip_app. apply sub_scan_tag_prev.
Qed.

Lemma clean_html_removes_tag_witness :
  clean_html (lit "x <b class=y>bold</b> z") = lit "x " ++ clean_html (lit "bold</b> z").
Proof.
  apply (clean_html_removes_tag (lit "x ") (lit "b class=y") (lit "bold</b> z"));
    simpl; intros H;
    repeat (destruct H as [H|H]; [discriminate H|]); exact H.
Defined.

Lemma clean_html_no_tag_left_witness :
  clean_html (lit "a<b
c>d") = lit "a" ++ chr "<" :: lit "b
c" ++ chr ">" :: lit "d" /\
  In newline (lit "b
c").
Proof.
  split; [reflexivity|].
  apply (proj1 (clean_html_no_tag_left (lit "a<b
c>d")) (lit "a") (lit "b
c") (lit "d")).
  reflexivity.
Defined.

(** ** [normalize] applied twice, and before or after the punctuation *)

Lemma alnum_not_upper_plain c :
  ascii_isalnum c = true -> is_ascii_upper c = false -> plain_char c = true.
Proof.
  unfold ascii_isalnum, plain_char. intros H Hu. rewrite Hu in H.
  rewrite orb_false_r in H. now rewrite orb_comm.
Qed.

(** On ASCII text the key is made of small letters and digits. *)
Lemma normalize_ascii_plain (U : Unicode) t :
  ascii_str t -> forallb plain_char (normalize U t) = true.
Proof.
  intros Ht. apply forallb_forall. intros c Hc.
  apply normalize_In in Hc. destruct Hc as (Hu & Ha & _).
  assert (Hlt := unidecode_In U _ _ Hu).
  rewrite unidecode_ascii_str in Hu by now apply lower_ascii_str.
  rewrite isalnum_ascii in Ha by exact Hlt.
  apply alnum_not_upper_plain; [exact Ha|].
  eapply lower_no_upper; eauto.
Qed.

(** X13.  On ASCII text [normalize] applied to its own result gives the
    result again, unless the result is one of the words [a], [an],
    [the], [and]: then the second pass removes it. *)
Theorem normalize_twice (U : Unicode) (t : str) :
  ascii_str t ->
  normalize U (normalize U t)
  = if stopword (normalize U t) then [] else normalize U t.
Proof.
  intros Ht. assert (Hp := normalize_ascii_plain U t Ht).
  set (r := normalize U t) in *.
  change (normalize U r) with (normalize U (join space [r])).
  rewrite normalize_plain_words by (simpl; now rewrite Hp).
  cbn [filter]. destruct (stopword r); simpl; [reflexivity|apply app_nil_r].
Qed.

Lemma normalize_twice_witness :
  normalize tab_unicode (lit "T he") = lit "the" /\
  normalize tab_unicode (normalize tab_unicode (lit "T he")) = [].
Proof.
  split; [reflexivity|].
  apply (normalize_twice tab_unicode (lit "T he")). reflexivity.
Defined.

Lemma kept_lower c : c < 128 -> kept (ascii_lower c) = kept c.
Proof.
  intros H.
  apply (ascii_forall (fun c => Bool.eqb (kept (ascii_lower c)) (kept c)))
    in H; [|vm_compute; reflexivity].
  now apply eqb_prop in H.
Qed.

Lemma lower_not_tag c : c < 128 -> ascii_lower c = chr "<" -> c = chr "<".
Proof.
  intros H.
  apply (ascii_forall
           (fun c => implb (ascii_lower c =? chr "<") (c =? chr "<")))
    in H; [|vm_compute; reflexivity].
  intros E. rewrite E, N.eqb_refl in H. now apply N.eqb_eq.
Qed.

Lemma filter_map_lower s :
  ascii_str s ->
  filter kept (map ascii_lower s) = map ascii_lower (filter kept s).
Proof.
  induction s as [|c s IH]; intros H; [reflexivity|].
  apply ascii_str_cons in H. destruct H as [Hc Hs].
  cbn [map filter]. rewrite (kept_lower c Hc), (IH Hs).
  now destruct (kept c).
Qed.

Lemma remove_punctuation_kept (U : Unicode) s :
  ascii_str s -> remove_punctuation U s = filter kept s.
Proof.
  intros H. rewrite remove_punctuation_filter. apply filter_ext_in.
  intros c Hc. assert (c < 128) by (apply ascii_str_In with (s := s); auto).
  unfold kept. now rewrite isalnum_ascii, isspace_ascii.
Qed.

Lemma filter_twice (p : char -> bool) s : filter p (filter p s) = filter p s.
Proof.
  apply forallb_filter_id. apply forallb_forall. intros c Hc.
  now apply filter_In in Hc.
Qed.

(** X14.  [normalize] does not see punctuation: on ASCII text without
    [<], removing the punctuation first gives the same key. *)
Theorem normalize_ignores_punctuation (U : Unicode) (t : str) :
  ascii_str t -> ~ In (chr "<") t ->
  normalize U (remove_punctuation U t) = normalize U t.
Proof.
  intros Ht Hlt. unfold normalize. cbv zeta.
  assert (Hr : ascii_str (remove_punctuation U t))
    by now apply remove_punctuation_ascii_str.
  rewrite !lower_ascii by now apply ascii_str_Forall.
  rewrite !unidecode_ascii_str by now apply ascii_str_map_lower.
  assert (Hnt : forall s, ascii_str s -> ~ In (chr "<") s ->
                          ~ In (chr "<") (map ascii_lower s)).
  { intros s Hs Hn Hin. apply in_map_iff in Hin. destruct Hin as (c & Hc & Hin).
    apply lower_not_tag in Hc; [now subst c|].
    apply ascii_str_In with (s := s); auto. }
  rewrite !clean_html_id.
  - rewrite (remove_punctuation_kept U t Ht).
    assert (Hk : ascii_str (filter kept t)).
    { eapply ascii_str_incl; [|exact Ht]. intros c Hc. now apply filter_In in Hc. }
    rewrite (remove_punctuation_kept U _ (ascii_str_map_lower _ Hk)).
    rewrite (remove_punctuation_kept U _ (ascii_str_map_lower _ Ht)).
    rewrite <- filter_map_lower by exact Ht.
    now rewrite filter_twice.
  - now apply Hnt.
  - apply Hnt; [exact Hr|]. intros Hin.
    apply remove_punctuation_In in Hin. now destruct Hin.
Qed.

Lemma normalize_ignores_punctuation_witness :
  normalize tab_unicode (remove_punctuation tab_unicode (lit "The Quick, Brown Fox!"))
  = normalize tab_unicode (lit "The Quick, Brown Fox!").
Proof.
  apply (normalize_ignores_punctuation tab_unicode (lit "The Quick, Brown Fox!")).
  - reflexivity.
  - simpl. intros H. repeat (destruct H as [H|H]; [discriminate H|]). exact H.
Defined.

(** ** A DOI behind its resolver *)

Lemma find_ten_skip p s :
  ~ In (chr "1") p -> find_ten (p ++ s) = find_ten s.
Proof.
  induction p as [|c p IH]; intros H; [reflexivity|].
  simpl app. cbn [find_ten].
  assert (Hc : (c =? chr "1") = false).
  { apply N.eqb_neq. intros ->. apply H. now left. }
  assert (Hs : starts_ten (c :: p ++ s) = false).
  { unfold starts_ten. destruct (p ++ s) as [|c2 [|c3 r]]; try reflexivity.
    now rewrite Hc. }
  rewrite Hs. apply IH. intros Hin. apply H. now right.
Qed.

Lemma lower_not_hash c : c < 128 -> ascii_lower c = chr "#" -> c = chr "#".
Proof.
  intros H.
  apply (ascii_forall
           (fun c => implb (ascii_lower c =? chr "#") (c =? chr "#")))
    in H; [|vm_compute; reflexivity].
  intros E. rewrite E, N.eqb_refl in H. now apply N.eqb_eq.
Qed.

(** X15.  A DOI written behind one of the resolver addresses is
    recognised and recovered: if [d] is printable ASCII, begins with
    [10] and a further character and has no [#], then [is_doi_url]
    accepts the link and [clean_doi] returns [d] in small letters. *)
Theorem resolver_link_round_trip (U : Unicode) (p d : str) :
  In p resolver_prefixes ->
  forallb printable d = true -> starts_ten d = true -> ~ In (chr "#") d ->
  is_doi_url U (p ++ d) = true /\
  clean_doi U (Some (p ++ d)) = Return (map ascii_lower d).
Proof.
  intros Hp Hd Hten Hhash.
  assert (Hda : ascii_str d).
  { apply ascii_str_In. intros c Hc. apply printable_lt.
    rewrite forallb_forall in Hd. auto. }
  assert (Hpp : ascii_str p /\ filter printable p = p /\ map ascii_lower p = p
                /\ ~ In (chr "1") p).
  { destruct Hp as [<-|[<-|[<-|[<-|[]]]]];
      (repeat split; try reflexivity;
       simpl; intros H; repeat (destruct H as [H|H]; [discriminate H|]); exact H). }
  destruct Hpp as (Hpa & Hpf & Hpl & Hp1).
  assert (Hall : ascii_str (p ++ d)) by (apply ascii_str_app; auto).
  split.
  - apply is_doi_url_findall.
    rewrite lower_ascii by now apply ascii_str_Forall.
    rewrite map_app, Hpl. apply re_findall_nonempty.
    assert (Hl : resolver_link (p ++ map ascii_lower d)).
    { destruct Hp as [<-|[<-|[<-|[<-|[]]]]].
      - exists (lit "http"), [], (map ascii_lower d). auto.
      - exists (lit "https"), [], (map ascii_lower d). auto.
      - exists (lit "http"), (lit "dx."), (map ascii_lower d). auto.
      - exists (lit "https"), (lit "dx."), (map ascii_lower d). auto. }
    destruct (doi_url_pattern_link _ Hl) as (k & g & Hm).
    exists [], (p ++ map ascii_lower d), k, g. repeat split; auto.
    intros E. rewrite E in Hm. discriminate Hm.
  - assert (Hne : p ++ d <> []).
    { destruct Hp as [<-|[<-|[<-|[<-|[]]]]]; discriminate. }
    rewrite (clean_doi_find U _ Hne), (cleaned_ascii U _ Hall).
    rewrite filter_app, Hpf, (forallb_filter_id _ _ Hd), map_app, Hpl.
    rewrite (find_ten_skip p _ Hp1).
    apply starts_ten_shape in Hten. destruct Hten as (c & rest & -> & Hc).
    assert (Hc' : ascii_lower c <> newline).
    { intros E. apply Hc.
      assert (Hlt : c < 128).
      { apply ascii_str_In with (s := lit "10" ++ c :: rest); [exact Hda|].
        simpl. auto. }
      apply (ascii_forall
               (fun c => implb (ascii_lower c =? newline) (c =? newline)))
        in Hlt; [|vm_compute; reflexivity].
      rewrite E, N.eqb_refl in Hlt. now apply N.eqb_eq. }
    assert (Hs : starts_ten (map ascii_lower (lit "10" ++ c :: rest)) = true).
    { apply starts_ten_shape. exists (ascii_lower c), (map ascii_lower rest).
      split; [reflexivity|exact Hc']. }
    assert (Hf : find_ten (map ascii_lower (lit "10" ++ c :: rest))
                 = Some (map ascii_lower (lit "10" ++ c :: rest))).
    { simpl map in *. cbn [find_ten]. now rewrite Hs. }
    rewrite Hf. f_equal. apply before_hash_id.
    intros Hin. apply in_map_iff in Hin. destruct Hin as (e & He & Hin).
    apply lower_not_hash in He; [subst e; contradiction|].
    apply ascii_str_In with (s := lit "10" ++ c :: rest); auto.
Qed.

Lemma resolver_link_round_trip_witness :
  is_doi_url tab_unicode (lit "https://doi.org/10.1234/ABC") = true /\
  clean_doi tab_unicode (Some (lit "https://doi.org/10.1234/ABC"))
  = Return (lit "10.1234/abc").
Proof.
  apply (resolver_link_round_trip tab_unicode
           (lit "https://doi.org/") (lit "10.1234/ABC")).
  - right. left. reflexivity.
  - reflexivity.
  - reflexivity.
  - simpl. intros H. repeat (destruct H as [H|H]; [discriminate H|]). exact H.
Defined.

(** ** [median] *)

Lemma insert_sorted_length x l : length (insert_sorted x l) = S (length l).
Proof.
  induction l as [|y l IH]; simpl; [reflexivity|].
  destruct (x <=? y)%Z; simpl; [reflexivity|now rewrite IH].
Qed.

Lemma sorted_length l : length (sorted l) = length l.
Proof.
  unfold sorted. induction l as [|x l IH]; simpl; [reflexivity|].
  now rewrite insert_sorted_length, IH.
Qed.

Lemma true_div_two a :
  true_div a (PyInt 2) = Returns (PyFloat (to_Q a / inject_Z 2)).
Proof. reflexivity. Qed.

(** X16.  [median] returns [None] for the empty list and raises
    [TypeError] for every other list: the index it computes with [/] is
    a float, which a list does not accept as an index or a slice
    bound. *)
Theorem median_type_error (my_list : list Z) :
  (my_list = [] -> median my_list = Returns None) /\
  (my_list <> [] -> exists msg, median my_list = Raises (TypeError msg)).
Proof.
  split; [intros ->; reflexivity|].
  intros Hne. unfold median. cbv zeta. rewrite sorted_length.
  assert (Hlen : (1 <= Z.of_nat (length my_list))%Z).
  { destruct my_list; [congruence|]. simpl length. lia. }
  destruct (Z.of_nat (length my_list) <? 1)%Z eqn:E;
    [apply Z.ltb_lt in E; lia|].
  destruct (Z.of_nat (length my_list) mod 2 =? 1)%Z eqn:E1.
  - rewrite true_div_two. cbn [bind num_add num_sub list_index]. eauto.
  - destruct (Z.of_nat (length my_list) mod 2 =? 0)%Z eqn:E0.
    + rewrite true_div_two. cbn [bind num_add num_sub list_slice]. eauto.
    + exfalso. apply Z.eqb_neq in E0. apply Z.eqb_neq in E1.
      assert (H := Z.mod_pos_bound (Z.of_nat (length my_list)) 2 ltac:(lia)).
      lia.
Qed.

Lemma median_type_error_witness :
  exists msg, median [3; 1; 2]%Z = Raises (TypeError msg).
Proof.
  apply (proj2 (median_type_error [3; 1; 2]%Z)). discriminate.
Defined.

(** ** [HTTPMethodOverrideMiddleware] *)

Lemma dict_get_set {V : Type} (d : dict V) (k k' : str) (v : V) :
  dict_get (dict_set d k v) k'
  = if str_eqb k' k then Some v else dict_get d k'.
Proof.
  induction d as [|[k0 v0] d IH]; cbn [dict_set dict_get].
  - reflexivity.
  - destruct (str_eqb k k0) eqn:E; cbn [dict_get].
    + apply str_eqb_eq in E. subst k0. now destruct (str_eqb k' k).
    + rewrite IH. destruct (str_eqb k' k0) eqn:E0; [|reflexivity].
      apply str_eqb_eq in E0. subst k0.
      destruct (str_eqb k' k) eqn:E1; [|reflexivity].
      apply str_eqb_eq in E1. subst k'. rewrite str_eqb_refl in E. discriminate.
Qed.

Lemma dict_get_map {V W : Type} (f : V -> W) (d : dict V) (k : str) :
  dict_get (map (fun kv => (fst kv, f (snd kv))) d) k
  = option_map f (dict_get d k).
Proof.
  induction d as [|[k0 v0] d IH]; simpl; [reflexivity|].
  now destruct (str_eqb k k0).
Qed.

Lemma bytes_not_bodyless b : in_methods (EBytes b) bodyless_methods = false.
Proof. reflexivity. Qed.

Lemma bodyless_allowed s :
  existsb (str_eqb s) bodyless_methods = true ->
  existsb (str_eqb s) allowed_methods = true.
Proof.
  intros H. apply existsb_exists in H. destruct H as (m & Hm & E).
  apply existsb_exists. exists m. split; [|exact E].
  simpl in Hm. simpl. intuition.
Qed.

(** X17.  The middleware never touches [CONTENT_LENGTH]: an allowed
    method has become bytes by the time it is looked up among the
    bodyless methods, which are strings, and a method that is not
    allowed is not bodyless.  It stores the method, as bytes, under
    [REQUEST_METHOD] when the upper-cased override is an allowed method,
    and leaves every other entry as it was. *)
Theorem override_environ_entries (upper : str -> str) (environ : dict str) :
  let method :=
    upper (match dict_get environ (lit "HTTP_X_HTTP_METHOD_OVERRIDE") with
           | Some s => s
           | None => lit ""
           end) in
  (forall k, k <> lit "REQUEST_METHOD" ->
             dict_get (override_environ upper environ) k
             = option_map EStr (dict_get environ k)) /\
  dict_get (override_environ upper environ) (lit "REQUEST_METHOD")
  = if existsb (str_eqb method) allowed_methods
    then Some (EBytes (encode_ascii_replace method))
    else option_map EStr (dict_get environ (lit "REQUEST_METHOD")).
Proof.
  intros method. unfold override_environ. fold method. cbv zeta.
  cbn [in_methods].
  destruct (existsb (str_eqb method) allowed_methods) eqn:Ea.
  - rewrite bytes_not_bodyless. split.
    + intros k Hk. rewrite dict_get_set.
      apply str_eqb_neq in Hk. rewrite Hk. apply dict_get_map.
    + rewrite dict_get_set, str_eqb_refl. reflexivity.
  - cbn [in_methods].
    assert (Eb : existsb (str_eqb method) bodyless_methods = false).
    { destruct (existsb (str_eqb method) bodyless_methods) eqn:Eb; [|reflexivity].
      apply bodyless_allowed in Eb. congruence. }
    rewrite Eb. split; [intros k _|]; apply dict_get_map.
Qed.

Lemma override_environ_entries_witness :
  dict_get
    (override_environ (map (fun c => if is_ascii_lower c then c - 32 else c))
       [(lit "HTTP_X_HTTP_METHOD_OVERRIDE", lit "delete");
        (lit "CONTENT_LENGTH", lit "12")])
    (lit "CONTENT_LENGTH")
  = Some (EStr (lit "12")).
Proof.
  apply (proj1 (override_environ_entries
                  (map (fun c => if is_ascii_lower c then c - 32 else c))
                  [(lit "HTTP_X_HTTP_METHOD_OVERRIDE", lit "delete");
                   (lit "CONTENT_LENGTH", lit "12")])).
  discriminate.
Defined.

(** ** [update_recursive_sum] *)

(** *** The store *)

Lemma length_store_set h : forall a d,
  length (store_set h a d) = length h.
Proof.
  induction h as [|x h IH]; intros a d; [reflexivity|].
  destruct a as [|a]; simpl; [reflexivity|]. now rewrite IH.
Qed.

Lemma store_get_set_same h : forall a d,
  (a < length h)%nat -> store_get (store_set h a d) a = d.
Proof.
  unfold store_get.
  induction h as [|x h IH]; intros a d H; [simpl in H; lia|].
  destruct a as [|a]; simpl; [reflexivity|]. apply IH. simpl in H. lia.
Qed.

Lemma store_get_set_other h : forall a b d,
  a <> b -> store_get (store_set h a d) b = store_get h b.
Proof.
  unfold store_get.
  induction h as [|x h IH]; intros a b d H; [reflexivity|].
  destruct a as [|a], b as [|b]; simpl; try reflexivity; try congruence.
  apply IH. congruence.
Qed.

Lemma store_set_same h : forall a, store_set h a (store_get h a) = h.
Proof.
  unfold store_get.
  induction h as [|x h IH]; intros a; [reflexivity|].
  destruct a as [|a]; simpl; [reflexivity|]. now rewrite IH.
Qed.

Lemma store_set_set h : forall a d d',
  store_set (store_set h a d) a d' = store_set h a d'.
Proof.
  induction h as [|x h IH]; intros a d d'; [reflexivity|].
  destruct a as [|a]; simpl; [reflexivity|]. now rewrite IH.
Qed.

Lemma store_get_app_old h d a :
  (a < length h)%nat -> store_get (h ++ [d]) a = store_get h a.
Proof. intros H. unfold store_get. now apply app_nth1. Qed.

Lemma store_get_app_new h d : store_get (h ++ [d]) (length h) = d.
Proof. unfold store_get. rewrite app_nth2, Nat.sub_diag by lia. reflexivity. Qed.

(** *** Dictionaries of counts *)

Lemma dict_set_counts (d : dict Z) k x :
  dict_set (counts d) k (VInt x) = counts (dict_set d k x).
Proof.
  unfold counts.
  induction d as [|[k0 v0] d IH]; cbn [map dict_set fst snd]; [reflexivity|].
  destruct (str_eqb k k0); cbn [map fst snd]; [reflexivity|now rewrite IH].
Qed.

Lemma dict_get_absent {V : Type} (d : dict V) k :
  ~ In k (map fst d) -> dict_get d k = None.
Proof.
  induction d as [|[k0 v0] d IH]; intros H; [reflexivity|].
  cbn [dict_get]. destruct (str_eqb k k0) eqn:E.
  - apply str_eqb_eq in E. subst k0. destruct H. now left.
  - apply IH. intros Hin. apply H. now right.
Qed.

(** The counts of [u] added to those of [d], item after item. *)
Lemma add_counts_get (uz : dict Z) : forall dz,
  NoDup (map fst uz) ->
  forall k,
    dict_get (add_counts dz uz) k =
    match dict_get uz k with
    | Some n => Some (match dict_get dz k with
                      | Some m => m + n
                      | None => n
                      end)%Z
    | None => dict_get dz k
    end.
Proof.
  induction uz as [|[k n] rest IH]; intros dz Hnd k'; [reflexivity|].
  cbn [map fst] in Hnd. apply NoDup_cons_iff in Hnd. destruct Hnd as [Hk Hnd].
  cbn [add_counts fst snd]. rewrite (IH _ Hnd), dict_get_set. cbn [dict_get].
  destruct (str_eqb k' k) eqn:E; [|reflexivity].
  apply str_eqb_eq in E. subst k'.
  now rewrite (dict_get_absent rest k Hk).
Qed.

Lemma nth_error_middle {A : Type} (l1 : list A) x l2 :
  nth_error (l1 ++ x :: l2) (length l1) = Some x.
Proof. induction l1 as [|y l1 IH]; [reflexivity|exact IH]. Qed.

(** The loop on a dictionary of counts, from any position on: the
    counts still to come are added to the dictionary at [da], in
    place, and nothing else changes in the store. *)
Lemma update_loop_counts rec (ua da : addr) (uz : dict Z) :
  da <> ua ->
  forall rest done dz h,
    uz = done ++ rest ->
    (da < length h)%nat ->
    store_get h ua = counts uz ->
    store_get h da = counts dz ->
    update_loop true rec ua (length uz)
      (seq (length done) (length rest)) h (VRef da)
    = Some (store_set h da (counts (add_counts dz rest)), Returns (VRef da)).
Proof.
  intros Hne.
  assert (Hsize : forall h, store_get h ua = counts uz ->
                            (length (store_get h ua) =? length uz)%nat = true).
  { intros h ->. unfold counts. rewrite length_map. apply Nat.eqb_refl. }
  induction rest as [|[k n] rest IH]; intros done dz h Huz Hda Hu Hd.
  - cbn [length seq update_loop add_counts]. rewrite (Hsize h Hu). cbn [negb].
    now rewrite <- Hd, store_set_same.
  - cbn [length seq update_loop]. rewrite (Hsize h Hu). cbn [negb].
    assert (Hnth : nth_error (counts uz) (length done) = Some (k, VInt n)).
    { rewrite Huz. unfold counts. rewrite map_app. cbn [map fst snd].
      rewrite <- (length_map (fun kv : str * Z => (fst kv, VInt (snd kv))) done).
      apply nth_error_middle. }
    rewrite Hu, Hnth.
    set (x := match dict_get dz k with Some m => (m + n)%Z | None => n end).
    assert (Hstep : setitem h da k (VInt x)
                    = store_set h da (counts (dict_set dz k x))).
    { unfold setitem. now rewrite Hd, dict_set_counts. }
    assert (Hnext :
      update_loop true rec ua (length uz)
        (seq (S (length done)) (length rest)) (setitem h da k (VInt x)) (VRef da)
      = Some (store_set h da (counts (add_counts (dict_set dz k x) rest)),
              Returns (VRef da))).
    { rewrite Hstep.
      replace (S (length done)) with (length (done ++ [(k, n)]))
        by (rewrite length_app; simpl; lia).
      rewrite (IH (done ++ [(k, n)]) (dict_set dz k x)).
      - now rewrite store_set_set.
      - now rewrite <- app_assoc.
      - now rewrite length_store_set.
      - now rewrite store_get_set_other.
      - now apply store_get_set_same. }
    unfold update_item. cbn [negb]. rewrite Hd.
    unfold counts at 1. rewrite dict_get_map.
    cbn [add_counts fst snd]. fold x. unfold x in Hnext |- *.
    destruct (dict_get dz k) as [m|]; cbn [option_map]; exact Hnext.
Qed.

(** X19.  A dictionary [d] of counts is updated in place with the counts
    of another dictionary [u].  On an interpreter where [collections]
    has the name [Mapping], the call returns [d] itself, whose
    dictionary then has, for a key of [u], the count of [u] added to
    that of [d] (or alone, when [d] had none) and for every other key
    the count it had, and nothing else in the store has changed.  On an
    interpreter where the name is missing, the call leaves the store as
    it is, and raises [AttributeError] unless [u] is empty. *)
Theorem update_recursive_sum_counts
    (fuel : nat) (h : store) (da ua : addr) (dz uz : dict Z) :
  (da < length h)%nat -> da <> ua ->
  store_get h da = counts dz -> store_get h ua = counts uz ->
  NoDup (map fst uz) ->
  (exists rz,
      update_recursive_sum true (S fuel) h (VRef da) (VRef ua)
      = Some (store_set h da (counts rz), Returns (VRef da)) /\
      forall k,
        dict_get rz k =
        match dict_get uz k with
        | Some n => Some (match dict_get dz k with
                          | Some m => m + n
                          | None => n
                          end)%Z
        | None => dict_get dz k
        end) /\
  update_recursive_sum false (S fuel) h (VRef da) (VRef ua)
  = Some (h, match uz with
             | [] => Returns (VRef da)
             | _ :: _ =>
                 Raises (AttributeError
                           "module 'collections' has no attribute 'Mapping'")
             end).
Proof.
  intros Hda Hne Hd Hu Hnd. split.
  - exists (add_counts dz uz). split; [|now apply add_counts_get].
    cbn [update_recursive_sum]. rewrite Hu at 1 2.
    unfold counts at 1 2. rewrite !length_map.
    exact (update_loop_counts _ ua da uz Hne uz [] dz h eq_refl Hda Hu Hd).
  - cbn [update_recursive_sum]. rewrite Hu.
    destruct uz as [|[k n] uz];
      cbn [counts map length seq update_loop]; rewrite Hu;
      cbn [counts map length]; rewrite Nat.eqb_refl; reflexivity.
Qed.

Lemma update_recursive_sum_counts_witness :
  update_recursive_sum true 1
    [ [(lit "a", VInt 1); (lit "b", VInt 2)];
      [(lit "b", VInt 5); (lit "c", VInt 7)] ]
    (VRef 0) (VRef 1)
  = Some ([ [(lit "a", VInt 1); (lit "b", VInt 7); (lit "c", VInt 7)];
            [(lit "b", VInt 5); (lit "c", VInt 7)] ],
          Returns (VRef 0)) /\
  update_recursive_sum false 1
    [ [(lit "a", VInt 1); (lit "b", VInt 2)];
      [(lit "b", VInt 5); (lit "c", VInt 7)] ]
    (VRef 0) (VRef 1)
  = Some ([ [(lit "a", VInt 1); (lit "b", VInt 2)];
            [(lit "b", VInt 5); (lit "c", VInt 7)] ],
          Raises (AttributeError
                    "module 'collections' has no attribute 'Mapping'")).
Proof.
  destruct (update_recursive_sum_counts 0%nat
              [ [(lit "a", VInt 1); (lit "b", VInt 2)];
                [(lit "b", VInt 5); (lit "c", VInt 7)] ]
              0%nat 1%nat
              [(lit "a", 1%Z); (lit "b", 2%Z)] [(lit "b", 5%Z); (lit "c", 7%Z)])
    as [_ H].
  - simpl. lia.
  - discriminate.
  - reflexivity.
  - reflexivity.
  - repeat constructor; simpl; intuition discriminate.
  - split; [reflexivity|exact H].
Defined.

(** *** The recursive sum of trees *)

(** Induction on trees, with the property at hand for every tree of a
    dictionary. *)
Fixpoint tree_rect' (P : tree -> Prop)
    (Hnum : forall z, P (TNum z))
    (Hdict : forall items, Forall (fun kv => P (snd kv)) items -> P (TDict items))
    (v : tree) : P v :=
  match v with
  | TNum z => Hnum z
  | TDict items =>
      Hdict items
        ((fix all (l : list (str * tree)) : Forall (fun kv => P (snd kv)) l :=
            match l with
            | [] => Forall_nil _
            | (k, x) :: t =>
                Forall_cons (k, x) (tree_rect' P Hnum Hdict x) (all t)
            end) items)
  end.

Lemma dict_total_cons k x t :
  dict_total ((k, x) :: t) = (total x + dict_total t)%Z.
Proof. reflexivity. Qed.

Lemma dict_total_set items k v :
  dict_total (dict_set items k v)
  = (dict_total items
     - match dict_get items k with Some x => total x | None => 0 end
     + total v)%Z.
Proof.
  induction items as [|[k0 x0] t IH].
  - cbn [dict_set dict_get]. rewrite dict_total_cons.
    change (dict_total []) with 0%Z. lia.
  - cbn [dict_set dict_get]. destruct (str_eqb k k0).
    + rewrite !dict_total_cons. lia.
    + rewrite !dict_total_cons, IH. lia.
Qed.

Lemma tree_loop_total (rec : tree -> tree -> outcome tree) items :
  Forall (fun kv => forall d r, rec d (snd kv) = Returns r ->
                                total r = (total d + total (snd kv))%Z) items ->
  forall d r, tree_loop rec d items = Returns r ->
              total r = (total d + dict_total items)%Z.
Proof.
  induction 1 as [|[k v] rest Hv _ IH]; intros d r H.
  - simpl in H. injection H as <-. change (dict_total []) with 0%Z. lia.
  - cbn [tree_loop] in H. cbn [snd] in Hv.
    destruct (tree_item rec d k v) as [d'|e] eqn:E; [|discriminate H].
    cbn [bind] in H. apply IH in H. rewrite H, dict_total_cons.
    assert (Hd : total d' = (total d + total v)%Z); [|lia].
    clear H IH. unfold tree_item in E.
    destruct v as [n|vitems].
    + destruct d as [m|ditems]; [discriminate E|].
      change (total (TDict ditems)) with (dict_total ditems).
      destruct (dict_get ditems k) as [[m|xs]|] eqn:Eg; try discriminate E;
        injection E as <-;
        match goal with
        | |- total (TDict ?x) = _ => change (total (TDict x)) with (dict_total x)
        end;
        rewrite dict_total_set, Eg; cbn [total]; lia.
    + destruct d as [m|ditems]; [discriminate E|].
      destruct (rec match dict_get ditems k with
                    | Some x => x
                    | None => TDict []
                    end (TDict vitems)) as [r'|e] eqn:Er; [|discriminate E].
      cbn [bind] in E. injection E as <-.
      apply Hv in Er.
      change (total (TDict (dict_set ditems k r')))
        with (dict_total (dict_set ditems k r')).
      change (total (TDict ditems)) with (dict_total ditems).
      rewrite dict_total_set, Er.
      destruct (dict_get ditems k); [lia|]. change (total (TDict [])) with 0%Z. lia.
Qed.

(** The integers of the sum of two trees add up to those of the one and
    those of the other together. *)
Lemma update_tree_total (d u r : tree) :
  update_tree d u = Returns r -> total r = (total d + total u)%Z.
Proof.
  revert d r. induction u as [z|items IH] using tree_rect'; intros d r H.
  - discriminate H.
  - cbn [update_tree] in H.
    apply (tree_loop_total update_tree items) in H; [exact H|].
    exact IH.
Qed.

(** *** Trees in the store *)

Lemma NoDup_app_parts {A : Type} (l1 l2 : list A) :
  NoDup (l1 ++ l2) <->
  NoDup l1 /\ NoDup l2 /\ forall a, In a l1 -> ~ In a l2.
Proof.
  induction l1 as [|x l1 IH]; simpl.
  - split; [intros H; repeat split; [constructor|exact H|tauto]|tauto].
  - rewrite !NoDup_cons_iff, IH, in_app_iff. split.
    + intros (Hx & H1 & H2 & H3). repeat split; try tauto.
      intros a [<-|Ha]; [tauto|auto].
    + intros ((Hx & H1) & H2 & H3). repeat split; auto.
      intros [H|H]; [tauto|]. now apply (H3 x); [left|].
Qed.

Lemma reps_bound h es ts F :
  reps h es ts F -> forall a, In a F -> (a < length h)%nat.
Proof.
  induction 1 as [|k z es ts F _ IH|k a sub es ts F1 F2 Ha _ IH1 _ IH2];
    intros b Hb.
  - destruct Hb.
  - auto.
  - destruct Hb as [<-|Hb]; [exact Ha|].
    apply in_app_or in Hb. destruct Hb; auto.
Qed.

(** What stands for a tree still does in a store that has grown and has
    kept the dictionaries of the tree. *)
Lemma reps_frame h h' es ts F :
  reps h es ts F ->
  (length h <= length h')%nat ->
  (forall a, In a F -> store_get h' a = store_get h a) ->
  reps h' es ts F.
Proof.
  induction 1 as [|k z es ts F _ IH|k a sub es ts F1 F2 Ha _ IH1 _ IH2];
    intros Hlen Hsame.
  - constructor.
  - constructor. auto.
  - constructor.
    + lia.
    + rewrite (Hsame a (or_introl eq_refl)). apply IH1; [exact Hlen|].
      intros b Hb. apply Hsame. right. apply in_or_app. now left.
    + apply IH2; [exact Hlen|].
      intros b Hb. apply Hsame. right. apply in_or_app. now right.
Qed.

Lemma rep_bound h v t F :
  rep h v t F -> forall a, In a F -> (a < length h)%nat.
Proof.
  destruct v as [z|a], t as [z'|sub]; simpl; try tauto.
  - intros [_ ->] b [].
  - intros (Ha & F' & -> & H) b [<-|Hb]; [exact Ha|].
    eapply reps_bound; eauto.
Qed.

Lemma rep_frame h h' v t F :
  rep h v t F ->
  (length h <= length h')%nat ->
  (forall a, In a F -> store_get h' a = store_get h a) ->
  rep h' v t F.
Proof.
  destruct v as [z|a], t as [z'|sub]; simpl; try tauto.
  intros (Ha & F' & -> & H) Hlen Hsame.
  split; [lia|]. exists F'. split; [reflexivity|].
  rewrite (Hsame a (or_introl eq_refl)).
  apply (reps_frame h); auto.
  intros b Hb. apply Hsame. now right.
Qed.

Lemma reps_cons h k v t Fv es ts F :
  rep h v t Fv -> reps h es ts F ->
  reps h ((k, v) :: es) ((k, t) :: ts) (Fv ++ F).
Proof.
  destruct v as [z|a], t as [z'|sub]; simpl; try tauto.
  - intros [-> ->] H. now constructor.
  - intros (Ha & F' & -> & Hs) H. simpl. now constructor.
Qed.

(** The item of a key in a dictionary that stands for a tree: what it
    stands for, and what the dictionary stands for once the item is
    set to another value. *)
Lemma reps_lens h es ts F k :
  reps h es ts F ->
  match dict_get es k with
  | Some v =>
      exists t F1 Fv F2,
        dict_get ts k = Some t /\ F = F1 ++ Fv ++ F2 /\ rep h v t Fv /\
        forall h' v' t' Fv',
          (length h <= length h')%nat ->
          (forall a, In a (F1 ++ F2) -> store_get h' a = store_get h a) ->
          rep h' v' t' Fv' ->
          reps h' (dict_set es k v') (dict_set ts k t') (F1 ++ Fv' ++ F2)
  | None =>
      dict_get ts k = None /\
      forall h' v' t' Fv',
        (length h <= length h')%nat ->
        (forall a, In a F -> store_get h' a = store_get h a) ->
        rep h' v' t' Fv' ->
        reps h' (dict_set es k v') (dict_set ts k t') (F ++ Fv')
  end.
Proof.
  induction 1 as [|k0 z es ts F Hr IH|k0 a sub es ts F1 F2 Ha Hs _ Hr IH].
  - simpl. split; [reflexivity|]. intros h' v' t' Fv' _ _ Hv'.
    rewrite <- (app_nil_r Fv'). apply reps_cons; [exact Hv'|constructor].
  - cbn [dict_get dict_set]. destruct (str_eqb k k0) eqn:E.
    + exists (TNum z), [], [], F. repeat split.
      intros h' v' t' Fv' Hlen Hsame Hv'. simpl.
      apply reps_cons; [exact Hv'|]. apply (reps_frame h); auto.
    + destruct (dict_get es k) as [v|].
      * destruct IH as (t & G1 & Gv & G2 & Et & -> & Hv & Hset).
        exists t, G1, Gv, G2. repeat split; auto.
        intros h' v' t' Fv' Hlen Hsame Hv'. constructor. now apply Hset.
      * destruct IH as [Et Hset]. split; [exact Et|].
        intros h' v' t' Fv' Hlen Hsame Hv'. constructor. now apply Hset.
  - cbn [dict_get dict_set]. destruct (str_eqb k k0) eqn:E.
    + exists (TDict sub), [], (a :: F1), F2. repeat split; auto.
      * exists F1. auto.
      * intros h' v' t' Fv' Hlen Hsame Hv'. simpl.
        apply reps_cons; [exact Hv'|]. apply (reps_frame h); auto.
    + assert (Hsub : forall h',
                 (length h <= length h')%nat ->
                 (forall b, In b (a :: F1) -> store_get h' b = store_get h b) ->
                 reps h' (store_get h' a) sub F1).
      { intros h' Hlen Hsame. rewrite (Hsame a (or_introl eq_refl)).
        apply (reps_frame h); auto. intros b Hb. apply Hsame. now right. }
      destruct (dict_get es k) as [v|].
      * destruct IH as (t & G1 & Gv & G2 & Et & -> & Hv & Hset).
        exists t, (a :: F1 ++ G1), Gv, G2. repeat split; auto.
        { simpl. now rewrite <- app_assoc. }
        intros h' v' t' Fv' Hlen Hsame Hv'.
        simpl. rewrite <- app_assoc. constructor.
        -- lia.
        -- apply Hsub; [exact Hlen|]. intros b Hb. apply Hsame.
           simpl in Hb |- *. rewrite <- app_assoc, in_app_iff. tauto.
        -- apply Hset; auto. intros b Hb. apply Hsame.
           simpl. right. rewrite <- app_assoc, in_app_iff. now right.
      * destruct IH as [Et Hset]. split; [exact Et|].
        intros h' v' t' Fv' Hlen Hsame Hv'.
        simpl. rewrite <- app_assoc. constructor.
        -- lia.
        -- apply Hsub; [exact Hlen|]. intros b Hb. apply Hsame.
           simpl in Hb |- *. rewrite in_app_iff. tauto.
        -- apply Hset; auto. intros b Hb. apply Hsame.
           simpl. right. rewrite in_app_iff. now right.
Qed.

Lemma post_raises {A : Type} h Fd d (ret : A) e :
  post h Fd d ret (Raises e) (Some (h, Raises e)).
Proof. exists h, (Raises e). repeat split; auto. Qed.

Section Separate.

Variable rec : store -> value -> value -> option (store * outcome value).

(** One turn of the loop. *)
Lemma update_item_sums k tv v Fv h d td Fd :
  sums rec tv ->
  rep h v tv Fv -> rep h d td Fd -> NoDup Fd ->
  (forall a, In a Fd -> ~ In a Fv) ->
  post h Fd d tt (tree_item update_tree td k tv) (update_item true rec h d k v).
Proof.
  intros IH Hv Hd Hnd Hdis.
  destruct v as [n|va], tv as [n'|sub]; try (now destruct Hv).
  - (* an integer *)
    destruct Hv as [<- ->].
    destruct d as [m|da], td as [m'|ditems]; try (now destruct Hd).
    + apply post_raises.
    + destruct Hd as (Hda & Fd' & -> & Hr).
      apply NoDup_cons_iff in Hnd. destruct Hnd as [Hnda Hnd'].
      assert (Hl := reps_lens h _ _ _ k Hr).
      unfold update_item, tree_item. cbn [negb].
      destruct (dict_get (store_get h da) k) as [[m|a0]|] eqn:Eg.
      * destruct Hl as (t0 & F1 & F0 & F2 & Et & -> & H0 & Hset).
        destruct t0 as [m0|]; [|now destruct H0]. destruct H0 as [<- ->].
        rewrite Et.
        exists (setitem h da k (VInt (m + n))), (Returns tt).
        unfold setitem. rewrite length_store_set.
        repeat split; auto.
        { intros a _ Ha. apply store_get_set_other. intros ->. apply Ha. now left. }
        exists (da :: F1 ++ [] ++ F2). repeat split.
        -- now rewrite length_store_set.
        -- exists (F1 ++ [] ++ F2). split; [reflexivity|].
           rewrite store_get_set_same by exact Hda.
           apply Hset.
           ++ now rewrite length_store_set.
           ++ intros a Ha. apply store_get_set_other. intros ->.
              apply Hnda. simpl. exact Ha.
           ++ simpl. auto.
        -- now constructor.
        -- auto.
      * destruct Hl as (t0 & F1 & F0 & F2 & Et & -> & H0 & Hset).
        destruct t0 as [|sub0]; [now destruct H0|].
        rewrite Et. apply post_raises.
      * destruct Hl as [Et Hset]. rewrite Et.
        exists (setitem h da k (VInt n)), (Returns tt).
        unfold setitem. rewrite length_store_set.
        repeat split; auto.
        { intros a _ Ha. apply store_get_set_other. intros ->. apply Ha. now left. }
        exists (da :: Fd' ++ []). repeat split.
        -- now rewrite length_store_set.
        -- exists (Fd' ++ []). split; [reflexivity|].
           rewrite store_get_set_same by exact Hda.
           apply Hset.
           ++ now rewrite length_store_set.
           ++ intros a Ha. apply store_get_set_other. intros ->. auto.
           ++ simpl. auto.
        -- rewrite app_nil_r. now constructor.
        -- rewrite app_nil_r. auto.
  - (* a dictionary *)
    destruct d as [m|da], td as [m'|ditems]; try (now destruct Hd).
    + apply post_raises.
    + destruct Hd as (Hda & Fd' & -> & Hr).
      apply NoDup_cons_iff in Hnd. destruct Hnd as [Hnda Hnd'].
      assert (Hl := reps_lens h _ _ _ k Hr).
      assert (Hbd := reps_bound _ _ _ _ Hr).
      unfold update_item, tree_item. cbn [negb].
      destruct (dict_get (store_get h da) k) as [x|] eqn:Eg.
      * (* the key is in [d] *)
        destruct Hl as (tx & F1 & Fx & F2 & Et & -> & Hx & Hset).
        rewrite Et.
        apply NoDup_app_parts in Hnd'. destruct Hnd' as (Hn1 & Hnx2 & H1x2).
        apply NoDup_app_parts in Hnx2. destruct Hnx2 as (Hnx & Hn2 & Hx2).
        assert (Hcall : post h Fx x x (update_tree tx (TDict sub))
                          (rec h x (VRef va))).
        { apply (IH h x tx Fx (VRef va) Fv); auto.
          intros a Ha. apply Hdis. right.
          apply in_or_app. right. apply in_or_app. now left. }
        destruct Hcall as (h2 & out & -> & Hlen & Hframe & Hspec).
        destruct (update_tree tx (TDict sub)) as [tr|e]; cbn [bind].
        -- destruct Hspec as (-> & Fr & Hrep & Hnr & Hin).
           assert (Hda2 : store_get h2 da = store_get h da).
           { apply Hframe; [exact Hda|]. intros Hc. apply Hnda.
             apply in_or_app. right. apply in_or_app. now left. }
           assert (Hnew : forall a, In a Fr ->
                                    ~ In a (da :: F1 ++ F2)).
           { intros a Ha Hc. destruct (Hin a Ha) as [Hax|Hge].
             - destruct Hc as [<-|Hc].
               + apply Hnda. apply in_or_app. right. apply in_or_app. now left.
               + apply in_app_or in Hc. destruct Hc as [Hc|Hc].
                 * apply (H1x2 a Hc). apply in_or_app. now left.
                 * now apply (Hx2 a Hax).
             - assert (a < length h)%nat; [|lia].
               destruct Hc as [<-|Hc]; [exact Hda|].
               apply Hbd. apply in_app_or in Hc.
               rewrite !in_app_iff. tauto. }
           exists (setitem h2 da k x), (Returns tt).
           unfold setitem. rewrite length_store_set.
           repeat split; auto.
           { intros a Ha Hna. rewrite store_get_set_other.
             - apply Hframe; [exact Ha|]. intros Hc. apply Hna. right.
               apply in_or_app. right. apply in_or_app. now left.
             - intros ->. apply Hna. now left. }
           exists (da :: F1 ++ Fr ++ F2). repeat split.
           ++ rewrite length_store_set. lia.
           ++ exists (F1 ++ Fr ++ F2). split; [reflexivity|].
              rewrite store_get_set_same by lia. rewrite Hda2.
              apply Hset.
              ** rewrite length_store_set. lia.
              ** intros a Ha. rewrite store_get_set_other.
                 { apply Hframe.
                   - apply Hbd. rewrite !in_app_iff. apply in_app_or in Ha. tauto.
                   - intros Hc. apply in_app_or in Ha. destruct Ha as [Ha|Ha].
                     + apply (H1x2 a Ha). apply in_or_app. now left.
                     + now apply (Hx2 a Hc). }
                 { intros ->. apply Hnda. rewrite !in_app_iff.
                   apply in_app_or in Ha. tauto. }
              ** apply (rep_frame h2); auto.
                 { now rewrite length_store_set. }
                 intros a Ha. apply store_get_set_other. intros ->.
                 apply (Hnew _ Ha). now left.
           ++ constructor.
              ** intros Hc. apply in_app_or in Hc. destruct Hc as [Hc|Hc].
                 { apply Hnda. apply in_or_app. now left. }
                 apply in_app_or in Hc. destruct Hc as [Hc|Hc].
                 { apply (Hnew _ Hc). now left. }
                 apply Hnda. apply in_or_app. right. apply in_or_app. now right.
              ** apply NoDup_app_parts. split; [exact Hn1|]. split.
                 { apply NoDup_app_parts. split; [exact Hnr|]. split; [exact Hn2|].
                   intros a Ha Hc. apply (Hnew _ Ha). right.
                   apply in_or_app. now right. }
                 intros a Ha Hc. apply in_app_or in Hc. destruct Hc as [Hc|Hc].
                 { apply (Hnew _ Hc). right. apply in_or_app. now left. }
                 apply (H1x2 a Ha). apply in_or_app. now right.
           ++ intros a [<-|Ha]; [left; now left|].
              apply in_app_or in Ha. destruct Ha as [Ha|Ha].
              { left. right. apply in_or_app. now left. }
              apply in_app_or in Ha. destruct Ha as [Ha|Ha].
              { destruct (Hin a Ha) as [Hax|Hge]; [|now right].
                left. right. apply in_or_app. right. apply in_or_app. now left. }
              left. right. apply in_or_app. right. apply in_or_app. now right.
        -- subst out. exists h2, (Raises e). repeat split; auto.
           intros a Ha Hna. apply Hframe; [exact Ha|]. intros Hc. apply Hna.
           right. apply in_or_app. right. apply in_or_app. now left.
      * (* the key is not in [d]: a new dictionary *)
        destruct Hl as [Et Hset]. rewrite Et.
        unfold alloc. cbv beta iota.
        set (n := length h).
        match goal with |- context [rec ?hh _ _] => set (h1 := hh) end.
        assert (Hlen1 : length h1 = S n).
        { unfold h1. rewrite length_app. simpl. fold n. lia. }
        assert (Hold : forall a, (a < n)%nat -> store_get h1 a = store_get h a).
        { intros a Ha. now apply store_get_app_old. }
        assert (Hvb := rep_bound _ _ _ _ Hv). fold n in Hvb.
        assert (Hcall : post h1 [n] (VRef n) (VRef n)
                          (update_tree (TDict []) (TDict sub))
                          (rec h1 (VRef n) (VRef va))).
        { apply (IH h1 (VRef n) (TDict []) [n] (VRef va) Fv).
          - split; [lia|]. exists []. split; [reflexivity|].
            unfold h1, n. rewrite store_get_app_new. constructor.
          - repeat constructor. simpl. tauto.
          - apply (rep_frame h); [exact Hv|lia|].
            intros a Ha. apply Hold. auto.
          - intros a [<-|[]] Hc. apply Hvb in Hc. lia. }
                destruct Hcall as (h2 & out & -> & Hlen & Hframe & Hspec).
        destruct (update_tree (TDict []) (TDict sub)) as [tr|e]; cbn [bind].
        -- destruct Hspec as (-> & Fr & Hrep & Hnr & Hin).
           assert (Hkeep : forall a, (a < n)%nat ->
                                     store_get h2 a = store_get h a).
           { intros a Ha. rewrite Hframe; [now apply Hold|lia|].
             intros [<-|[]]. lia. }
           assert (Hnew : forall a, In a Fr -> (n <= a)%nat).
           { intros a Ha. destruct (Hin a Ha) as [[<-|[]]|Hge]; lia. }
           exists (setitem h2 da k (VRef n)), (Returns tt).
           unfold setitem. rewrite length_store_set.
           fold n in Hda.
           repeat split; auto.
           { fold n. lia. }
           { fold n. intros a Ha Hna. rewrite store_get_set_other.
             - now apply Hkeep.
             - intros ->. apply Hna. now left. }
           exists (da :: Fd' ++ Fr). repeat split.
           ++ rewrite length_store_set. lia.
           ++ exists (Fd' ++ Fr). split; [reflexivity|].
              rewrite store_get_set_same by lia.
              rewrite (Hkeep da Hda).
              apply Hset.
              ** rewrite length_store_set. fold n. lia.
              ** intros a Ha. rewrite store_get_set_other.
                 { apply Hkeep. now apply Hbd. }
                 intros ->. auto.
              ** apply (rep_frame h2); auto.
                 { now rewrite length_store_set. }
                 intros a Ha. apply store_get_set_other. intros ->.
                 apply Hnew in Ha. lia.
           ++ constructor.
              ** intros Hc. apply in_app_or in Hc. destruct Hc as [Hc|Hc]; [auto|].
                 apply Hnew in Hc. lia.
              ** apply NoDup_app_parts. repeat split; auto.
                 intros a Ha Hc. apply Hnew in Hc. apply Hbd in Ha. fold n in Ha. lia.
           ++ intros a [<-|Ha]; [left; now left|].
              apply in_app_or in Ha. destruct Ha as [Ha|Ha].
              { left. now right. }
              right. fold n. now apply Hnew.
        -- subst out. exists h2, (Raises e). repeat split; auto.
           { fold n. lia. }
           fold n. intros a Ha Hna. rewrite Hframe; [now apply Hold|lia|].
           intros [<-|[]]. lia.
Qed.

Lemma post_trans {A : Type} h h1 Fd Fd1 d (ret : A) spec res :
  (length h <= length h1)%nat ->
  (forall a, (a < length h)%nat -> ~ In a Fd ->
             store_get h1 a = store_get h a) ->
  (forall a, In a Fd1 -> In a Fd \/ (length h <= a)%nat) ->
  post h1 Fd1 d ret spec res -> post h Fd d ret spec res.
Proof.
  intros Hlen Hframe Hsub (h' & out & -> & Hlen' & Hframe' & Hspec).
  exists h', out. split; [reflexivity|]. split; [lia|]. split.
  - intros a Ha Hna. rewrite Hframe'; [now apply Hframe|lia|].
    intros Hc. destruct (Hsub a Hc); [auto|lia].
  - destruct spec as [tr|e]; [|exact Hspec].
    destruct Hspec as (-> & Fr & Hrep & Hnr & Hin).
    split; [reflexivity|]. exists Fr. repeat split; auto.
    intros a Ha. destruct (Hin a Ha) as [H1|H1]; [|right; lia].
    destruct (Hsub a H1); [now left|now right].
Qed.

Lemma reps_inv_cons h es k t ts F :
  reps h es ((k, t) :: ts) F ->
  exists v rest Fv Fr,
    es = (k, v) :: rest /\ F = Fv ++ Fr /\ rep h v t Fv /\ reps h rest ts Fr.
Proof.
  intros H. inversion H; subst.
  - exists (VInt z), items, [], F. simpl. auto.
  - exists (VRef a), items, (a :: F1), F2. simpl. repeat split; auto.
    exists F1. auto.
Qed.

(** The loop, from any position on. *)
Lemma update_loop_sums (ua : addr) (entries : dict value) : forall todo_t,
  Forall (fun kv => sums rec (snd kv)) todo_t ->
  forall done_e todo_e F_todo h d td Fd,
    (ua < length h)%nat ->
    store_get h ua = entries -> entries = done_e ++ todo_e ->
    reps h todo_e todo_t F_todo ->
    rep h d td Fd -> NoDup Fd ->
    (forall a, In a Fd -> a <> ua /\ ~ In a F_todo) ->
    post h Fd d d (tree_loop update_tree td todo_t)
      (update_loop true rec ua (length entries)
         (seq (length done_e) (length todo_e)) h d).
Proof.
  induction 1 as [|[k tv] rest_t Hk _ IH];
    intros done_e todo_e F_todo h d td Fd Hua Hu Hsplit Hr Hd Hnd Hdis.
  - inversion Hr; subst todo_e.
    cbn [length seq update_loop tree_loop]. rewrite Hu, Nat.eqb_refl. cbn [negb].
    exists h, (Returns d). repeat split; auto.
    exists Fd. auto.
  - apply reps_inv_cons in Hr.
    destruct Hr as (v & rest_e & Fv & Fr & -> & -> & Hv & Hrest).
    cbn [length seq update_loop tree_loop]. rewrite Hu, Nat.eqb_refl. cbn [negb].
    rewrite Hsplit at 1. rewrite nth_error_middle.
    cbn [snd] in Hk.
    destruct (update_item_sums k tv v Fv h d td Fd Hk Hv Hd Hnd)
      as (h1 & o & -> & Hlen & Hframe & Hspec).
    { intros a Ha Hc. apply (proj2 (Hdis a Ha)). apply in_or_app. now left. }
    destruct (tree_item update_tree td k tv) as [td1|e]; cbn [bind].
    + destruct Hspec as (-> & Fd1 & Hd1 & Hnd1 & Hin).
      apply (post_trans h h1 Fd Fd1); auto.
      replace (S (length done_e)) with (length (done_e ++ [(k, v)]))
        by (rewrite length_app; simpl; lia).
      assert (Hbr := reps_bound _ _ _ _ Hrest).
      apply (IH (done_e ++ [(k, v)]) rest_e Fr h1 d td1 Fd1); auto.
      * lia.
      * rewrite Hframe; [exact Hu|exact Hua|]. intros Hc.
        destruct (Hdis ua Hc) as [Hx _]. now apply Hx.
      * now rewrite <- app_assoc.
      * apply (reps_frame h); auto. intros a Ha. apply Hframe; auto.
        intros Hc. apply (proj2 (Hdis a Hc)). apply in_or_app. now right.
      * intros a Ha. destruct (Hin a Ha) as [Hc|Hge].
        -- split; [apply (Hdis a Hc)|]. intros Hx.
           apply (proj2 (Hdis a Hc)). apply in_or_app. now right.
        -- split; [lia|]. intros Hx. apply Hbr in Hx. lia.
    + subst o. exists h1, (Raises e). repeat split; auto.
Qed.

End Separate.

Lemma depth_item k t items :
  In (k, t) items -> (depth t < depth (TDict items))%nat.
Proof.
  cbn [depth]. induction items as [|[k0 t0] items IH]; intros H; [destruct H|].
  destruct H as [H|H].
  - injection H as -> ->. lia.
  - apply IH in H. lia.
Qed.

(** With enough fuel for the depth of [tu], the function does for
    [tu] what the trees say. *)
Lemma update_recursive_sum_sums : forall tu fuel,
  (depth tu < fuel)%nat -> sums (update_recursive_sum true fuel) tu.
Proof.
  induction tu as [z|items IH] using tree_rect';
    intros fuel Hf h d td Fd u Fu Hd Hnd Hu Hdis.
  - destruct u as [z'|]; [|now destruct Hu].
    destruct fuel as [|fuel]; [lia|]. apply post_raises.
  - destruct u as [|ua]; [now destruct Hu|].
    destruct Hu as (Hua & Fu' & -> & Hr).
    destruct fuel as [|fuel]; [lia|].
    cbn [update_recursive_sum update_tree].
    apply (update_loop_sums (update_recursive_sum true fuel) ua
             (store_get h ua) items) with (done_e := []) (F_todo := Fu'); auto.
    + rewrite Forall_forall in IH |- *. intros [k t] Hkt. cbn [snd].
      apply (IH (k, t) Hkt). cbn [snd]. apply depth_item in Hkt. lia.
    + intros a Ha. split.
      * intros ->. apply (Hdis ua Ha). now left.
      * intros Hc. apply (Hdis a Ha). now right.
Qed.

(** X18.  On an interpreter where [collections] has the name
    [Mapping]: when [d] stands for a tree of which no dictionary is
    reached twice, and shares no dictionary with [u], the call does what
    the recursive sum of the two trees says, given fuel for the depth of
    [u]: it raises the same exception, or it returns [d] itself, which
    then stands for the sum of the trees, again without a dictionary
    reached twice, so that its integers add up to those of [d] and those
    of [u] together; [u] is as it was, and so is every dictionary that
    was in the store and not in [d]. *)
Theorem update_recursive_sum_separate
    (fuel : nat) (h : store) (d u : value) (td tu : tree) (Fd Fu : list addr) :
  rep h d td Fd -> rep h u tu Fu ->
  NoDup Fd -> (forall a, In a Fd -> ~ In a Fu) ->
  (depth tu < fuel)%nat ->
  exists h' out,
    update_recursive_sum true fuel h d u = Some (h', out) /\
    (forall a, (a < length h)%nat -> ~ In a Fd ->
               store_get h' a = store_get h a) /\
    match update_tree td tu with
    | Returns tr =>
        out = Returns d /\
        (exists Fr, rep h' d tr Fr /\ NoDup Fr) /\
        rep h' u tu Fu /\
        total tr = (total td + total tu)%Z
    | Raises e => out = Raises e
    end.
Proof.
  intros Hd Hu Hnd Hdis Hf.
  destruct (update_recursive_sum_sums tu fuel Hf h d td Fd u Fu Hd Hnd Hu Hdis)
    as (h' & out & E & Hlen & Hframe & Hspec).
  exists h', out. split; [exact E|]. split; [exact Hframe|].
  destruct (update_tree td tu) as [tr|e] eqn:Et; [|exact Hspec].
  destruct Hspec as (-> & Fr & Hrep & Hnr & _).
  split; [reflexivity|]. split; [now exists Fr|]. split.
  - apply (rep_frame h); auto. intros a Ha. apply Hframe.
    + now apply (rep_bound _ _ _ _ Hu).
    + intros Hc. now apply (Hdis a Hc).
  - now apply update_tree_total.
Qed.

Lemma update_recursive_sum_separate_witness :
  exists h',
    update_recursive_sum true 4
      [ [(lit "a", VRef 1); (lit "b", VInt 1)];
        [(lit "x", VInt 1)];
        [(lit "a", VRef 3); (lit "b", VInt 10)];
        [(lit "x", VInt 2); (lit "y", VRef 4)];
        [(lit "z", VInt 5)] ]
      (VRef 0) (VRef 2)
    = Some (h', Returns (VRef 0)) /\
    (exists Fr,
        rep h' (VRef 0)
          (TDict [(lit "a", TDict [(lit "x", TNum 3);
                                   (lit "y", TDict [(lit "z", TNum 5)])]);
                  (lit "b", TNum 11)])
          Fr /\ NoDup Fr) /\
    store_get h' 2 = [(lit "a", VRef 3); (lit "b", VInt 10)].
Proof.
  destruct (update_recursive_sum_separate 4
              [ [(lit "a", VRef 1); (lit "b", VInt 1)];
                [(lit "x", VInt 1)];
                [(lit "a", VRef 3); (lit "b", VInt 10)];
                [(lit "x", VInt 2); (lit "y", VRef 4)];
                [(lit "z", VInt 5)] ]
              (VRef 0) (VRef 2)
              (TDict [(lit "a", TDict [(lit "x", TNum 1)]); (lit "b", TNum 1)])
              (TDict [(lit "a", TDict [(lit "x", TNum 2);
                                       (lit "y", TDict [(lit "z", TNum 5)])]);
                      (lit "b", TNum 10)])
              [0; 1]%nat [2; 3; 4]%nat)
    as (h' & out & E & Hframe & Hspec).
  - simpl. split; [lia|]. eexists. split; [reflexivity|].
    apply (reps_ref _ _ 1%nat _ _ _ [] []); [simpl; lia| |].
    + repeat constructor.
    + repeat constructor.
  - simpl. split; [lia|]. eexists. split; [reflexivity|].
    apply (reps_ref _ _ 3%nat _ _ _ [4%nat] []); [simpl; lia| |].
    + apply reps_int. apply (reps_ref _ _ 4%nat _ _ _ [] []); [simpl; lia| |].
      * repeat constructor.
      * constructor.
    + repeat constructor.
  - repeat constructor; simpl; intuition lia.
  - simpl. intuition lia.
  - simpl. lia.
  - change (update_tree _ _)
      with (Returns (TDict [(lit "a", TDict [(lit "x", TNum 3);
                                             (lit "y", TDict [(lit "z", TNum 5)])]);
                            (lit "b", TNum 11)])) in Hspec.
    destruct Hspec as (-> & HFr & _ & _).
    exists h'. split; [exact E|]. split; [exact HFr|].
    apply (Hframe 2%nat); simpl; [lia|intuition lia].
Defined.

(** A dictionary that is stored under two keys of [d] is updated under
    both: with [d = {'a': x, 'b': x}] for one empty dictionary [x], and
    [u = {'a': {'k': 1}}], the result reads [{'a': {'k': 1}, 'b': {'k':
    1}}]. *)
Example update_recursive_sum_shared :
  update_recursive_sum true 2
    [ []; [(lit "a", VRef 0); (lit "b", VRef 0)];
      [(lit "k", VInt 1)]; [(lit "a", VRef 2)] ]
    (VRef 1) (VRef 3)
  = Some ([ [(lit "k", VInt 1)]; [(lit "a", VRef 0); (lit "b", VRef 0)];
            [(lit "k", VInt 1)]; [(lit "a", VRef 2)] ],
          Returns (VRef 1)).
Proof. reflexivity. Qed.

(** A dictionary that grows while the loop goes over it stops the
    loop: with [u = {'a': {'k': 1}}] and [d = {'a': u}], the inner call
    adds the key [k] to [u]. *)
Example update_recursive_sum_changed_size :
  update_recursive_sum true 2
    [ [(lit "k", VInt 1)]; [(lit "a", VRef 0)]; [(lit "a", VRef 1)] ]
    (VRef 2) (VRef 1)
  = Some ([ [(lit "k", VInt 1)]; [(lit "a", VRef 0); (lit "k", VInt 1)];
            [(lit "a", VRef 1)] ],
          Raises (RuntimeError "dictionary changed size during iteration")).
Proof. reflexivity. Qed.

(** ** [clean_doi]: what it does not look at *)

(** X20.  On ASCII input [clean_doi] looks only at the printable
    characters, in small letters: two inputs that differ in letter
    case, in white space or in control characters, anywhere in the
    text, have the same result. *)
Theorem clean_doi_looks_at_printable (U : Unicode) (x y : str) :
  ascii_str x -> ascii_str y -> x <> [] -> y <> [] ->
  map ascii_lower (filter printable x) = map ascii_lower (filter printable y) ->
  clean_doi U (Some x) = clean_doi U (Some y).
Proof.
  intros Hx Hy Hnx Hny H.
  transitivity (match find_ten (cleaned U x) with
                | Some suf => Return (before_hash suf)
                | None => Raise no_valid_doi
                end); [exact (clean_doi_find U x Hnx)|].
  rewrite (cleaned_ascii U x Hx), H, <- (cleaned_ascii U y Hy).
  symmetry. exact (clean_doi_find U y Hny).
Qed.

Lemma clean_doi_looks_at_printable_witness :
  clean_doi tab_unicode (Some (lit " DOI: 10.1000 /Xyz
"))
  = clean_doi tab_unicode (Some (lit "doi:10.1000/xyz")).
Proof.
  apply (clean_doi_looks_at_printable tab_unicode); try reflexivity;
    discriminate.
Defined.
